(** * ESMF timing-summary reports: the two [timing.py] scripts

    A shallow embedding of [run-cam/timing.py] and [timing/timing.py] and the
    properties of their profiling-report core: the line tokenizer, the
    indentation-derived children of a region, the name registry, the ranking
    and the comparison statistics.

    Conventions of the embedding.
    - Python [float] is IEEE binary64, that is Rocq's primitive [float];
      every arithmetic operation and comparison below is the primitive one.
    - Python [int] is [Z]; list positions are [nat].
    - A Python [str] is a [string]; its characters are the code points
      U+0000 to U+00FF, so the character classes of [re] and [str] are the
      restrictions of the Unicode ones to that range.
    - A document is given by its decoded text (what [Path.read_text]
      returns); reading the file itself is outside the embedding.
    - An exception is a value of [exn]; code that may raise returns a
      [result]. *)

From Stdlib Require Import ZArith Floats Ascii String List Lia Bool.
From stdpp Require Import base tactics option list gmap strings sorting.

Local Open Scope string_scope.
Local Open Scope list_scope.

(** ** Python exceptions and results *)

Inductive exn : Type :=
| RuntimeError (msg : string)
| SystemExit (msg : string)
| KeyError (key : string)
| IndexError
| ZeroDivisionError
| ValueError.                          (* the message is left out *)

Inductive result (A : Type) : Type :=
| Ok (a : A)
| Raise (e : exn).
Arguments Ok {A} a.
Arguments Raise {A} e.

Global Instance result_ret : MRet result := λ A a, Ok a.
Global Instance result_bind : MBind result := λ A B f m,
  match m with
  | Ok a => f a
  | Raise e => Raise e
  end.

Global Instance result_fmap : FMap result := λ A B f m,
  match m with
  | Ok a => Ok (f a)
  | Raise e => Raise e
  end.

Definition raises {A} (m : result A) : Prop := ∃ e, m = Raise e.

(** ** Characters *)

Definition code (c : ascii) : N := N_of_ascii c.

(** [\s] of [re] on [str], and [str.isspace]: TAB..CR, FS..US, space,
    NEL and NBSP. *)
Definition is_space (c : ascii) : bool :=
  let n := code c in
  ((9 <=? n) && (n <=? 13) || (28 <=? n) && (n <=? 32)
   || (n =? 133) || (n =? 160))%N.

(** [\d]: the decimal digits. *)
Definition is_digit (c : ascii) : bool :=
  let n := code c in ((48 <=? n) && (n <=? 57))%N.

(** [.] without DOTALL: anything but a line feed. *)
Definition is_dot (c : ascii) : bool := negb (code c =? 10)%N.

Definition is_char (a c : ascii) : bool := (code a =? code c)%N.

(** Line boundaries of [str.splitlines]: LF, VT, FF, CR, FS, GS, RS, NEL
    (and CR LF as one boundary). *)
Definition is_linebreak (c : ascii) : bool :=
  let n := code c in
  ((10 <=? n) && (n <=? 13) || (28 <=? n) && (n <=? 30) || (n =? 133))%N.

(** [str.splitlines()]: the lines without their boundaries; a final
    boundary opens no empty last line. [cur] is the current line, reversed. *)
Fixpoint splitlines_from (cur : list ascii) (s : list ascii) : list string :=
  match s with
  | [] =>
      match cur with
      | [] => []
      | _ => [string_of_list_ascii (reverse cur)]
      end
  | c :: s' =>
      if is_linebreak c then
        string_of_list_ascii (reverse cur) ::
        match s' with
        | c' :: s'' =>
            if (code c =? 13)%N && (code c' =? 10)%N
            then splitlines_from [] s''
            else splitlines_from [] s'
        | [] => []
        end
      else splitlines_from (c :: cur) s'
  end.

Definition splitlines (text : string) : list string :=
  splitlines_from [] (list_ascii_of_string text).

(** [str.strip()]. *)
Fixpoint lstrip (s : list ascii) : list ascii :=
  match s with
  | c :: s' => if is_space c then lstrip s' else s
  | [] => []
  end.

Definition strip (s : string) : string :=
  string_of_list_ascii (reverse (lstrip (reverse (lstrip (list_ascii_of_string s))))).

(** ** Regular expressions, as [re] matches them

    A backtracking matcher with ordered choice, greedy and lazy repetition
    and named groups. [k] is the continuation run on the rest of the input;
    a failure of [k] makes the matcher try its next alternative, which is
    how [re] backtracks. *)

Inductive regex : Type :=
| Eps
| Eos                                  (* [$] *)
| Class (p : ascii → bool)
| Seq (r1 r2 : regex)
| Alt (r1 r2 : regex)
| Star (greedy : bool) (r : regex)
| Group (name : string) (r : regex).

Abbreviation groups := (gmap string string).

Definition or_else {A} (x y : option A) : option A :=
  match x with
  | Some a => Some a
  | None => y
  end.

Fixpoint re_exec (r : regex) (s : list ascii) (g : groups)
    (k : list ascii → groups → option groups) {struct r} : option groups :=
  match r with
  | Eps => k s g
  | Eos =>
      match s with
      | [] => k s g
      | [c] => if (code c =? 10)%N then k s g else None
      | _ => None
      end
  | Class p =>
      match s with
      | c :: s' => if p c then k s' g else None
      | [] => None
      end
  | Seq r1 r2 => re_exec r1 s g (λ s' g', re_exec r2 s' g' k)
  | Alt r1 r2 => or_else (re_exec r1 s g k) (re_exec r2 s g k)
  | Star greedy r1 =>
      (fix loop (fuel : nat) (s : list ascii) (g : groups) : option groups :=
         match fuel with
         | O => k s g
         | S fuel' =>
             let again :=
               re_exec r1 s g
                 (λ s' g', if (length s' <? length s)%nat
                           then loop fuel' s' g' else None) in
             if greedy then or_else again (k s g)
             else or_else (k s g) again
         end) (length s) s g
  | Group name r1 =>
      re_exec r1 s g
        (λ s' g',
           k s' (<[name := string_of_list_ascii
                             (take (length s - length s') s)]> g'))
  end.

(** [pattern.match(line)]: anchored at the start only. *)
Definition re_match (r : regex) (line : string) : option groups :=
  re_exec r (list_ascii_of_string line) ∅ (λ _ g, Some g).

Definition Plus (r : regex) : regex := Seq r (Star true r).
Definition Opt (r : regex) : regex := Alt r Eps.
Fixpoint Lit (s : string) : regex :=
  match s with
  | EmptyString => Eps
  | String c s' => Seq (Class (is_char c)) (Lit s')
  end.
Fixpoint Seqs (rs : list regex) : regex :=
  match rs with
  | [] => Eps
  | r :: rs' => Seq r (Seqs rs')
  end.

Definition ws : regex := Class is_space.
Definition nws : regex := Class (λ c, negb (is_space c)).
Definition digits : regex := Plus (Class is_digit).
Definition decimal : regex := Seqs [digits; Lit "."; digits].

(** The pattern of [parse_esmf_summary], the same in both scripts. *)
Definition pat : regex :=
  Seqs [
    Group "indent" (Star true ws);
    Group "name" (Alt (Seqs [nws; Star false (Class is_dot); nws]) nws);
    Plus ws;
    Opt (Seqs [Group "PETs" digits; Plus ws; Group "PEs" digits; Plus ws]);
    Group "count" (Alt (Lit "MULTIPLE") digits); Plus ws;
    Group "mean" decimal; Plus ws;
    Group "min" decimal; Plus ws;
    Group "minpet" digits; Plus ws;
    Group "max" decimal; Plus ws;
    Group "maxpet" digits; Star true ws;
    Eos ].

(** ** [int] and [float] of a matched field *)

Definition digit_val (c : ascii) : Z := Z.of_N (code c) - 48.

(** The number that a run of decimal digits denotes. *)
Definition digits_value (s : string) : Z :=
  fold_left (λ acc c, 10 * acc + digit_val c)%Z (list_ascii_of_string s) 0%Z.

(** The default of [sys.get_int_max_str_digits()]. *)
Definition max_str_digits : nat := 4300.

(** [int(s)] for [s] a run of decimal digits: a run of more than
    [max_str_digits] digits, leading zeros counted, raises [ValueError]. *)
Definition int_of_digits (s : string) : result Z :=
  if (max_str_digits <? String.length s)%nat then Raise ValueError
  else Ok (digits_value s).

Fixpoint split_dot (s : list ascii) : list ascii * list ascii :=
  match s with
  | [] => ([], [])
  | c :: s' =>
      if (code c =? 46)%N then ([], s')
      else let '(a, b) := split_dot s' in (c :: a, b)
  end.

(** [float(s)] for [s] of the shape [\d+\.\d+]: the binary64 value nearest
    to the decimal [n / 10^k] (ties to even), [n] being the digits read as
    one integer and [k] the number of fractional digits. The quotient is
    rounded once. *)
Definition float_of_decimal (s : string) : float :=
  let '(ip, fp) := split_dot (list_ascii_of_string s) in
  let n := digits_value (string_of_list_ascii (ip ++ fp)) in
  let k := Z.of_nat (length fp) in
  match n with
  | Zpos p =>
      SF2Prim (SFdiv prec emax (S754_finite false p 0)
                 (S754_finite false (Z.to_pos (10 ^ k)) 0))
  | _ => 0%float
  end.

(** ** Python arithmetic on [float] *)

Local Open Scope float_scope.

(** [x / y]: a zero divisor raises. *)
Definition py_div (x y : float) : result float :=
  if y =? 0 then Raise ZeroDivisionError else Ok (x / y).

(** Truth value of a float: anything but zero. *)
Definition truthy (x : float) : bool := negb (x =? 0).

(** [max(a, b)] of two arguments: [b] when [b > a], else [a]. *)
Definition py_max (a b : float) : float := if a <? b then b else a.

(** [x != x]. *)
Definition is_NaN (x : float) : bool := negb (x =? x).

Local Close Scope float_scope.

(** ** Python sequences *)

(** [l[:n]]: a negative [n] counts from the end. *)
Definition slice_to {A} (l : list A) (n : Z) : list A :=
  if (0 <=? n)%Z then take (Z.to_nat n) l
  else take (Z.to_nat (Z.of_nat (length l) + n)) l.

(** Insertion of [x] behind every element that is not greater than it. *)
Fixpoint insert_by {A} (lt : A → A → bool) (x : A) (l : list A) : list A :=
  match l with
  | [] => [x]
  | y :: l' => if lt x y then x :: y :: l' else y :: insert_by lt x l'
  end.

(** A stable ascending sort that, like [list.sort], compares with [<]
    only. *)
Definition stable_sort {A} (lt : A → A → bool) (l : list A) : list A :=
  foldl (λ acc x, insert_by lt x acc) [] l.

(** [sorted(l, key=key, reverse=rev)] with [float] keys: with
    [reverse=True] the list is reversed, sorted ascending and reversed again,
    which keeps equal keys in their original order. *)
Definition sorted {A} (key : A → float) (rev : bool) (l : list A)
    : list A :=
  let lt := λ a b, (key a <? key b)%float in
  if rev then reverse (stable_sort lt (reverse l)) else stable_sort lt l.

(** [sorted(set(l))] on strings. *)
Definition sorted_set (l : list string) : list string :=
  stable_sort String.ltb (remove_dups l).

(** [l.index(x)]: the first position of [x]. *)
Fixpoint index_from (i : nat) (l : list string) (x : string) : option nat :=
  match l with
  | [] => None
  | y :: l' => if decide (y = x) then Some i else index_from (S i) l' x
  end.

(** [any(p(x) for x in l)]. *)
Definition any {A} (p : A → bool) (l : list A) : bool := existsb p l.

(** ** [run-cam/timing.py] *)

Module RunCam.

Definition ANNOTATE_THRESHOLD_PCT : float := 5.0%float.

(** The dict built for one matching line. The key ["% of parent (mean)"],
    which [main] later stores into the rows of the children, is the field
    [pct_of_parent]; it is [None] as long as the key is absent. *)
Record Row : Type := {
  indent : nat;
  region : string;
  PETs : option Z;
  PEs : option Z;
  Count : option Z;
  Mean : float;
  Min : float;
  MinPET : Z;
  Max : float;
  MaxPET : Z;
  pct_of_parent : option float }.

Global Instance Row_inhabited : Inhabited Row :=
  populate {| indent := 0; region := EmptyString; PETs := None; PEs := None;
              Count := None; Mean := 0%float; Min := 0%float; MinPET := 0;
              Max := 0%float; MaxPET := 0; pct_of_parent := None |}.

(** [g[name]] of a group that took part in the match. *)
Definition group (g : groups) (name : string) : string :=
  default EmptyString (g !! name).

(** [int(g[name]) if g.get(name) else None]. *)
Definition optional_int (g : groups) (name : string) : result (option Z) :=
  match g !! name with
  | Some EmptyString | None => Ok None
  | Some s => Some <$> int_of_digits s
  end.

(** The dict literal: its values are evaluated in the order of the keys,
    and the first [int] that raises ends the evaluation. *)
Definition make_row (g : groups) : result Row :=
  let indent := String.length (group g "indent") in
  let region := strip (group g "name") in
  pets ← optional_int g "PETs";
  pes ← optional_int g "PEs";
  count ← (if decide (group g "count" = "MULTIPLE") then Ok None
           else Some <$> int_of_digits (group g "count"));
  let mean := float_of_decimal (group g "mean") in
  let min := float_of_decimal (group g "min") in
  minpet ← int_of_digits (group g "minpet");
  let max := float_of_decimal (group g "max") in
  maxpet ← int_of_digits (group g "maxpet");
  Ok {| indent := indent; region := region; PETs := pets; PEs := pes;
        Count := count; Mean := mean; Min := min; MinPET := minpet;
        Max := max; MaxPET := maxpet; pct_of_parent := None |}.

(** The loop over the lines: a line that does not match is skipped, and an
    exception of the row of a line ends the loop. *)
Fixpoint parse_loop (rows : list Row) (lines : list string)
    : result (list Row) :=
  match lines with
  | [] => Ok rows
  | line :: lines' =>
      match re_match pat line with
      | None => parse_loop rows lines'
      | Some g => row ← make_row g; parse_loop (rows ++ [row]) lines'
      end
  end.

Definition parse_lines (lines : list string) : result (list Row) :=
  parse_loop [] lines.

Definition no_rows_msg : string :=
  "No Region rows parsed. Is this an ESMF_Profile.summary file?".

Definition parse_esmf_summary (text : string) : result (list Row) :=
  rows ← parse_lines (splitlines text);
  match rows with
  | [] => Raise (RuntimeError no_rows_msg)
  | _ => Ok rows
  end.

(** The three helpers read their rows through [row_of]: a Python list
    holds references to the row dicts, and what a reference denotes
    depends on the store ([row_of] is the identity on plain row values). *)
Section Helpers.
Context {A : Type} (row_of : A → Row).

Fixpoint find_from (i : nat) (rows : list A) (name : string)
    : option (A * nat) :=
  match rows with
  | [] => None
  | r :: rows' =>
      if decide (region (row_of r) = name) then Some (r, i)
      else find_from (S i) rows' name
  end.

(** [(parent_row, parent_index)], or [None] for [(None, None)]. *)
Definition find_region_rows (rows : list A) (name : string)
    : option (A * nat) :=
  find_from 0 rows name.

(** The loop of [collect_children] over [range(parent_idx + 1, len(rows))]. *)
Fixpoint collect_loop (parent_indent : nat) (rows : list A)
    (js : list nat) (out : list A) : result (list A) :=
  match js with
  | [] => Ok out
  | j :: js' =>
      match rows !! j with
      | None => Raise IndexError
      | Some r =>
          if (indent (row_of r) <=? parent_indent)%nat then Ok out
          else collect_loop parent_indent rows js' (out ++ [r])
      end
  end.

Definition collect_children (rows : list A) (parent_idx : nat)
    : result (list A) :=
  match rows !! parent_idx with
  | None => Raise IndexError
  | Some p =>
      collect_loop (indent (row_of p)) rows
        (seq (parent_idx + 1) (length rows - (parent_idx + 1))) []
  end.

Definition build_region_map (rows : list A) : gmap string A :=
  foldl (λ m r, <[region (row_of r) := r]> m) ∅ rows.
End Helpers.

(** *** The store of row dicts

    The rows are mutable dicts shared between the lists that hold them:
    a list of rows is a list of references into the store. *)

Abbreviation ref := nat.
Abbreviation heap := (list Row).

Definition deref (h : heap) (r : ref) : Row := h !!! r.

(** Fresh dicts for parsed rows, and the list holding them. *)
Definition alloc (h : heap) (rows : list Row) : heap * list ref :=
  (h ++ rows, seq (length h) (length rows)).

Definition with_pct (v : float) (r : Row) : Row := {|
  indent := indent r; region := region r; PETs := PETs r; PEs := PEs r;
  Count := Count r; Mean := Mean r; Min := Min r; MinPET := MinPET r;
  Max := Max r; MaxPET := MaxPET r; pct_of_parent := Some v |}.

(** [r["% of parent (mean)"] = v]. *)
Definition set_pct (h : heap) (r : ref) (v : float) : heap :=
  alter (with_pct v) r h.

(** [100.0 * (mean / pmean) if pmean > 0 else float("nan")]. *)
Definition share_of_parent (pmean mean : float) : result float :=
  if (0 <? pmean)%float then
    q ← py_div mean pmean; Ok (100 * q)%float
  else Ok nan.

Fixpoint share_loop (pmean : float) (children : list ref) (h : heap)
    : result heap :=
  match children with
  | [] => Ok h
  | r :: children' =>
      v ← share_of_parent pmean (Mean (deref h r));
      share_loop pmean children' (set_pct h r v)
  end.

(** [(base_mean / opt_mean) if opt_mean and opt_mean > 0 else None]. *)
Definition speedup_base_over_opt (base_mean opt_mean : float)
    : result (option float) :=
  if truthy opt_mean && (0 <? opt_mean)%float then
    q ← py_div base_mean opt_mean; Ok (Some q)
  else Ok None.

(** *** The rows handed to the table, the CSV file and the plot *)

Record OptCols : Type := {
  optimized_mean_s : float;
  optimized_min_s : float;
  optimized_max_s : float;
  optimized_count : option Z;
  optimized_PETs : option Z;
  optimized_PEs : option Z;
  speedup : option float }.

(** [row_out]; [optimized] is [None] when the row has no [optimized_*]
    keys. *)
Record CsvRow : Type := {
  csv_region : string;
  baseline_mean_s : float;
  baseline_min_s : float;
  baseline_max_s : float;
  baseline_count : option Z;
  baseline_PETs : option Z;
  baseline_PEs : option Z;
  optimized : option OptCols }.

(** A printed table line: the name cut to 40 characters, the baseline
    columns and the optimized ones, [None] standing for the four ["-"]. *)
Record TableLine : Type := {
  t_name : string;
  t_base : float * float * float;
  t_opt : option (float * float * float * float) }.

Record Acc : Type := {
  csv_rows : list CsvRow;
  labels : list string;
  base_means : list float;
  base_xerr_low : list float;
  base_xerr_high : list float;
  opt_means : list (option float);
  table : list TableLine }.

Definition empty_acc : Acc := {|
  csv_rows := []; labels := []; base_means := []; base_xerr_low := [];
  base_xerr_high := []; opt_means := []; table := [] |}.

Definition substring_to (n : nat) (s : string) : string :=
  string_of_list_ascii (take n (list_ascii_of_string s)).

(** One turn of the loop over [base_children_sorted]. *)
Definition emit_row (h : heap) (with_opt : bool) (opt_map : gmap string ref)
    (acc : Acc) (r : ref) : result Acc :=
  let row := deref h r in
  let name := region row in
  let base_mean := Mean row in
  let base_min := Min row in
  let base_max := Max row in
  let low := py_max 0 (base_mean - base_min) in
  let high := py_max 0 (base_max - base_mean) in
  let out (o : option OptCols) := {|
    csv_region := name; baseline_mean_s := base_mean;
    baseline_min_s := base_min; baseline_max_s := base_max;
    baseline_count := Count row; baseline_PETs := PETs row;
    baseline_PEs := PEs row; optimized := o |} in
  let push (om : option float) (line : list TableLine) (o : option OptCols) := {|
    csv_rows := csv_rows acc ++ [out o];
    labels := labels acc ++ [name];
    base_means := base_means acc ++ [base_mean];
    base_xerr_low := base_xerr_low acc ++ [low];
    base_xerr_high := base_xerr_high acc ++ [high];
    opt_means := opt_means acc ++ [om];
    table := table acc ++ line |} in
  match (if with_opt then opt_map !! name else None) with
  | Some oref =>
      let o := deref h oref in
      let opt_mean := Mean o in
      s ← speedup_base_over_opt base_mean opt_mean;
      let shown := match s with
                   | Some v => if truthy v then v else nan
                   | None => nan
                   end in
      Ok (push (Some opt_mean)
            [{| t_name := substring_to 40 name;
                t_base := (base_mean, base_min, base_max);
                t_opt := Some (opt_mean, Min o, Max o, shown) |}]
            (Some {| optimized_mean_s := opt_mean;
                     optimized_min_s := Min o;
                     optimized_max_s := Max o;
                     optimized_count := Count o;
                     optimized_PETs := PETs o;
                     optimized_PEs := PEs o;
                     speedup := s |}))
  | None =>
      Ok (push (if with_opt then None else Some 0%float)
            (if with_opt
             then [{| t_name := substring_to 40 name;
                      t_base := (base_mean, base_min, base_max);
                      t_opt := None |}]
             else [])
            None)
  end.

Fixpoint emit_rows (h : heap) (with_opt : bool) (opt_map : gmap string ref)
    (acc : Acc) (rs : list ref) : result Acc :=
  match rs with
  | [] => Ok acc
  | r :: rs' =>
      acc' ← emit_row h with_opt opt_map acc r;
      emit_rows h with_opt opt_map acc' rs'
  end.

(** *** The annotations of the plot *)

Inductive direction : Type := Faster | Slower.

(** The body of the annotation loop for one bar: the text
    ["X.X% faster"] or ["X.X% slower"], kept as the magnitude and the
    direction, or nothing. *)
Definition annotation (base_val opt_val : float)
    : result (option (float * direction)) :=
  if is_NaN opt_val then Ok None
  else if truthy base_val && (0 <? base_val)%float then
    q ← py_div (base_val - opt_val)%float base_val;
    let pct := (q * 100)%float in
    if (ANNOTATE_THRESHOLD_PCT <=? abs pct)%float
    then Ok (Some (abs pct, if (0 <? pct)%float then Faster else Slower))
    else Ok None
  else Ok None.

Definition opt_val_for (lbls : list string) (opts : list (option float))
    (lbl : string) : result float :=
  match index_from 0 lbls lbl with
  | None => Raise (KeyError lbl)
  | Some i =>
      match opts !! i with
      | None => Raise IndexError
      | Some None => Ok nan
      | Some (Some v) => Ok v
      end
  end.

Fixpoint annotate_loop (means_for_plot opt_vals_plot : list float)
    (y_idx : nat) (labs : list string)
    : result (list (string * (float * direction))) :=
  match labs with
  | [] => Ok []
  | lbl :: labs' =>
      match means_for_plot !! y_idx, opt_vals_plot !! y_idx with
      | Some base_val, Some opt_val =>
          a ← annotation base_val opt_val;
          rest ← annotate_loop means_for_plot opt_vals_plot (S y_idx) labs';
          Ok (match a with
              | Some t => (lbl, t) :: rest
              | None => rest
              end)
      | _, _ => Raise IndexError
      end
  end.

Definition annotations (acc : Acc)
    : result (list (string * (float * direction))) :=
  let means_for_plot := reverse (base_means acc) in
  let labs_for_plot := reverse (labels acc) in
  opt_vals_plot ← mapM (opt_val_for (labels acc) (opt_means acc)) labs_for_plot;
  annotate_loop means_for_plot opt_vals_plot 0 labs_for_plot.

(** *** [main] *)

Record Args : Type := {
  arg_summary : string;                    (* text of the baseline file *)
  arg_region : option string;
  arg_top : Z;
  arg_png : bool;
  arg_optimized_summary : option string }. (* text of the optimized file *)

Record Report : Type := {
  rep_region : string;
  rep_pmean : float;
  rep_selected : list ref;               (* [base_children_sorted] *)
  rep_opt_map : gmap string ref;
  rep_warnings : list string;
  rep_acc : Acc;
  rep_annotations : option (list (string * (float * direction))) }.

(** What a run leaves behind when it returns 0: the store, and either
    the message about an empty child list or the report. *)
Inductive Outcome : Type :=
| NoChildren (h : heap) (name : string)
| Reported (h : heap) (rep : Report).

Definition not_found_msg (name : string) (examples : list string) : string :=
  "Region '" +:+ name +:+ "' not found in baseline." +:+
  String (ascii_of_nat 10) ("Examples: " +:+ String.concat ", " examples).

Definition not_found_warning (name : string) : string :=
  "Warning: region '" +:+ name +:+
  "' not found in optimized file; overlay will be empty.".

(** [sorted(set(r['region'] for r in base_rows[:30]))]. *)
Definition region_examples (h : heap) (base_rows : list ref) : list string :=
  sorted_set (map (λ r, region (deref h r)) (slice_to base_rows 30)).

Definition default_region (h : heap) (base_rows : list ref) : result string :=
  if any (λ r, bool_decide (region (deref h r) = "dyn_run")) base_rows
  then Ok "dyn_run"
  else match base_rows !! 0 with
       | Some r => Ok (region (deref h r))
       | None => Raise IndexError
       end.

(** The optimized overlay: the parsed rows are put into the store, the
    region is looked up (a miss is only warned about) and the map from
    names to rows is built. *)
Definition load_optimized (h : heap) (name : string)
    (text : option string)
    : result (heap * list string * gmap string ref) :=
  match text with
  | None => Ok (h, [], ∅)
  | Some t =>
      vals ← parse_esmf_summary t;
      let '(h', opt_rows) := alloc h vals in
      let warn := match find_region_rows (deref h') opt_rows name with
                  | None => [not_found_warning name]
                  | Some _ => []
                  end in
      Ok (h', warn, build_region_map (deref h') opt_rows)
  end.

Definition main (args : Args) : result Outcome :=
  vals ← parse_esmf_summary (arg_summary args);
  let '(h, base_rows) := alloc [] vals in
  name ← match arg_region args with
          | Some n => Ok n
          | None => default_region h base_rows
          end;
  match find_region_rows (deref h) base_rows name with
  | None => Raise (SystemExit (not_found_msg name (region_examples h base_rows)))
  | Some (parent, pidx) =>
      base_children ← collect_children (deref h) base_rows pidx;
      match base_children with
      | [] => Ok (NoChildren h name)
      | _ =>
          let pmean := Mean (deref h parent) in
          h1 ← share_loop pmean base_children h;
          let base_children_sorted :=
            slice_to (sorted (λ r, Mean (deref h1 r)) true base_children)
                     (arg_top args) in
          '(h2, warnings, opt_map) ←
            load_optimized h1 name (arg_optimized_summary args);
          let with_opt := bool_decide (is_Some (arg_optimized_summary args)) in
          acc ← emit_rows h2 with_opt opt_map empty_acc base_children_sorted;
          notes ← (if arg_png args && with_opt
                   then Some <$> annotations acc else Ok None);
          Ok (Reported h2
                {| rep_region := name; rep_pmean := pmean;
                   rep_selected := base_children_sorted;
                   rep_opt_map := opt_map;
                   rep_warnings := warnings; rep_acc := acc;
                   rep_annotations := notes |})
      end
  end.

End RunCam.

(** ** [timing/timing.py] *)

Module Timing.

(** The dict built for one matching line. *)
Record Row : Type := {
  indent : nat;
  region : string;
  Mean : float;
  Min : float;
  Max : float }.

Definition make_row (g : groups) : Row := {|
  indent := String.length (RunCam.group g "indent");
  region := strip (RunCam.group g "name");
  Mean := float_of_decimal (RunCam.group g "mean");
  Min := float_of_decimal (RunCam.group g "min");
  Max := float_of_decimal (RunCam.group g "max") |}.

Definition parse_lines (lines : list string) : list Row :=
  foldl (λ rows line,
           match re_match pat line with
           | None => rows
           | Some g => rows ++ [make_row g]
           end) [] lines.

(** No check of the parsed rows here: they are returned as they are. *)
Definition parse_esmf_summary (text : string) : result (list Row) :=
  Ok (parse_lines (splitlines text)).

(** [[row for row in rows if row["region"] in names]]. *)
Definition extract_named_regions (rows : list Row) (names : list string)
    : list Row :=
  filter (λ row, region row ∈ names) rows.

(** [{r["region"]: r for r in rows}]. *)
Definition by_region (rows : list Row) : gmap string Row :=
  foldl (λ m r, <[region r := r]> m) ∅ rows.

(** [d[key]]. *)
Definition getitem (d : gmap string Row) (key : string) : result Row :=
  match d !! key with
  | Some r => Ok r
  | None => Raise (KeyError key)
  end.

Record Args : Type := {
  arg_baseline : string;                   (* text of the baseline file *)
  arg_optimized_summary : option string;   (* text of the optimized file *)
  arg_timers : list string;
  arg_timers_names_on_plot : option (list string);
  arg_annotate_threshold : float }.

Inductive direction : Type := Faster | Slower.

(** The body of the annotation loop for one bar. *)
Definition annotation (threshold base opt : float)
    : result (option (float * direction)) :=
  if (0 <? base)%float && (0 <? opt)%float then
    pct ← py_div (100 * (base - opt))%float base;
    if (threshold <=? abs pct)%float
    then Ok (Some (abs pct, if (0 <? pct)%float then Faster else Slower))
    else Ok None
  else Ok None.

Fixpoint annotate_loop (threshold : float) (base_means opt_means : list float)
    (i : nat) (labels : list string)
    : result (list (nat * (float * direction))) :=
  match labels with
  | [] => Ok []
  | _ :: labels' =>
      match base_means !! i, opt_means !! i with
      | Some base, Some opt =>
          a ← annotation threshold base opt;
          rest ← annotate_loop threshold base_means opt_means (S i) labels';
          Ok (match a with
              | Some t => (i, t) :: rest
              | None => rest
              end)
      | _, _ => Raise IndexError
      end
  end.

(** The error bars of one document: means, lower and upper extents. *)
Definition bars (d : gmap string Row) (timers : list string)
    : result (list float * list float * list float) :=
  means ← mapM (λ r, row ← getitem d r; Ok (Mean row)) timers;
  lows ← mapM (λ r, row ← getitem d r; Ok (Mean row - Min row)%float) timers;
  highs ← mapM (λ r, row ← getitem d r; Ok (Max row - Mean row)%float) timers;
  Ok (means, lows, highs).

Record Overlay : Type := {
  opt_means : list float;
  opt_lows : list float;
  opt_highs : list float;
  notes : list (nat * (float * direction)) }.

Record Plot : Type := {
  plot_labels : list string;
  base_means : list float;
  base_lows : list float;
  base_highs : list float;
  overlay : option Overlay }.

(** [args.timers_names_on_plot if args.timers_names_on_plot else
    args.timers]: the names given for the plot, all of them, when there
    are any. *)
Definition labels_of (args : Args) : list string :=
  match arg_timers_names_on_plot args with
  | Some [] | None => arg_timers args
  | Some l => l
  end.

(** What the plotting library refuses. The positions [y] of the bars are
    [np.arange(len(labels))]; only their number [n] matters here.

    [ax.barh(y, width)] broadcasts [y] and [width] to one shape, and raises
    [ValueError] when their lengths differ and neither is 1. *)
Definition barh (n : nat) (width : list float) : result unit :=
  if decide (n = length width ∨ n = 1 ∨ length width = 1) then Ok ()
  else Raise ValueError.

(** An extent [e] of an error bar is refused when [e < -e], that is when
    it is negative; a NaN is let through. *)
Definition refused (e : float) : bool := (e <? - e)%float.

(** [ax.errorbar(x, y, xerr=[lows, highs])]: [x] and [y] must have the
    same size, and no extent may be refused; both failures are a
    [ValueError]. *)
Definition errorbar (x : list float) (n : nat)
    (xerr : option (list float * list float)) : result unit :=
  if decide (length x = n) then
    match xerr with
    | Some (lows, highs) =>
        if existsb refused (lows ++ highs) then Raise ValueError else Ok ()
    | None => Ok ()
    end
  else Raise ValueError.

Definition main (args : Args) : result Plot :=
  base_rows ← parse_esmf_summary (arg_baseline args);
  opt_rows ← match arg_optimized_summary args with
              | Some t => parse_esmf_summary t
              | None => Ok []
              end;
  let timers := arg_timers args in
  let base_data := by_region (extract_named_regions base_rows timers) in
  let opt_data := match opt_rows with
                  | [] => ∅
                  | _ => by_region (extract_named_regions opt_rows timers)
                  end in
  let labels := labels_of args in
  let y := length labels in
  '(means, lows, highs) ← bars base_data timers;
  barh y means;;
  errorbar means y (Some (lows, highs));;
  errorbar means y None;;
  ov ← (if decide (opt_data = ∅) then Ok None
        else
          '(omeans, olows, ohighs) ← bars opt_data timers;
          errorbar omeans y (Some (olows, ohighs));;
          ns ← annotate_loop (arg_annotate_threshold args) means omeans 0 labels;
          Ok (Some {| opt_means := omeans; opt_lows := olows;
                      opt_highs := ohighs; notes := ns |}));
  Ok {| plot_labels := labels; base_means := means; base_lows := lows;
        base_highs := highs; overlay := ov |}.

End Timing.

(** ** Example documents *)

Definition nl : string := String "010"%char EmptyString.

Definition example_summary : string :=
  "Region            PETs  PEs  Count    Mean (s)    Min (s)  Min PET    Max (s)  Max PET" +:+ nl +:+
  "dyn_run              4    4      1     10.0000     9.0000        0    11.0000        3" +:+ nl +:+
  "  advance            4    4      8      6.0000     5.0000        1     7.0000        2" +:+ nl +:+
  "  remap              4    4  MULTIPLE   9.0000     9.5000        0     9.2500        1" +:+ nl +:+
  "output               4    4      1      1.0000     1.0000        0     1.0000        0" +:+ nl.

(** An optimized run in which only [advance] was timed. *)
Definition example_optimized : string :=
  "  advance            4    4      8      3.0000     2.0000        1     4.0000        2" +:+ nl.

Definition example_not_a_summary : string :=
  "no timing table in this file" +:+ nl.

(** A document with one line of the table, whose count has 4301
    digits. *)
Definition example_long_count : string :=
  "x  " +:+ string_of_list_ascii (replicate 4301 "1"%char)
  +:+ "  1.0000  1.0000  0  1.0000  0" +:+ nl.

(** A baseline in which every row has its mean between its minimum and
    its maximum. *)
Definition example_baseline : string :=
  "Region            PETs  PEs  Count    Mean (s)    Min (s)  Min PET    Max (s)  Max PET" +:+ nl +:+
  "dyn_run              4    4      1     10.0000     9.0000        0    11.0000        3" +:+ nl +:+
  "  advance            4    4      8      6.0000     5.0000        1     7.0000        2" +:+ nl +:+
  "  remap              4    4  MULTIPLE   9.0000     8.5000        0     9.2500        1" +:+ nl +:+
  "output               4    4      1      1.0000     1.0000        0     1.0000        0" +:+ nl.

Definition run_cam_args (name : string) (opt : option string)
    : RunCam.Args := {|
  RunCam.arg_summary := example_summary;
  RunCam.arg_region := Some name;
  RunCam.arg_top := 12;
  RunCam.arg_png := true;
  RunCam.arg_optimized_summary := opt |}.

(** A run on the example that keeps the [top] largest children of
    [dyn_run]. *)
Definition run_cam_top_args (top : Z) : RunCam.Args := {|
  RunCam.arg_summary := example_summary;
  RunCam.arg_region := Some "dyn_run";
  RunCam.arg_top := top;
  RunCam.arg_png := false;
  RunCam.arg_optimized_summary := None |}.

Definition timing_args (opt : option string) : Timing.Args := {|
  Timing.arg_baseline := example_baseline;
  Timing.arg_optimized_summary := opt;
  Timing.arg_timers := ["advance"; "remap"];
  Timing.arg_timers_names_on_plot := None;
  Timing.arg_annotate_threshold := 5 |}.

Definition example_rows : list RunCam.Row :=
  Eval vm_compute in
    match RunCam.parse_esmf_summary example_summary with
    | Ok rows => rows
    | Raise _ => []
    end.

(** ** Vocabulary of the statements *)

(** A line that the pattern matches. *)
Definition matches (line : string) : Prop := is_Some (re_match pat line).

Global Instance matches_dec line : Decision (matches line) :=
  decide (is_Some (re_match pat line)).

(** A binary64 value that is not NaN is ranked by a triple, compared
    lexicographically: its class, then its exponent, then its mantissa, the
    last two negated for a negative value. The comparisons of [float] are
    the comparisons of these ranks. *)
Definition rank (x : spec_float) : Z * Z * Z :=
  match x with
  | S754_infinity true => (-2, 0, 0)
  | S754_finite true m e => (-1, - e, - Zpos m)
  | S754_zero _ | S754_nan => (0, 0, 0)
  | S754_finite false m e => (1, e, Zpos m)
  | S754_infinity false => (2, 0, 0)
  end%Z.

Definition rank_lt (a b : Z * Z * Z) : Prop :=
  let '(a1, a2, a3) := a in
  let '(b1, b2, b3) := b in
  (a1 < b1 ∨ a1 = b1 ∧ (a2 < b2 ∨ a2 = b2 ∧ a3 < b3))%Z.

Definition number (x : float) : Prop := Prim2SF x ≠ S754_nan.
Definition frank (x : float) : Z * Z * Z := rank (Prim2SF x).

Definition sf_pos (x : spec_float) : Prop :=
  match x with
  | S754_finite false _ _ | S754_infinity false => True
  | _ => False
  end.

Definition sf_neg (x : spec_float) : Prop :=
  match x with
  | S754_finite true _ _ | S754_infinity true => True
  | _ => False
  end.

Definition sf_sign_is (s : bool) (x : spec_float) : Prop :=
  match x with
  | S754_zero s' | S754_infinity s' | S754_finite s' _ _ => s' = s
  | S754_nan => True
  end.

(** The integer fields of a match, and the row of a match whose integer
    fields [int] accepts. *)
Definition int_fields (g : groups) : list string :=
  [RunCam.group g "PETs"; RunCam.group g "PEs"; RunCam.group g "count";
   RunCam.group g "minpet"; RunCam.group g "maxpet"].

Definition ints_accepted (g : groups) : Prop :=
  Forall (λ s, (String.length s ≤ max_str_digits)%nat) (int_fields g).

Global Instance ints_accepted_dec g : Decision (ints_accepted g) :=
  decide (Forall (λ s, (String.length s ≤ max_str_digits)%nat) (int_fields g)).

Definition optional_digits (g : groups) (name : string) : option Z :=
  match g !! name with
  | Some EmptyString | None => None
  | Some s => Some (digits_value s)
  end.

Definition row_of_groups (g : groups) : RunCam.Row := {|
  RunCam.indent := String.length (RunCam.group g "indent");
  RunCam.region := strip (RunCam.group g "name");
  RunCam.PETs := optional_digits g "PETs";
  RunCam.PEs := optional_digits g "PEs";
  RunCam.Count := if decide (RunCam.group g "count" = "MULTIPLE") then None
                  else Some (digits_value (RunCam.group g "count"));
  RunCam.Mean := float_of_decimal (RunCam.group g "mean");
  RunCam.Min := float_of_decimal (RunCam.group g "min");
  RunCam.MinPET := digits_value (RunCam.group g "minpet");
  RunCam.Max := float_of_decimal (RunCam.group g "max");
  RunCam.MaxPET := digits_value (RunCam.group g "maxpet");
  RunCam.pct_of_parent := None |}.

(** Everything a row got from its line. *)
Definition parsed_fields (r : RunCam.Row) :=
  (RunCam.indent r, RunCam.region r, RunCam.PETs r, RunCam.PEs r,
   RunCam.Count r, RunCam.Mean r, RunCam.Min r, RunCam.MinPET r,
   RunCam.Max r, RunCam.MaxPET r).

(** [100.0 * (mean / pmean) if pmean > 0 else float("nan")], as a value. *)
Definition share (pmean mean : float) : float :=
  if (0 <? pmean)%float then (100 * (mean / pmean))%float else nan.

(** The rows of the optimized file of a run, when one is given. *)
Definition optimized_rows (args : RunCam.Args) : result (list RunCam.Row) :=
  match RunCam.arg_optimized_summary args with
  | Some t => RunCam.parse_esmf_summary t
  | None => Ok []
  end.

(** The counterpart of a child: the row that the map of the optimized
    document has under the name of the child. *)
Definition counterpart (h : RunCam.heap) (with_opt : bool)
    (opt_map : gmap string RunCam.ref) (r : RunCam.ref) : option RunCam.Row :=
  if with_opt
  then RunCam.deref h <$> opt_map !! RunCam.region (RunCam.deref h r)
  else None.

Definition low_of (h : RunCam.heap) (r : RunCam.ref) : float :=
  py_max 0 (RunCam.Mean (RunCam.deref h r) - RunCam.Min (RunCam.deref h r)).
Definition high_of (h : RunCam.heap) (r : RunCam.ref) : float :=
  py_max 0 (RunCam.Max (RunCam.deref h r) - RunCam.Mean (RunCam.deref h r)).

(** The row written to the CSV file for a child [base] of the baseline
    and the row [o] that the optimized file has under its name. *)
Definition csv_row_of (base : RunCam.Row) (o : option RunCam.Row)
    : RunCam.CsvRow := {|
  RunCam.csv_region := RunCam.region base;
  RunCam.baseline_mean_s := RunCam.Mean base;
  RunCam.baseline_min_s := RunCam.Min base;
  RunCam.baseline_max_s := RunCam.Max base;
  RunCam.baseline_count := RunCam.Count base;
  RunCam.baseline_PETs := RunCam.PETs base;
  RunCam.baseline_PEs := RunCam.PEs base;
  RunCam.optimized :=
    (λ o, {| RunCam.optimized_mean_s := RunCam.Mean o;
             RunCam.optimized_min_s := RunCam.Min o;
             RunCam.optimized_max_s := RunCam.Max o;
             RunCam.optimized_count := RunCam.Count o;
             RunCam.optimized_PETs := RunCam.PETs o;
             RunCam.optimized_PEs := RunCam.PEs o;
             RunCam.speedup :=
               if (0 <? RunCam.Mean o)%float
               then Some (RunCam.Mean base / RunCam.Mean o)%float
               else None |}) <$> o |}.

(** The last row of a name in a list of rows. *)
Definition last_named (name : string) (rows : list RunCam.Row)
    : option RunCam.Row :=
  last (filter (λ o, RunCam.region o = name) rows).

(** The label of a bar, when it gets one. *)
Definition note_of (base : RunCam.Row) (o : option RunCam.Row)
    : option (string * (float * RunCam.direction)) :=
  match o with
  | Some o =>
      match RunCam.annotation (RunCam.Mean base) (RunCam.Mean o) with
      | Ok (Some t) => Some (RunCam.region base, t)
      | _ => None
      end
  | None => None
  end.

(** The row of [timing/timing.py] for the line that gave [r] in
    [run-cam/timing.py]. *)
Definition to_timing (r : RunCam.Row) : Timing.Row := {|
  Timing.indent := RunCam.indent r;
  Timing.region := RunCam.region r;
  Timing.Mean := RunCam.Mean r;
  Timing.Min := RunCam.Min r;
  Timing.Max := RunCam.Max r |}.

(** The rows of a file of [timing/timing.py]; none when no file is
    given. *)
Definition timing_rows (text : option string) : list Timing.Row :=
  match text with
  | Some t => Timing.parse_lines (splitlines t)
  | None => []
  end.

(** The last row of a name. *)
Definition timing_last_named (name : string) (rows : list Timing.Row)
    : option Timing.Row :=
  last (filter (λ r, Timing.region r = name) rows).

(** The label of the bar at position [i], when it gets one. *)
Definition timing_note (threshold : float) (i : nat)
    (base opt : Timing.Row) : option (nat * (float * Timing.direction)) :=
  match Timing.annotation threshold (Timing.Mean base) (Timing.Mean opt) with
  | Ok (Some t) => Some (i, t)
  | _ => None
  end.

(** There is one tick label per timer in the plot of
    [timing/timing.py]. *)
Definition timing_labels_fit (args : Timing.Args) : Prop :=
  length (Timing.labels_of args) = length (Timing.arg_timers args).

(** The plotting library accepts the extents of the error bars of the
    rows: none is negative. *)
Definition extents_accepted (rows : list Timing.Row) : Prop :=
  Forall (λ r,
            Timing.refused (Timing.Mean r - Timing.Min r) = false ∧
            Timing.refused (Timing.Max r - Timing.Mean r) = false) rows.

Global Instance extents_accepted_dec rows : Decision (extents_accepted rows) :=
  decide (Forall (λ r,
                    Timing.refused (Timing.Mean r - Timing.Min r) = false ∧
                    Timing.refused (Timing.Max r - Timing.Mean r) = false)
            rows).

(** *** The grammar of the pattern

    What a regular expression matches, without regard to the order in
    which [re] tries the alternatives: [rmatch r s s' g g'] says that [r]
    matches the front of [s], leaves [s'], and turns the groups [g] into
    [g']. *)
Inductive rmatch : regex → list ascii → list ascii → groups → groups → Prop :=
| rm_Eps s g : rmatch Eps s s g g
| rm_Eos_end g : rmatch Eos [] [] g g
| rm_Eos_lf c g : code c = 10%N → rmatch Eos [c] [c] g g
| rm_Class p c s g : p c = true → rmatch (Class p) (c :: s) s g g
| rm_Seq r1 r2 s s1 s2 g g1 g2 :
    rmatch r1 s s1 g g1 → rmatch r2 s1 s2 g1 g2 →
    rmatch (Seq r1 r2) s s2 g g2
| rm_Alt_l r1 r2 s s' g g' : rmatch r1 s s' g g' → rmatch (Alt r1 r2) s s' g g'
| rm_Alt_r r1 r2 s s' g g' : rmatch r2 s s' g g' → rmatch (Alt r1 r2) s s' g g'
| rm_Star_stop gr r s g : rmatch (Star gr r) s s g g
| rm_Star_step gr r s s1 s2 g g1 g2 :
    rmatch r s s1 g g1 → (length s1 < length s)%nat →
    rmatch (Star gr r) s1 s2 g1 g2 →
    rmatch (Star gr r) s s2 g g2
| rm_Group name r s s' g g' :
    rmatch r s s' g g' →
    rmatch (Group name r) s s' g
      (<[name := string_of_list_ascii (take (length s - length s') s)]> g').

(** The pieces of a line of the table. *)
Definition spaces (x : list ascii) : Prop := Forall (λ c, is_space c = true) x.
Definition space_run (x : list ascii) : Prop := x ≠ [] ∧ spaces x.
Definition digit_run (x : list ascii) : Prop :=
  x ≠ [] ∧ Forall (λ c, is_digit c = true) x.
Definition decimal_run (x : list ascii) : Prop :=
  ∃ a b, x = a ++ "."%char :: b ∧ digit_run a ∧ digit_run b.
(** A name: it starts and ends with a character that is no white space,
    and has no line feed in it. *)
Definition name_run (x : list ascii) : Prop :=
  (∃ c, head x = Some c ∧ is_space c = false) ∧
  (∃ c, last x = Some c ∧ is_space c = false) ∧
  Forall (λ c, is_dot c = true) x.

Record Pieces : Type := {
  p_indent : list ascii;
  p_name : list ascii;
  p_sep1 : list ascii;
  (* the columns PETs and PEs, each with the blanks behind it *)
  p_pets : option (list ascii * list ascii * list ascii * list ascii);
  p_count : list ascii;
  p_sep2 : list ascii;
  p_mean : list ascii;
  p_sep3 : list ascii;
  p_min : list ascii;
  p_sep4 : list ascii;
  p_minpet : list ascii;
  p_sep5 : list ascii;
  p_max : list ascii;
  p_sep6 : list ascii;
  p_maxpet : list ascii;
  p_tail : list ascii }.

Definition pets_text
    (o : option (list ascii * list ascii * list ascii * list ascii))
    : list ascii :=
  match o with
  | Some (a, sa, b, sb) => a ++ sa ++ b ++ sb
  | None => []
  end.

Definition pieces_text (p : Pieces) : list ascii :=
  p_indent p ++ p_name p ++ p_sep1 p ++ pets_text (p_pets p) ++
  p_count p ++ p_sep2 p ++ p_mean p ++ p_sep3 p ++ p_min p ++ p_sep4 p ++
  p_minpet p ++ p_sep5 p ++ p_max p ++ p_sep6 p ++ p_maxpet p ++ p_tail p.

Definition pieces_ok (p : Pieces) : Prop :=
  spaces (p_indent p) ∧ name_run (p_name p) ∧ space_run (p_sep1 p) ∧
  match p_pets p with
  | Some (a, sa, b, sb) =>
      digit_run a ∧ space_run sa ∧ digit_run b ∧ space_run sb
  | None => True
  end ∧
  (p_count p = list_ascii_of_string "MULTIPLE" ∨ digit_run (p_count p)) ∧
  space_run (p_sep2 p) ∧ decimal_run (p_mean p) ∧
  space_run (p_sep3 p) ∧ decimal_run (p_min p) ∧
  space_run (p_sep4 p) ∧ digit_run (p_minpet p) ∧
  space_run (p_sep5 p) ∧ decimal_run (p_max p) ∧
  space_run (p_sep6 p) ∧ digit_run (p_maxpet p) ∧
  spaces (p_tail p).

(** The row that the pieces of a line give. *)
Definition pieces_row (p : Pieces) : RunCam.Row := {|
  RunCam.indent := length (p_indent p);
  RunCam.region := string_of_list_ascii (p_name p);
  RunCam.PETs :=
    (λ '(a, _, _, _), digits_value (string_of_list_ascii a)) <$> p_pets p;
  RunCam.PEs :=
    (λ '(_, _, b, _), digits_value (string_of_list_ascii b)) <$> p_pets p;
  RunCam.Count :=
    if decide (string_of_list_ascii (p_count p) = "MULTIPLE") then None
    else Some (digits_value (string_of_list_ascii (p_count p)));
  RunCam.Mean := float_of_decimal (string_of_list_ascii (p_mean p));
  RunCam.Min := float_of_decimal (string_of_list_ascii (p_min p));
  RunCam.MinPET := digits_value (string_of_list_ascii (p_minpet p));
  RunCam.Max := float_of_decimal (string_of_list_ascii (p_max p));
  RunCam.MaxPET := digits_value (string_of_list_ascii (p_maxpet p));
  RunCam.pct_of_parent := None |}.

(** The pieces that hold integers, and whether [int] accepts them all:
    none has more than [max_str_digits] characters. *)
Definition int_pieces (p : Pieces) : list (list ascii) :=
  match p_pets p with
  | Some (a, _, b, _) => [a; b]
  | None => []
  end ++ [p_count p; p_minpet p; p_maxpet p].

Definition pieces_ints_fit (p : Pieces) : Prop :=
  Forall (λ x, (length x ≤ max_str_digits)%nat) (int_pieces p).

Global Instance pieces_ints_fit_dec p : Decision (pieces_ints_fit p) :=
  decide (Forall (λ x, (length x ≤ max_str_digits)%nat) (int_pieces p)).

(** The groups of the match of the pieces. *)
Definition pieces_groups (p : Pieces) : groups :=
  let str := string_of_list_ascii in
  let g1 : groups :=
    <["name" := str (p_name p)]> (<["indent" := str (p_indent p)]> ∅) in
  let g2 : groups :=
    match p_pets p with
    | Some (a, _, b, _) => <["PEs" := str b]> (<["PETs" := str a]> g1)
    | None => g1
    end in
  <["maxpet" := str (p_maxpet p)]> (<["max" := str (p_max p)]>
  (<["minpet" := str (p_minpet p)]> (<["min" := str (p_min p)]>
  (<["mean" := str (p_mean p)]> (<["count" := str (p_count p)]> g2))))).

(** The number of white-space characters at the start of a line. *)
Fixpoint leading_spaces (s : list ascii) : nat :=
  match s with
  | c :: s' => if is_space c then S (leading_spaces s') else 0
  | [] => 0
  end.

(** A run of [run-cam/timing.py] on the example without [--region], and
    the rows that [timing/timing.py] reads off the example. *)
Definition run_cam_default_args : RunCam.Args := {|
  RunCam.arg_summary := example_summary;
  RunCam.arg_region := None;
  RunCam.arg_top := 12;
  RunCam.arg_png := true;
  RunCam.arg_optimized_summary := None |}.

Definition example_timing_rows : list Timing.Row :=
  Eval vm_compute in timing_rows (Some example_baseline).

Definition example_line : string :=
  "  remap              4    4  MULTIPLE   9.0000     9.5000        0     9.2500        1".

(** A division of [example_line] that takes the columns PETs and PEs
    into the name. *)
Definition example_division : Pieces := {|
  p_indent := list_ascii_of_string "  ";
  p_name := list_ascii_of_string "remap              4    4";
  p_sep1 := list_ascii_of_string "  ";
  p_pets := None;
  p_count := list_ascii_of_string "MULTIPLE";
  p_sep2 := list_ascii_of_string "   ";
  p_mean := list_ascii_of_string "9.0000";
  p_sep3 := list_ascii_of_string "     ";
  p_min := list_ascii_of_string "9.5000";
  p_sep4 := list_ascii_of_string "        ";
  p_minpet := list_ascii_of_string "0";
  p_sep5 := list_ascii_of_string "     ";
  p_max := list_ascii_of_string "9.2500";
  p_sep6 := list_ascii_of_string "        ";
  p_maxpet := list_ascii_of_string "1";
  p_tail := [] |}.

(** A line whose region has one character, and its division with the
    columns PETs and PEs. *)
Definition example_short_line : string :=
  "  g  4  4  1  9.0000  9.5000  0  9.2500  1".

Definition example_short_division : Pieces := {|
  p_indent := list_ascii_of_string "  ";
  p_name := list_ascii_of_string "g";
  p_sep1 := list_ascii_of_string "  ";
  p_pets := Some (list_ascii_of_string "4", list_ascii_of_string "  ",
                  list_ascii_of_string "4", list_ascii_of_string "  ");
  p_count := list_ascii_of_string "1";
  p_sep2 := list_ascii_of_string "  ";
  p_mean := list_ascii_of_string "9.0000";
  p_sep3 := list_ascii_of_string "  ";
  p_min := list_ascii_of_string "9.5000";
  p_sep4 := list_ascii_of_string "  ";
  p_minpet := list_ascii_of_string "0";
  p_sep5 := list_ascii_of_string "  ";
  p_max := list_ascii_of_string "9.2500";
  p_sep6 := list_ascii_of_string "  ";
  p_maxpet := list_ascii_of_string "1";
  p_tail := [] |}.

(** * Properties *)

Local Open Scope nat_scope.

(** ** The order of binary64 values *)

Lemma SFcompare_rank x y :
  match SFcompare x y with
  | None => x = S754_nan ∨ y = S754_nan
  | Some c =>
      x ≠ S754_nan ∧ y ≠ S754_nan ∧
      match c with
      | Lt => rank_lt (rank x) (rank y)
      | Eq => rank x = rank y
      | Gt => rank_lt (rank y) (rank x)
      end
  end.
Proof.
  destruct x as [sx|sx| |sx mx ex], y as [sy|sy| |sy my ey];
    repeat match goal with s : bool |- _ => destruct s end; simpl;
    try (by left); try (by right);
    try (split_and!; [done|done|]; simpl; first [done|lia]).
  all: change (Pos.compare_cont Eq mx my) with (Pos.compare mx my).
  all: destruct (Z.compare_spec ex ey) as [->| |];
    try destruct (Pos.compare_spec mx my) as [->| |];
    (split_and!; [done|done|]); simpl; first [done|lia].
Qed.

Lemma rank_lt_irrefl a : ¬ rank_lt a a.
Proof. destruct a as [[??]?]. simpl. lia. Qed.

Lemma rank_lt_asym a b : rank_lt a b → ¬ rank_lt b a.
Proof. destruct a as [[??]?], b as [[??]?]. simpl. lia. Qed.

Lemma rank_lt_trans a b c : rank_lt a b → rank_lt b c → rank_lt a c.
Proof. destruct a as [[??]?], b as [[??]?], c as [[??]?]. simpl. lia. Qed.

Lemma rank_trichotomy a b : rank_lt a b ∨ a = b ∨ rank_lt b a.
Proof.
  destruct a as [[a1 a2] a3], b as [[b1 b2] b3]. simpl.
  destruct (Z.lt_trichotomy a1 b1) as [?|[->|?]]; [lia| |lia].
  destruct (Z.lt_trichotomy a2 b2) as [?|[->|?]]; [lia| |lia].
  destruct (Z.lt_trichotomy a3 b3) as [?|[->|?]]; [lia| |lia].
  right; left; done.
Qed.

Lemma ltb_rank x y :
  (x <? y)%float = true ↔ number x ∧ number y ∧ rank_lt (frank x) (frank y).
Proof.
  rewrite FloatAxioms.ltb_spec. unfold SFltb, number, frank.
  pose proof (SFcompare_rank (Prim2SF x) (Prim2SF y)) as H.
  destruct (SFcompare (Prim2SF x) (Prim2SF y)) as [[]|].
  - destruct H as (? & ? & ->). split; [done|].
    intros (_ & _ & []%rank_lt_irrefl).
  - naive_solver.
  - destruct H as (? & ? & ?%rank_lt_asym). naive_solver.
  - naive_solver.
Qed.

Lemma eqb_rank x y :
  (x =? y)%float = true ↔ number x ∧ number y ∧ frank x = frank y.
Proof.
  rewrite FloatAxioms.eqb_spec. unfold SFeqb, number, frank.
  pose proof (SFcompare_rank (Prim2SF x) (Prim2SF y)) as H.
  destruct (SFcompare (Prim2SF x) (Prim2SF y)) as [[]|].
  - naive_solver.
  - destruct H as (? & ? & H). split; [done|]. intros (_ & _ & E).
    rewrite E in H. by apply rank_lt_irrefl in H.
  - destruct H as (? & ? & H). split; [done|]. intros (_ & _ & E).
    rewrite E in H. by apply rank_lt_irrefl in H.
  - naive_solver.
Qed.

Lemma leb_rank x y :
  (x <=? y)%float = true ↔
  number x ∧ number y ∧ (rank_lt (frank x) (frank y) ∨ frank x = frank y).
Proof.
  rewrite FloatAxioms.leb_spec. unfold SFleb, number, frank.
  pose proof (SFcompare_rank (Prim2SF x) (Prim2SF y)) as H.
  destruct (SFcompare (Prim2SF x) (Prim2SF y)) as [[]|].
  - naive_solver.
  - naive_solver.
  - destruct H as (? & ? & H). split; [done|]. intros (_ & _ & [E|E]).
    + by apply rank_lt_asym in E.
    + rewrite E in H. by apply rank_lt_irrefl in H.
  - naive_solver.
Qed.

Lemma is_NaN_number x : is_NaN x = false ↔ number x.
Proof.
  unfold is_NaN. rewrite negb_false_iff, eqb_rank. naive_solver.
Qed.

Lemma ltb_false_leb x y :
  number x → number y → (y <? x)%float = false ↔ (x <=? y)%float = true.
Proof.
  intros Hx Hy. rewrite <-not_true_iff_false, ltb_rank, leb_rank.
  destruct (rank_trichotomy (frank x) (frank y)) as [H|[H|H]].
  - apply rank_lt_asym in H as H'. tauto.
  - rewrite H. pose proof (rank_lt_irrefl (frank y)). tauto.
  - apply rank_lt_asym in H as H'. split; [tauto|].
    intros (_ & _ & [?|E]); [tauto|]. rewrite E in H.
    by apply rank_lt_irrefl in H.
Qed.

Lemma leb_trans x y z :
  (x <=? y)%float = true → (y <=? z)%float = true → (x <=? z)%float = true.
Proof.
  rewrite !leb_rank. intros (? & ? & H1) (? & ? & H2). split_and!; [done..|].
  destruct H1 as [H1|H1], H2 as [H2|H2].
  - left. by eapply rank_lt_trans.
  - left. by rewrite <-H2.
  - left. by rewrite H1.
  - right. congruence.
Qed.

Lemma leb_refl x : number x → (x <=? x)%float = true.
Proof. rewrite leb_rank. tauto. Qed.

Lemma ltb_leb x y : (x <? y)%float = true → (x <=? y)%float = true.
Proof. rewrite ltb_rank, leb_rank. tauto. Qed.

(** A key equal to [v] is not below a key that is, and not above one. *)
Lemma eqb_ltb_false x y v :
  (x =? v)%float = true → (y =? v)%float = true → (x <? y)%float = false.
Proof.
  rewrite !eqb_rank, <-not_true_iff_false, ltb_rank.
  intros (_ & _ & E1) (_ & _ & E2) (_ & _ & H).
  rewrite E1, E2 in H. by apply rank_lt_irrefl in H.
Qed.

Lemma ltb_leb_eqb_false x y z v :
  (x <? y)%float = true → (y <=? z)%float = true →
  (x =? v)%float = true → (z =? v)%float = false.
Proof.
  rewrite ltb_rank, leb_rank, eqb_rank, <-not_true_iff_false, eqb_rank.
  intros (_ & _ & H1) (_ & _ & H2) (_ & _ & E1) (_ & _ & E2).
  assert (rank_lt (frank x) (frank z)) as H.
  { destruct H2 as [H2|<-]; [by eapply rank_lt_trans|done]. }
  rewrite E1, E2 in H. by apply rank_lt_irrefl in H.
Qed.

(** ** Sorting *)

Section insertion.
Context {A : Type} (lt : A → A → bool).

Lemma insert_by_Permutation x l : insert_by lt x l ≡ₚ x :: l.
Proof.
  induction l as [|y l IH]; simpl; [done|].
  destruct (lt x y); [done|]. by rewrite IH, Permutation_swap.
Qed.

Lemma stable_sort_snoc l x :
  stable_sort lt (l ++ [x]) = insert_by lt x (stable_sort lt l).
Proof. unfold stable_sort. by rewrite foldl_app. Qed.

Lemma stable_sort_Permutation l : stable_sort lt l ≡ₚ l.
Proof.
  induction l as [|x l IH] using rev_ind; [done|].
  rewrite stable_sort_snoc, insert_by_Permutation, IH.
  by rewrite Permutation_app_comm.
Qed.
End insertion.

Section float_keys.
Context {A : Type} (key : A → float).

Local Abbreviation lt := (λ a b : A, (key a <? key b)%float).
Local Abbreviation asc := (λ a b : A, (key a <=? key b)%float = true).
Local Abbreviation desc := (λ a b : A, (key b <=? key a)%float = true).
Local Abbreviation numbers := (Forall (λ a : A, number (key a))).
Local Abbreviation tied v := (λ a : A, (key a =? v)%float = true).

Lemma insert_by_sorted x l :
  number (key x) → numbers l →
  StronglySorted asc l → StronglySorted asc (insert_by lt x l).
Proof.
  intros Hx Hl Hs. induction Hs as [|y l Hs IH Hy]; simpl.
  { repeat constructor. }
  apply Forall_cons in Hl as [Hny Hl].
  destruct (key x <? key y)%float eqn:E.
  - apply ltb_leb in E as E'. constructor; [by constructor|].
    constructor; [done|]. eapply Forall_impl; [exact Hy|].
    intros z Hz. by eapply leb_trans.
  - constructor; [by apply IH|].
    rewrite insert_by_Permutation. constructor; [|done].
    by apply ltb_false_leb.
Qed.

Lemma stable_sort_sorted l :
  numbers l → StronglySorted asc (stable_sort lt l).
Proof.
  induction l as [|x l IH] using rev_ind; intros Hl; [constructor|].
  apply Forall_app in Hl as [Hl Hx]. rewrite Forall_singleton in Hx.
  rewrite stable_sort_snoc. apply insert_by_sorted; [done| |by apply IH].
  by rewrite stable_sort_Permutation.
Qed.

Lemma filter_none (P : A → Prop) `{!∀ a, Decision (P a)} l :
  Forall (λ a, ¬ P a) l → filter P l = [].
Proof.
  induction 1 as [|y l Hy _ IH]; [done|]. by rewrite filter_cons_False.
Qed.

Lemma filter_insert_by v x l :
  StronglySorted asc l →
  filter (tied v) (insert_by lt x l)
  = filter (tied v) l ++ filter (tied v) [x].
Proof.
  intros Hs. induction Hs as [|y l Hs IH Hy]; simpl; [done|].
  destruct (key x <? key y)%float eqn:E.
  - destruct (decide (tied v x)) as [Hv|Hv].
    + rewrite (filter_cons_True _ x) by done.
      rewrite (filter_none (tied v) (y :: l)); [by rewrite (filter_singleton_True _ x [])|].
      pose proof E as (_ & Hny & _)%ltb_rank.
      constructor.
      * rewrite not_true_iff_false.
        eapply ltb_leb_eqb_false; [exact E|by apply leb_refl|done].
      * eapply Forall_impl; [exact Hy|]. intros z Hz. simpl.
        rewrite not_true_iff_false. by eapply ltb_leb_eqb_false.
    + rewrite (filter_cons_False _ x) by done.
      rewrite (filter_singleton_False _ x []) by done. by rewrite app_nil_r.
  - rewrite !(filter_cons _ y), IH. by destruct (decide (tied v y)).
Qed.

Lemma filter_stable_sort v l :
  numbers l → filter (tied v) (stable_sort lt l) = filter (tied v) l.
Proof.
  induction l as [|x l IH] using rev_ind; intros Hl; [done|].
  apply Forall_app in Hl as [Hl Hx].
  rewrite stable_sort_snoc, filter_insert_by by by apply stable_sort_sorted.
  by rewrite IH, filter_app.
Qed.

Lemma StronglySorted_reverse (R : relation A) l :
  StronglySorted R l → StronglySorted (flip R) (reverse l).
Proof.
  induction 1 as [|x l Hs IH Hx]; [constructor|].
  rewrite reverse_cons. apply StronglySorted_app. split_and!.
  - intros y z Hy ->%list_elem_of_singleton.
    rewrite Forall_forall in Hx. apply Hx. by apply elem_of_reverse.
  - done.
  - repeat constructor.
Qed.

(** The descending sort of [sorted(..., reverse=True)]. *)
Lemma sorted_reverse_Permutation l : sorted key true l ≡ₚ l.
Proof.
  unfold sorted. by rewrite reverse_Permutation, stable_sort_Permutation,
    reverse_Permutation.
Qed.

Lemma sorted_reverse_desc l :
  numbers l → StronglySorted desc (sorted key true l).
Proof.
  intros Hl. unfold sorted.
  apply (StronglySorted_reverse asc), stable_sort_sorted.
  by rewrite reverse_Permutation.
Qed.

Lemma sorted_reverse_stable v l :
  numbers l → filter (tied v) (sorted key true l) = filter (tied v) l.
Proof.
  intros Hl. unfold sorted. rewrite filter_reverse, filter_stable_sort.
  - by rewrite filter_reverse, reverse_involutive.
  - by rewrite reverse_Permutation.
Qed.
End float_keys.

Lemma slice_to_nonneg {A} (l : list A) n :
  (0 ≤ n)%Z → slice_to l n = take (Z.to_nat n) l.
Proof. intros Hn. unfold slice_to. by rewrite (proj2 (Z.leb_le 0 n)). Qed.

Lemma ranking_top_n {A} (key : A → float) (children : list A) (n : Z) :
  Forall (λ r, is_NaN (key r) = false) children → (0 ≤ n)%Z →
  let ranking := slice_to (sorted key true children) n in
  length ranking = Z.to_nat n `min` length children ∧
  StronglySorted (λ a b, (key b <=? key a)%float = true) ranking ∧
  ranking ⊆+ children ∧
  ∀ v, filter (λ r, (key r =? v)%float = true) ranking
       `prefix_of` filter (λ r, (key r =? v)%float = true) children.
Proof.
  intros Hnum Hn ranking.
  assert (Forall (λ a, number (key a)) children) as Hnum'.
  { eapply Forall_impl; [exact Hnum|]. intros a. by rewrite is_NaN_number. }
  unfold ranking. rewrite slice_to_nonneg by done. split_and!.
  - by rewrite length_take, sorted_reverse_Permutation.
  - pose proof (sorted_reverse_desc key children Hnum') as Hs.
    rewrite <-(take_drop (Z.to_nat n) (sorted key true children)) in Hs.
    by apply StronglySorted_app_1_l in Hs.
  - rewrite <-(sorted_reverse_Permutation key children) at 2.
    apply submseteq_take.
  - intros v. rewrite <-(sorted_reverse_stable key v children Hnum').
    rewrite <-(take_drop (Z.to_nat n) (sorted key true children)) at 2.
    rewrite filter_app. by apply prefix_app_r.
Qed.

(** ** The tokenizer *)

Lemma parse_loop_omap {B} (mk : groups → B) (acc : list B) lines :
  foldl (λ rows line,
           match re_match pat line with
           | None => rows
           | Some g => rows ++ [mk g]
           end) acc lines
  = acc ++ omap (λ line, mk <$> re_match pat line) lines.
Proof.
  revert acc. induction lines as [|line lines IH]; intros acc; simpl.
  { by rewrite app_nil_r. }
  rewrite IH. destruct (re_match pat line); simpl; [by rewrite <-app_assoc|done].
Qed.

Lemma omap_matches_nil {B} (mk : groups → B) lines :
  omap (λ line, mk <$> re_match pat line) lines = []
  ↔ Forall (λ line, ¬ matches line) lines.
Proof.
  unfold matches. induction lines as [|line lines IH]; simpl.
  { split; [constructor|done]. }
  rewrite Forall_cons, <-IH. destruct (re_match pat line); simpl.
  - split; [done|]. intros [[] _]. by eexists.
  - split; [|tauto]. intros ?. split; [|done]. by intros [? ?].
Qed.

Lemma length_omap_matches {B} (mk : groups → B) lines :
  length (omap (λ line, mk <$> re_match pat line) lines)
  = length (filter matches lines).
Proof.
  induction lines as [|line lines IH]; [done|].
  rewrite filter_cons.
  change (omap ?f (line :: lines))
    with (match f line with Some y => y :: omap f lines | None => omap f lines end).
  destruct (decide (matches line)) as [Hm|Hn].
  - destruct Hm as [g Hg]. rewrite Hg. simpl. by rewrite IH.
  - unfold matches in Hn. destruct (re_match pat line); [|done].
    exfalso. apply Hn. by eexists.
Qed.

Lemma int_of_digits_accepted s :
  String.length s ≤ max_str_digits → int_of_digits s = Ok (digits_value s).
Proof.
  intros H. unfold int_of_digits.
  by rewrite (proj2 (Nat.ltb_ge _ _) H).
Qed.

Lemma int_of_digits_refused s :
  max_str_digits < String.length s → int_of_digits s = Raise ValueError.
Proof.
  intros H. unfold int_of_digits.
  by rewrite (proj2 (Nat.ltb_lt _ _) H).
Qed.

Lemma optional_int_accepted g name :
  String.length (RunCam.group g name) ≤ max_str_digits →
  RunCam.optional_int g name = Ok (optional_digits g name).
Proof.
  unfold RunCam.optional_int, optional_digits, RunCam.group.
  destruct (g !! name) as [[|c s]|]; simpl; [done| |done].
  intros H. by rewrite int_of_digits_accepted.
Qed.

Lemma optional_int_refused g name :
  max_str_digits < String.length (RunCam.group g name) →
  RunCam.optional_int g name = Raise ValueError.
Proof.
  unfold RunCam.optional_int, RunCam.group.
  destruct (g !! name) as [[|c s]|]; simpl; [lia| |lia].
  intros H. by rewrite int_of_digits_refused.
Qed.

Lemma count_accepted g :
  String.length (RunCam.group g "count") ≤ max_str_digits →
  (if decide (RunCam.group g "count" = "MULTIPLE") then Ok None
   else Some <$> int_of_digits (RunCam.group g "count"))
  = Ok (if decide (RunCam.group g "count" = "MULTIPLE") then None
        else Some (digits_value (RunCam.group g "count"))).
Proof.
  intros H. destruct (decide _); [done|]. by rewrite int_of_digits_accepted.
Qed.

Lemma count_refused g :
  max_str_digits < String.length (RunCam.group g "count") →
  (if decide (RunCam.group g "count" = "MULTIPLE") then Ok None
   else Some <$> int_of_digits (RunCam.group g "count"))
  = (Raise ValueError : result (option Z)).
Proof.
  intros H. destruct (decide _) as [E|_].
  - rewrite E in H. unfold max_str_digits in H. simpl in H. lia.
  - by rewrite int_of_digits_refused.
Qed.

(** The row of a match: the dict literal gives the row, or [ValueError]
    when an integer field is too long for [int]. *)
Lemma make_row_accepted g :
  ints_accepted g → RunCam.make_row g = Ok (row_of_groups g).
Proof.
  unfold ints_accepted, int_fields. rewrite !Forall_cons.
  intros (H1 & H2 & H3 & H4 & H5 & _). unfold RunCam.make_row. cbv zeta.
  rewrite (optional_int_accepted _ _ H1). simpl.
  rewrite (optional_int_accepted _ _ H2). simpl.
  rewrite (count_accepted _ H3). simpl.
  rewrite (int_of_digits_accepted _ H4). simpl.
  by rewrite (int_of_digits_accepted _ H5).
Qed.

Lemma make_row_refused g :
  ¬ ints_accepted g → RunCam.make_row g = Raise ValueError.
Proof.
  unfold ints_accepted, int_fields. rewrite !Forall_cons. intros Hno.
  unfold RunCam.make_row. cbv zeta.
  destruct (le_lt_dec (String.length (RunCam.group g "PETs")) max_str_digits)
    as [H1|H1]; [|by rewrite (optional_int_refused _ _ H1)].
  rewrite (optional_int_accepted _ _ H1). simpl.
  destruct (le_lt_dec (String.length (RunCam.group g "PEs")) max_str_digits)
    as [H2|H2]; [|by rewrite (optional_int_refused _ _ H2)].
  rewrite (optional_int_accepted _ _ H2). simpl.
  destruct (le_lt_dec (String.length (RunCam.group g "count")) max_str_digits)
    as [H3|H3]; [|by rewrite (count_refused _ H3)].
  rewrite (count_accepted _ H3). simpl.
  destruct (le_lt_dec (String.length (RunCam.group g "minpet")) max_str_digits)
    as [H4|H4]; [|by rewrite (int_of_digits_refused _ H4)].
  rewrite (int_of_digits_accepted _ H4). simpl.
  destruct (le_lt_dec (String.length (RunCam.group g "maxpet")) max_str_digits)
    as [H5|H5]; [|by rewrite (int_of_digits_refused _ H5)].
  exfalso. apply Hno. by split_and!.
Qed.

Lemma make_row_Ok_inv g r :
  RunCam.make_row g = Ok r → ints_accepted g ∧ r = row_of_groups g.
Proof.
  destruct (decide (ints_accepted g)) as [H|H].
  - rewrite (make_row_accepted g H). by intros [= <-].
  - by rewrite (make_row_refused g H).
Qed.

Lemma make_row_Raise_inv g e :
  RunCam.make_row g = Raise e → ¬ ints_accepted g ∧ e = ValueError.
Proof.
  destruct (decide (ints_accepted g)) as [H|H].
  - by rewrite (make_row_accepted g H).
  - rewrite (make_row_refused g H). by intros [= <-].
Qed.

Lemma omap_fmap_matches {B} (mk : groups → B) (lines : list string) :
  omap (λ line, mk <$> re_match pat line) lines
  = mk <$> omap (re_match pat) lines.
Proof.
  induction lines as [|line lines IH]; [done|].
  change (omap ?f (line :: lines))
    with (match f line with Some y => y :: omap f lines | None => omap f lines end).
  cbv beta. destruct (re_match pat line); simpl; by rewrite IH.
Qed.

(** The loop of the parser of [run-cam/timing.py] over the matches. *)
Lemma parse_loop_accepted rows lines :
  Forall ints_accepted (omap (re_match pat) lines) →
  RunCam.parse_loop rows lines
  = Ok (rows ++ omap (λ line, row_of_groups <$> re_match pat line) lines).
Proof.
  revert rows. induction lines as [|line lines IH]; intros rows; simpl.
  { by rewrite app_nil_r. }
  destruct (re_match pat line) as [g|]; simpl; [|apply IH].
  intros [Hg Hall]%Forall_cons. rewrite (make_row_accepted g Hg). simpl.
  rewrite (IH _ Hall). by rewrite <-app_assoc.
Qed.

Lemma parse_loop_refused rows lines :
  ¬ Forall ints_accepted (omap (re_match pat) lines) →
  RunCam.parse_loop rows lines = Raise ValueError.
Proof.
  revert rows. induction lines as [|line lines IH]; intros rows; simpl.
  { intros []. constructor. }
  destruct (re_match pat line) as [g|]; simpl; [|apply IH].
  intros Hno. destruct (decide (ints_accepted g)) as [Hg|Hg].
  - rewrite (make_row_accepted g Hg). simpl. apply IH.
    intros Hall. apply Hno. by constructor.
  - by rewrite (make_row_refused g Hg).
Qed.

Lemma RunCam_parse_cases text :
  let gs := omap (re_match pat) (splitlines text) in
  RunCam.parse_esmf_summary text
  = if decide (Forall ints_accepted gs) then
      match row_of_groups <$> gs with
      | [] => Raise (RuntimeError RunCam.no_rows_msg)
      | rows => Ok rows
      end
    else Raise ValueError.
Proof.
  intros gs. unfold RunCam.parse_esmf_summary, RunCam.parse_lines.
  destruct (decide (Forall ints_accepted gs)) as [H|H].
  - rewrite (parse_loop_accepted [] _ H), app_nil_l, omap_fmap_matches.
    fold gs. by destruct gs.
  - by rewrite (parse_loop_refused [] _ H).
Qed.

Lemma matches_omap_nil (lines : list string) :
  omap (re_match pat) lines = [] ↔ Forall (λ line, ¬ matches line) lines.
Proof.
  rewrite <-(omap_matches_nil id), omap_fmap_matches.
  by rewrite list_fmap_id.
Qed.

(** X1: parsing in [run-cam/timing.py]. It fails with the error of the
    parser when no line of the document matches the pattern; it fails with
    the [ValueError] of [int] when a matching line has an integer field of
    more than 4300 digits; and otherwise it returns the rows of the
    matching lines in the order of the lines. These are its only
    failures. *)
Lemma RunCam_parse_esmf_summary_spec text :
  let lines := splitlines text in
  let gs := omap (re_match pat) lines in
  (Forall (λ line, ¬ matches line) lines →
     RunCam.parse_esmf_summary text = Raise (RuntimeError RunCam.no_rows_msg)) ∧
  (Exists (λ g, ¬ ints_accepted g) gs →
     RunCam.parse_esmf_summary text = Raise ValueError) ∧
  (Exists matches lines → Forall ints_accepted gs →
     ∃ rows, RunCam.parse_esmf_summary text = Ok rows ∧
             Forall2 (λ g r, RunCam.make_row g = Ok r) gs rows ∧
             length rows = length (filter matches lines)) ∧
  (raises (RunCam.parse_esmf_summary text) ↔
     Forall (λ line, ¬ matches line) lines ∨
     Exists (λ g, ¬ ints_accepted g) gs).
Proof.
  intros lines gs. rewrite RunCam_parse_cases. fold lines. fold gs.
  pose proof (matches_omap_nil lines) as Hnil. fold gs in Hnil.
  assert (Forall ints_accepted gs ↔ ¬ Exists (λ g, ¬ ints_accepted g) gs)
    as Hall.
  { rewrite <-Forall_Exists_neg. apply Forall_iff. intros g.
    destruct (decide (ints_accepted g)); tauto. }
  split_and!.
  - intros H%Hnil. rewrite H. by rewrite decide_True by constructor.
  - intros H. rewrite decide_False; [done|]. by rewrite Hall; intros [].
  - intros Hex Hacc. rewrite decide_True by done.
    assert (gs ≠ []) as Hne.
    { intros H%Hnil. apply Exists_exists in Hex as (line & Hin & Hm).
      rewrite Forall_forall in H. by destruct (H line Hin). }
    exists (row_of_groups <$> gs). split_and!.
    + by destruct gs.
    + apply Forall2_fmap_r, Forall_Forall2_diag.
      eapply Forall_impl; [exact Hacc|]. intros g Hg. by apply make_row_accepted.
    + rewrite length_fmap. unfold gs.
      rewrite <-(length_omap_matches id), omap_fmap_matches.
      by rewrite list_fmap_id.
  - destruct (decide (Forall ints_accepted gs)) as [Hacc|Hacc].
    + destruct gs as [|g gs'] eqn:E; simpl.
      * split; [intros _; left; by apply Hnil|]. intros _. by eexists.
      * split; [by intros [? ?]|]. intros [H%Hnil|H]; [done|].
        by apply Hall in Hacc.
    + split; [|intros _; by eexists]. intros _. right.
      destruct (decide (Exists (λ g, ¬ ints_accepted g) gs)) as [|Hno]; [done|].
      by apply Hall in Hno.
Qed.

(** Parsing in [timing/timing.py] never fails. *)
Lemma Timing_parse_esmf_summary_spec text :
  Timing.parse_esmf_summary text
  = Ok (omap (λ line, Timing.make_row <$> re_match pat line) (splitlines text)).
Proof.
  unfold Timing.parse_esmf_summary, Timing.parse_lines.
  by rewrite parse_loop_omap.
Qed.

(** ** The region helpers of [run-cam/timing.py] *)

Section helpers.
Import RunCam.
Context {A : Type} (row_of : A → Row).

Lemma find_from_spec i rows name :
  match find_from row_of i rows name with
  | Some (r, k) =>
      ∃ j, k = i + j ∧ rows !! j = Some r ∧ region (row_of r) = name ∧
           ∀ j' r', j' < j → rows !! j' = Some r' → region (row_of r') ≠ name
  | None => Forall (λ r, region (row_of r) ≠ name) rows
  end.
Proof.
  revert i. induction rows as [|r rows IH]; intros i; simpl; [constructor|].
  destruct (decide (region (row_of r) = name)) as [E|E].
  - exists 0. split_and!; [lia|done|done|]. intros ?? H. lia.
  - specialize (IH (S i)).
    destruct (find_from row_of (S i) rows name) as [[r' k]|].
    + destruct IH as (j & -> & Hj & Hr & Hmin). exists (S j).
      split_and!; [lia|done|done|].
      intros [|j'] r'' Hlt; simpl; [congruence|]. apply Hmin. lia.
    + by constructor.
Qed.

(** The first row of the name, with its position; nothing when no row
    has the name. *)
Lemma find_region_rows_spec rows name :
  match find_region_rows row_of rows name with
  | Some (r, i) =>
      rows !! i = Some r ∧ region (row_of r) = name ∧
      ∀ j r', j < i → rows !! j = Some r' → region (row_of r') ≠ name
  | None => Forall (λ r, region (row_of r) ≠ name) rows
  end.
Proof.
  unfold find_region_rows. pose proof (find_from_spec 0 rows name) as H.
  destruct (find_from row_of 0 rows name) as [[r i]|]; [|done].
  by destruct H as (j & -> & ?).
Qed.

Lemma collect_loop_spec pind rows a n out :
  a + n = length rows →
  ∃ k, k ≤ n ∧
    collect_loop row_of pind rows (seq a n) out
    = Ok (out ++ take k (drop a rows)) ∧
    Forall (λ r, pind < indent (row_of r)) (take k (drop a rows)) ∧
    (∀ r, rows !! (a + k) = Some r → indent (row_of r) ≤ pind).
Proof.
  revert a out. induction n as [|n IH]; intros a out Hlen; simpl.
  - exists 0. split_and!; [done|by rewrite take_0, app_nil_r|by rewrite take_0|].
    intros r Hr. apply lookup_lt_Some in Hr. lia.
  - destruct (rows !! a) as [r|] eqn:Hr.
    2: { apply lookup_ge_None in Hr. lia. }
    destruct (indent (row_of r) <=? pind) eqn:E.
    + apply Nat.leb_le in E. exists 0.
      split_and!; [lia|by rewrite take_0, app_nil_r|by rewrite take_0|].
      rewrite Nat.add_0_r. intros r0 Hr0.
      assert (r0 = r) as -> by congruence. done.
    + apply Nat.leb_gt in E.
      destruct (IH (S a) (out ++ [r])) as (k & Hk & -> & Hall & Hnext); [lia|].
      exists (S k).
      rewrite (drop_S _ _ _ Hr). simpl.
      split_and!.
      * lia.
      * rewrite <-app_assoc. reflexivity.
      * by constructor.
      * intros r'. replace (a + S k) with (S a + k) by lia. apply Hnext.
Qed.

Lemma collect_children_spec rows p parent :
  rows !! p = Some parent →
  ∃ out,
    collect_children row_of rows p = Ok out ∧
    out = take (length out) (drop (S p) rows) ∧
    Forall (λ r, indent (row_of parent) < indent (row_of r)) out ∧
    (∀ r, rows !! (S p + length out) = Some r →
          indent (row_of r) ≤ indent (row_of parent)).
Proof.
  intros Hp. unfold collect_children. rewrite Hp.
  apply lookup_lt_Some in Hp as Hlt.
  destruct (collect_loop_spec (indent (row_of parent)) rows (p + 1)
              (length rows - (p + 1)) []) as (k & Hk & -> & Hall & Hnext);
    [lia|].
  replace (p + 1) with (S p) in * by lia.
  eexists. split; [done|]. simpl.
  assert (length (take k (drop (S p) rows)) = k) as Hlen.
  { rewrite length_take, length_drop. lia. }
  rewrite Hlen. by split_and!.
Qed.

Lemma build_region_map_snoc rows r :
  build_region_map row_of (rows ++ [r])
  = <[region (row_of r) := r]> (build_region_map row_of rows).
Proof. unfold build_region_map. by rewrite foldl_app. Qed.

Lemma build_region_map_lookup rows name :
  build_region_map row_of rows !! name
  = last (filter (λ r, region (row_of r) = name) rows).
Proof.
  induction rows as [|r rows IH] using rev_ind; [done|].
  rewrite build_region_map_snoc, filter_app, (filter_singleton _ r []).
  destruct (decide (region (row_of r) = name)) as [<-|Hne].
  - by rewrite lookup_insert_eq, last_snoc.
  - rewrite lookup_insert_ne by done. by rewrite app_nil_r.
Qed.

Lemma build_region_map_size rows :
  size (build_region_map row_of rows) ≤ length rows.
Proof.
  induction rows as [|r rows IH] using rev_ind; [done|].
  rewrite build_region_map_snoc, length_app. simpl.
  destruct (build_region_map row_of rows !! region (row_of r)) eqn:E.
  - rewrite map_size_insert_Some by done. lia.
  - rewrite map_size_insert_None by done. lia.
Qed.
End helpers.

(** ** Signs *)

Lemma zero_rank : frank 0%float = (0, 0, 0)%Z.
Proof. reflexivity. Qed.

Lemma number_zero : number 0%float.
Proof. unfold number. by vm_compute. Qed.

Lemma ltb_zero_neq y : (0 <? y)%float = true → (y =? 0)%float = false.
Proof.
  rewrite ltb_rank, <-not_true_iff_false, eqb_rank.
  intros (_ & _ & Hlt) (_ & _ & Heq). rewrite Heq in Hlt.
  by apply rank_lt_irrefl in Hlt.
Qed.

Lemma py_div_positive x y : (0 <? y)%float = true → py_div x y = Ok (x / y)%float.
Proof. intros H. unfold py_div. by rewrite (ltb_zero_neq y H). Qed.

Lemma py_max_zero_nonneg x : (0 <=? py_max 0 x)%float = true.
Proof.
  unfold py_max. destruct (0 <? x)%float eqn:E; [by apply ltb_leb|done].
Qed.

Section rounding_signs.
Variables prec emax : Z.

Lemma binary_round_aux_sign s m e l :
  sf_sign_is s (binary_round_aux prec emax s m e l).
Proof.
  unfold binary_round_aux.
  destruct (shr_fexp prec emax m e l) as [mrs' e'].
  destruct (shr_fexp prec emax _ e' loc_Exact) as [mrs'' e''].
  destruct (shr_m mrs''); [done| |done].
  by destruct (e'' <=? emax - prec)%Z.
Qed.

Lemma binary_round_sign s m e : sf_sign_is s (binary_round prec emax s m e).
Proof.
  unfold binary_round. destruct (shl_align _ _ _) as [mz ez].
  apply binary_round_aux_sign.
Qed.

Lemma binary_normalize_sign m e :
  (sf_pos (binary_normalize prec emax m e false) → 0 < m)%Z ∧
  (sf_neg (binary_normalize prec emax m e false) → m < 0)%Z.
Proof.
  destruct m as [|p|p]; simpl; [done| |].
  - pose proof (binary_round_sign false p e) as H.
    destruct (binary_round prec emax false p e); simpl in *; subst;
      split; intros; first [done|lia].
  - pose proof (binary_round_sign true p e) as H.
    destruct (binary_round prec emax true p e); simpl in *; subst;
      split; intros; first [done|lia].
Qed.

Lemma SFmul_sign_r x m e :
  let r := SFmul prec emax x (S754_finite false m e) in
  (sf_pos r → sf_pos x) ∧ (sf_neg r → sf_neg x).
Proof.
  destruct x as [[]|[]| |s mx ex]; simpl; try done.
  pose proof (binary_round_aux_sign (xorb s false) (Z.pos (mx * m))
                (ex + e) loc_Exact) as H.
  rewrite xorb_false_r in *.
  destruct (binary_round_aux _ _ _ _ _ _); simpl in *; subst; done.
Qed.

Lemma SFmul_sign_l x m e :
  let r := SFmul prec emax (S754_finite false m e) x in
  (sf_pos r → sf_pos x) ∧ (sf_neg r → sf_neg x).
Proof.
  destruct x as [[]|[]| |s mx ex]; simpl; try done.
  pose proof (binary_round_aux_sign (xorb false s) (Z.pos (m * mx))
                (e + ex) loc_Exact) as H.
  rewrite xorb_false_l in *.
  destruct (binary_round_aux _ _ _ _ _ _); simpl in *; subst; done.
Qed.

Lemma SFdiv_sign x y :
  sf_pos y →
  let r := SFdiv prec emax x y in
  (sf_pos r → sf_pos x) ∧ (sf_neg r → sf_neg x).
Proof.
  destruct y as [|[]| |[] my ey]; try done; intros _;
    destruct x as [[]|[]| |s mx ex]; simpl; try done.
  destruct (SFdiv_core_binary _ _ _ _ _ _) as [[mz ez] lz].
  pose proof (binary_round_aux_sign (xorb s false) mz ez lz) as H.
  rewrite xorb_false_r in *.
  destruct (binary_round_aux _ _ _ _ _ _); simpl in *; subst; done.
Qed.
End rounding_signs.

Section binary64.
Local Open Scope Z_scope.

Lemma digits2_pos_bounds m :
  2 ^ (Z.pos (digits2_pos m) - 1) ≤ Z.pos m < 2 ^ Z.pos (digits2_pos m).
Proof.
  induction m as [m IH|m IH|]; simpl digits2_pos;
    rewrite ?Pos2Z.inj_succ; [| |done].
  - replace (Z.succ (Z.pos (digits2_pos m)) - 1)
      with (Z.succ (Z.pos (digits2_pos m) - 1)) by lia.
    rewrite !Z.pow_succ_r by lia. lia.
  - replace (Z.succ (Z.pos (digits2_pos m)) - 1)
      with (Z.succ (Z.pos (digits2_pos m) - 1)) by lia.
    rewrite !Z.pow_succ_r by lia. lia.
Qed.

Lemma iter_xO_pow m d : Z.pos (Pos.iter xO m d) = Z.pos m * 2 ^ Z.pos d.
Proof.
  induction d as [|d IH] using Pos.peano_ind; [simpl; lia|].
  rewrite Pos.iter_succ, Pos2Z.inj_xO, IH, Pos2Z.inj_succ, Z.pow_succ_r by lia.
  lia.
Qed.

(** The mantissa brought to the smaller exponent [ez]. *)
Lemma shl_align_value m e ez :
  ez ≤ e → Z.pos (fst (shl_align m e ez)) = Z.pos m * 2 ^ (e - ez).
Proof.
  intros Hle. unfold shl_align. destruct (ez - e) as [|d|d] eqn:E.
  - replace (e - ez) with 0 by lia. simpl. lia.
  - lia.
  - simpl. rewrite iter_xO_pow. f_equal. f_equal. lia.
Qed.

Lemma bounded_canonical m e :
  bounded prec emax m e = true →
  - 1074 ≤ e ∧ Z.pos (digits2_pos m) ≤ 53 ∧
  (- 1074 < e → Z.pos (digits2_pos m) = 53).
Proof.
  unfold bounded, canonical_mantissa, fexp, SpecFloat.emin, prec, emax.
  intros [H%Z.eqb_eq _]%andb_true_iff. lia.
Qed.

(** Of two positive binary64 values in canonical form the one with the
    smaller exponent is the smaller one. *)
Lemma canonical_lt_exponent mx ex my ey :
  bounded prec emax mx ex = true → bounded prec emax my ey = true →
  ex < ey → Z.pos mx < Z.pos my * 2 ^ (ey - ex).
Proof.
  intros (Hex & Hdx & _)%bounded_canonical (_ & _ & Hdy)%bounded_canonical Hlt.
  pose proof (digits2_pos_bounds mx) as [_ Hx].
  pose proof (digits2_pos_bounds my) as [Hy _].
  rewrite Hdy in Hy by lia.
  assert (Z.pos mx < 2 ^ 53) as Hx'.
  { eapply Z.lt_le_trans; [exact Hx|]. apply Z.pow_le_mono_r; lia. }
  assert (2 ^ 1 ≤ 2 ^ (ey - ex)) as Hp by (apply Z.pow_le_mono_r; lia).
  change (2 ^ 53) with (2 ^ 52 * 2 ^ 1) in Hx'. change (53 - 1) with 52 in Hy.
  nia.
Qed.

Lemma SFsub_sign x y :
  valid_binary x = true → valid_binary y = true → sf_pos x →
  let d := SFsub prec emax x y in
  (sf_pos d → rank_lt (rank y) (rank x)) ∧
  (sf_neg d → rank_lt (rank x) (rank y)).
Proof.
  intros Vx Vy Hx.
  destruct x as [|[]| |[] mx ex]; try done.
  { destruct y as [[]|[]| |[] my ey]; simpl;
      split; intros; first [done|lia]. }
  destruct y as [[]|[]| |sy my ey];
    try (simpl; split; intros; first [done|lia]).
  unfold SFsub. cbv zeta.
  match goal with
  | |- context [binary_normalize _ _ ?D ?e _] =>
      pose proof (binary_normalize_sign prec emax D e) as [Hp Hn];
      set (d := binary_normalize prec emax D e false) in *
  end.
  simpl in Vx, Vy.
  rewrite !shl_align_value in Hp, Hn by lia.
  destruct sy; simpl in Hp, Hn.
  { split; [intros; simpl; lia|]. intros H%Hn. lia. }
  destruct (Z.lt_trichotomy ex ey) as [Hlt|[->|Hgt]].
  - pose proof (canonical_lt_exponent _ _ _ _ Vx Vy Hlt).
    rewrite Z.min_l, Z.sub_diag, Z.pow_0_r in Hp, Hn by lia.
    split; [intros H'%Hp; lia|]. intros _. simpl. lia.
  - rewrite Z.min_id, Z.sub_diag, Z.pow_0_r in Hp, Hn.
    split; intros H; [apply Hp in H|apply Hn in H]; simpl; lia.
  - pose proof (canonical_lt_exponent _ _ _ _ Vy Vx Hgt).
    rewrite Z.min_r, Z.sub_diag, Z.pow_0_r in Hp, Hn by lia.
    split; [|intros H'%Hn; lia]. intros _. simpl. lia.
Qed.
End binary64.

Lemma sf_pos_rank x : x ≠ S754_nan → sf_pos x ↔ rank_lt (0, 0, 0)%Z (rank x).
Proof. intros Hx. destruct x as [[]|[]| |[] m e]; simpl; try done; lia. Qed.

Lemma sf_neg_rank x : x ≠ S754_nan → sf_neg x ↔ rank_lt (rank x) (0, 0, 0)%Z.
Proof. intros Hx. destruct x as [[]|[]| |[] m e]; simpl; try done; lia. Qed.

Lemma ltb_zero_pos x : (0 <? x)%float = true ↔ sf_pos (Prim2SF x).
Proof.
  rewrite ltb_rank, zero_rank. unfold frank, number. split.
  - intros (_ & Hx & H). by apply sf_pos_rank.
  - intros H. assert (Prim2SF x ≠ S754_nan) as Hx by by destruct (Prim2SF x).
    split_and!; [apply number_zero|done|by apply sf_pos_rank].
Qed.

Lemma ltb_neg_zero x : (x <? 0)%float = true ↔ sf_neg (Prim2SF x).
Proof.
  rewrite ltb_rank, zero_rank. unfold frank, number. split.
  - intros (Hx & _ & H). by apply sf_neg_rank.
  - intros H. assert (Prim2SF x ≠ S754_nan) as Hx by by destruct (Prim2SF x).
    split_and!; [done|apply number_zero|by apply sf_neg_rank].
Qed.

Lemma sf_pos_number x : sf_pos (Prim2SF x) → number x.
Proof. unfold number. by destruct (Prim2SF x). Qed.

Lemma sf_neg_number x : sf_neg (Prim2SF x) → number x.
Proof. unfold number. by destruct (Prim2SF x). Qed.

(** The sign of a difference [base - opt] with [base] positive tells which
    of the two is the smaller one. *)
Lemma sub_sign base opt :
  (0 <? base)%float = true →
  ((0 <? base - opt)%float = true → (opt <? base)%float = true) ∧
  ((base - opt <? 0)%float = true → (base <? opt)%float = true).
Proof.
  intros Hb%ltb_zero_pos. rewrite ltb_zero_pos, ltb_neg_zero, sub_spec.
  pose proof (SFsub_sign (Prim2SF base) (Prim2SF opt)
                (Prim2SF_valid base) (Prim2SF_valid opt) Hb) as [Hp Hn].
  assert (sf_pos (SF64sub (Prim2SF base) (Prim2SF opt)) ∨
          sf_neg (SF64sub (Prim2SF base) (Prim2SF opt)) → number opt) as Hopt.
  { unfold number, SF64sub. destruct (Prim2SF opt); try done.
    destruct (Prim2SF base); simpl; tauto. }
  split; intros H; apply ltb_rank.
  - split_and!; [tauto|by apply sf_pos_number|by apply Hp].
  - split_and!; [by apply sf_pos_number|tauto|by apply Hn].
Qed.

Lemma mul_100_sign x :
  ((0 <? x * 100)%float = true → (0 <? x)%float = true) ∧
  ((x * 100 <? 0)%float = true → (x <? 0)%float = true).
Proof.
  rewrite !ltb_zero_pos, !ltb_neg_zero, mul_spec.
  apply (SFmul_sign_r prec emax (Prim2SF x) 7036874417766400 (-46)).
Qed.

Lemma mul_100_sign_l x :
  ((0 <? 100 * x)%float = true → (0 <? x)%float = true) ∧
  ((100 * x <? 0)%float = true → (x <? 0)%float = true).
Proof.
  rewrite !ltb_zero_pos, !ltb_neg_zero, mul_spec.
  apply (SFmul_sign_l prec emax (Prim2SF x) 7036874417766400 (-46)).
Qed.

Lemma div_sign x y :
  (0 <? y)%float = true →
  ((0 <? x / y)%float = true → (0 <? x)%float = true) ∧
  ((x / y <? 0)%float = true → (x <? 0)%float = true).
Proof.
  intros Hy%ltb_zero_pos. rewrite !ltb_zero_pos, !ltb_neg_zero, div_spec.
  by apply SFdiv_sign.
Qed.

(** A magnitude that reaches a positive threshold belongs to a value that
    is a number and not zero. *)
Lemma threshold_reached_sign thr p :
  (0 <? thr)%float = true → (thr <=? abs p)%float = true →
  (0 <? p)%float = true ∨ (p <? 0)%float = true.
Proof.
  intros (_ & _ & Ht)%ltb_rank (_ & Hp & Hle)%leb_rank.
  rewrite ltb_zero_pos, ltb_neg_zero. rewrite zero_rank in Ht.
  unfold frank, number in *. rewrite abs_spec in *.
  assert (rank_lt (0, 0, 0)%Z (rank (SFabs (Prim2SF p)))) as H.
  { destruct Hle as [Hle|<-]; [by eapply rank_lt_trans|done]. }
  destruct (Prim2SF p) as [[]|[]| |[] m e]; simpl in *; try lia; tauto.
Qed.

Lemma threshold_not_reached_zero thr p :
  (0 <? thr)%float = true → (p =? 0)%float = true →
  (thr <=? abs p)%float = false.
Proof.
  intros (_ & _ & Ht)%ltb_rank (Hp & _ & Hz)%eqb_rank.
  rewrite <-not_true_iff_false, leb_rank. intros (_ & _ & Hle).
  rewrite zero_rank in Ht, Hz. unfold frank, number in *.
  rewrite abs_spec in *.
  destruct (Prim2SF p) as [[]|[]| |[] m e]; simpl in *; try done;
    destruct (rank (Prim2SF thr)) as [[??]?]; simpl in *;
    destruct Hle as [?|[=]]; lia.
Qed.

Lemma ltb_asym x y : (x <? y)%float = true → (y <? x)%float = false.
Proof.
  rewrite <-not_true_iff_false, !ltb_rank.
  intros (_ & _ & H) (_ & _ & H'). by apply rank_lt_asym in H.
Qed.

Lemma eqb_not_ltb x y :
  (x =? y)%float = true → (x <? y)%float = false ∧ (y <? x)%float = false.
Proof.
  intros H. pose proof H as (Hx & Hy & _)%eqb_rank.
  assert ((y =? y)%float = true) as Hyy by by apply eqb_rank.
  split; by eapply eqb_ltb_false.
Qed.

(** What decides the direction of a label: when the magnitude of the delta
    reaches a positive threshold, the delta is positive exactly when the
    optimized time is the smaller one, and otherwise it is the larger one. *)
Lemma labelled_direction thr base opt pct :
  ((0 <? pct)%float = true → (opt <? base)%float = true) →
  ((pct <? 0)%float = true → (base <? opt)%float = true) →
  (0 <? thr)%float = true → (thr <=? abs pct)%float = true →
  (0 <? pct)%float = (opt <? base)%float ∧
  ((opt <? base)%float = false → (base <? opt)%float = true) ∧
  (opt =? base)%float = false.
Proof.
  intros Hp Hn Ht Hle.
  destruct (threshold_reached_sign thr pct Ht Hle) as [H|H].
  - rewrite H, (Hp H). split_and!; [done|done|].
    apply not_true_iff_false. intros [E _]%eqb_not_ltb. rewrite (Hp H) in E. done.
  - rewrite (ltb_asym _ _ H), (ltb_asym _ _ (Hn H)). split_and!; [done|by auto|].
    apply not_true_iff_false. intros [_ E]%eqb_not_ltb. rewrite (Hn H) in E. done.
Qed.

Lemma RunCam_pct_sign base opt :
  (0 <? base)%float = true →
  let pct := ((base - opt) / base * 100)%float in
  ((0 <? pct)%float = true → (opt <? base)%float = true) ∧
  ((pct <? 0)%float = true → (base <? opt)%float = true).
Proof.
  intros Hb pct. unfold pct.
  destruct (mul_100_sign ((base - opt) / base)) as [M1 M2].
  destruct (div_sign (base - opt) base Hb) as [D1 D2].
  destruct (sub_sign base opt Hb) as [S1 S2]. auto.
Qed.

Lemma Timing_pct_sign base opt :
  (0 <? base)%float = true →
  let pct := (100 * (base - opt) / base)%float in
  ((0 <? pct)%float = true → (opt <? base)%float = true) ∧
  ((pct <? 0)%float = true → (base <? opt)%float = true).
Proof.
  intros Hb pct. unfold pct.
  destruct (div_sign (100 * (base - opt)) base Hb) as [D1 D2].
  destruct (mul_100_sign_l (base - opt)) as [M1 M2].
  destruct (sub_sign base opt Hb) as [S1 S2]. auto.
Qed.

(** ** The ratios *)

Lemma ratio_values pmean mean base_mean opt_mean :
  RunCam.share_of_parent pmean mean
  = Ok (if 0 <? pmean then 100 * (mean / pmean) else nan)%float ∧
  RunCam.speedup_base_over_opt base_mean opt_mean
  = Ok (if 0 <? opt_mean then Some (base_mean / opt_mean) else None)%float.
Proof.
  unfold RunCam.share_of_parent, RunCam.speedup_base_over_opt, truthy. split.
  - destruct (0 <? pmean)%float eqn:E; [|done]. by rewrite py_div_positive.
  - destruct (0 <? opt_mean)%float eqn:E; [|by rewrite andb_false_r].
    rewrite (ltb_zero_neq _ E). simpl. by rewrite py_div_positive.
Qed.

(** C7, as the code has it, for a positive threshold. With a positive
    baseline time (and, in [timing/timing.py], a positive optimized time; in
    [run-cam/timing.py], an optimized time that is there) the bar is
    labelled exactly when the magnitude of the percentage delta reaches the
    threshold; the label says faster exactly when the optimized time is
    below the baseline and slower exactly when it is above; equal times get
    no label. With a baseline time that is not positive (in
    [timing/timing.py] also with an optimized time that is not positive)
    there is no label, whatever the delta. *)
Theorem label_direction_by_times thr base opt :
  (0 <? thr)%float = true →
  (* timing/timing.py *)
  (let pct := (100 * (base - opt) / base)%float in
   ((0 <? base)%float = true → (0 <? opt)%float = true →
    Timing.annotation thr base opt
    = Ok (if (thr <=? abs pct)%float
          then Some (abs pct, if (opt <? base)%float
                              then Timing.Faster else Timing.Slower)
          else None) ∧
    ((thr <=? abs pct)%float = true → (opt <? base)%float = false →
     (base <? opt)%float = true) ∧
    ((opt =? base)%float = true → Timing.annotation thr base opt = Ok None)) ∧
   ((0 <? base)%float = false ∨ (0 <? opt)%float = false →
    Timing.annotation thr base opt = Ok None)) ∧
  (* run-cam/timing.py *)
  (let pct := ((base - opt) / base * 100)%float in
   let thr := RunCam.ANNOTATE_THRESHOLD_PCT in
   ((0 <? base)%float = true → is_NaN opt = false →
    RunCam.annotation base opt
    = Ok (if (thr <=? abs pct)%float
          then Some (abs pct, if (opt <? base)%float
                              then RunCam.Faster else RunCam.Slower)
          else None) ∧
    ((thr <=? abs pct)%float = true → (opt <? base)%float = false →
     (base <? opt)%float = true) ∧
    ((opt =? base)%float = true → RunCam.annotation base opt = Ok None)) ∧
   ((0 <? base)%float = false ∨ is_NaN opt = true →
    RunCam.annotation base opt = Ok None)).
Proof.
  intros Ht. split.
  - intros pct. split.
    + intros Hb Ho. unfold Timing.annotation. rewrite Hb, Ho. simpl.
      rewrite py_div_positive by done. simpl. fold pct.
      destruct (Timing_pct_sign base opt Hb) as [Hp Hn]. fold pct in Hp, Hn.
      destruct (thr <=? abs pct)%float eqn:E.
      * destruct (labelled_direction thr base opt pct Hp Hn Ht E)
          as (-> & Hs & Hne).
        split_and!; [done|done|]. intros Heq. by rewrite Heq in Hne.
      * done.
    + intros H. unfold Timing.annotation.
      destruct H as [-> | ->]; [done|by rewrite andb_false_r].
  - intros pct thr5. split.
    + intros Hb Ho. unfold RunCam.annotation, truthy. rewrite Ho, Hb.
      rewrite (ltb_zero_neq _ Hb). simpl.
      rewrite py_div_positive by done. simpl. fold pct. fold thr5.
      destruct (RunCam_pct_sign base opt Hb) as [Hp Hn]. fold pct in Hp, Hn.
      destruct (thr5 <=? abs pct)%float eqn:E.
      * destruct (labelled_direction thr5 base opt pct Hp Hn eq_refl E)
          as (-> & Hs & Hne).
        split_and!; [done|done|]. intros Heq. by rewrite Heq in Hne.
      * done.
    + intros H. unfold RunCam.annotation.
      destruct H as [-> | ->]; [|done]. rewrite andb_false_r.
      by destruct (is_NaN opt).
Qed.

(** ** The loop over the selected children *)

Section emit.
Import RunCam.
Context (h : heap) (with_opt : bool) (opt_map : gmap string ref).

Lemma emit_row_spec acc r :
  ∃ acc', emit_row h with_opt opt_map acc r = Ok acc' ∧
    labels acc' = labels acc ++ [region (deref h r)] ∧
    base_means acc' = base_means acc ++ [Mean (deref h r)] ∧
    base_xerr_low acc' = base_xerr_low acc ++ [low_of h r] ∧
    base_xerr_high acc' = base_xerr_high acc ++ [high_of h r] ∧
    opt_means acc'
    = opt_means acc ++ [if with_opt then Mean <$> counterpart h with_opt opt_map r
                        else Some 0%float] ∧
    (∃ row, csv_rows acc' = csv_rows acc ++ [row] ∧
            csv_region row = region (deref h r) ∧
            baseline_mean_s row = Mean (deref h r) ∧
            (optimized_mean_s <$> optimized row) = (Mean <$> counterpart h with_opt opt_map r)) ∧
    length (table acc') = length (table acc) + (if with_opt then 1 else 0) ∧
    (∀ line, line ∈ table acc' → line ∉ table acc →
             t_opt line = None ↔ counterpart h with_opt opt_map r = None).
Proof.
  unfold emit_row, counterpart.
  destruct with_opt; [destruct (opt_map !! region (deref h r)) as [o|]|].
  - destruct (ratio_values 0 0 (Mean (deref h r)) (Mean (deref h o)))
      as [_ ->]. simpl.
    eexists. split; [done|]. simpl. split_and!; try done.
    + eexists. by split_and!.
    + rewrite length_app. simpl. lia.
    + intros line [?|Hl%list_elem_of_singleton]%elem_of_app ?; [done|].
      subst line. simpl. split; done.
  - simpl. eexists. split; [done|]. simpl. split_and!; try done.
    + eexists. by split_and!.
    + rewrite length_app. simpl. lia.
    + intros line [?|Hl%list_elem_of_singleton]%elem_of_app ?; [done|].
      subst line. simpl. split; done.
  - simpl. eexists. split; [done|]. simpl. split_and!; try done.
    + eexists. by split_and!.
    + rewrite app_nil_r. lia.
    + rewrite app_nil_r. intros; done.
Qed.

Lemma emit_rows_spec rs acc :
  ∃ acc', emit_rows h with_opt opt_map acc rs = Ok acc' ∧
    labels acc' = labels acc ++ map (λ r, region (deref h r)) rs ∧
    base_means acc' = base_means acc ++ map (λ r, Mean (deref h r)) rs ∧
    base_xerr_low acc' = base_xerr_low acc ++ map (low_of h) rs ∧
    base_xerr_high acc' = base_xerr_high acc ++ map (high_of h) rs ∧
    opt_means acc'
    = opt_means acc ++ map (λ r, if with_opt then Mean <$> counterpart h with_opt opt_map r
                                 else Some 0%float) rs ∧
    (∃ rows, csv_rows acc' = csv_rows acc ++ rows ∧
             map csv_region rows = map (λ r, region (deref h r)) rs ∧
             map baseline_mean_s rows = map (λ r, Mean (deref h r)) rs ∧
             map (λ row, optimized_mean_s <$> optimized row) rows
             = map (λ r, Mean <$> counterpart h with_opt opt_map r) rs) ∧
    length (table acc')
    = length (table acc) + (if with_opt then length rs else 0).
Proof.
  revert acc. induction rs as [|r rs IH]; intros acc; simpl.
  { eexists. split; [done|]. rewrite !app_nil_r. split_and!; try done.
    - exists []. by rewrite app_nil_r.
    - destruct with_opt; lia. }
  destruct (emit_row_spec acc r)
    as (acc1 & -> & E1 & E2 & E3 & E4 & E5 & (row & E6 & E7 & E8 & E9) & E10 & _).
  simpl. destruct (IH acc1)
    as (acc' & -> & F1 & F2 & F3 & F4 & F5 & (rows & F6 & F7 & F8 & F9) & F10).
  eexists. split; [done|].
  rewrite F1, F2, F3, F4, F5, F6, F10, E1, E2, E3, E4, E5, E6, E10.
  rewrite <-!app_assoc. simpl. split_and!; try done.
  - exists (row :: rows). simpl. rewrite E7, E8, E9, F7, F8, F9. done.
  - destruct with_opt; lia.
Qed.
End emit.

(** ** The store *)

Section store.
Import RunCam.

Lemma share_of_parent_share pmean mean :
  share_of_parent pmean mean = Ok (share pmean mean).
Proof. apply (ratio_values pmean mean 0%float 0%float). Qed.

Lemma deref_lookup (h : heap) i r : h !! i = Some r → deref h i = r.
Proof. intros H. unfold deref. by rewrite (list_lookup_total_correct _ _ _ H). Qed.

Lemma share_loop_spec pmean children (h : heap) :
  ∃ h', share_loop pmean children h = Ok h' ∧
    length h' = length h ∧
    (∀ i, i ∉ children → h' !! i = h !! i) ∧
    (∀ i r, i ∈ children → h !! i = Some r →
            h' !! i = Some (with_pct (share pmean (Mean r)) r)).
Proof.
  revert h. induction children as [|c children IH]; intros h; simpl.
  { eexists. split_and!; [done..|]. intros ?? []%elem_of_nil. }
  rewrite share_of_parent_share. simpl.
  destruct (IH (set_pct h c (share pmean (Mean (deref h c)))))
    as (h' & -> & Hlen & Hout & Hin).
  eexists. split; [done|]. unfold set_pct in *. split_and!.
  - by rewrite Hlen, length_alter.
  - intros i [Hne Hni]%not_elem_of_cons.
    by rewrite Hout, list_lookup_alter_ne.
  - intros i r Hi Hr.
    destruct (decide (i ∈ children)) as [Hc|Hc].
    + destruct (decide (i = c)) as [->|Hne].
      * rewrite (deref_lookup _ _ _ Hr) in *.
        rewrite (Hin c (with_pct (share pmean (Mean r)) r)); [done|done|].
        by rewrite list_lookup_alter_eq, Hr.
      * rewrite (Hin i r); [done|done|].
        by rewrite list_lookup_alter_ne.
    + apply elem_of_cons in Hi as [->|?]; [|done].
      rewrite Hout, list_lookup_alter_eq, Hr by done. simpl.
      by rewrite (deref_lookup _ _ _ Hr).
Qed.
End store.

(** ** Runs of [main] in [run-cam/timing.py] *)

Lemma bind_Ok {A B} (m : result A) (f : A → result B) b :
  m ≫= f = Ok b → ∃ a, m = Ok a ∧ f a = Ok b.
Proof. destruct m; simpl; [eauto|done]. Qed.

Lemma bind_Raise {A B} (m : result A) (f : A → result B) e :
  m = Raise e → m ≫= f = Raise e.
Proof. by intros ->. Qed.

Section main_run.
Import RunCam.

Lemma alloc_nil vals : alloc [] vals = (vals, seq 0 (length vals)).
Proof. done. Qed.

Lemma load_optimized_inv h name text h' warnings opt_map :
  load_optimized h name text = Ok (h', warnings, opt_map) →
  ∃ ovals,
    match text with
    | Some t => parse_esmf_summary t = Ok ovals
    | None => ovals = []
    end ∧
    h' = h ++ ovals ∧
    opt_map = match text with
              | Some _ => build_region_map (deref h')
                            (seq (length h) (length ovals))
              | None => ∅
              end ∧
    warnings = match text with
               | Some _ =>
                   match find_region_rows (deref h')
                           (seq (length h) (length ovals)) name with
                   | None => [not_found_warning name]
                   | Some _ => []
                   end
               | None => []
               end.
Proof.
  unfold load_optimized. destruct text as [t|].
  - intros (ovals & Hp & H)%bind_Ok. unfold alloc in H.
    injection H as <- <- <-. by exists ovals.
  - intros [= <- <- <-]. exists []. by rewrite app_nil_r.
Qed.

Lemma main_inv args out :
  main args = Ok out →
  ∃ vals name parent pidx children,
    parse_esmf_summary (arg_summary args) = Ok vals ∧
    match arg_region args with
    | Some n => name = n
    | None => default_region vals (seq 0 (length vals)) = Ok name
    end ∧
    find_region_rows (deref vals) (seq 0 (length vals)) name
    = Some (parent, pidx) ∧
    collect_children (deref vals) (seq 0 (length vals)) pidx = Ok children ∧
    match out with
    | NoChildren h n => children = [] ∧ h = vals ∧ n = name
    | Reported h rep =>
        children ≠ [] ∧
        ∃ h1,
          share_loop (Mean (deref vals parent)) children vals = Ok h1 ∧
          rep_region rep = name ∧
          rep_pmean rep = Mean (deref vals parent) ∧
          rep_selected rep
          = slice_to (sorted (λ r, Mean (deref h1 r)) true children)
              (arg_top args) ∧
          load_optimized h1 name (arg_optimized_summary args)
          = Ok (h, rep_warnings rep, rep_opt_map rep) ∧
          emit_rows h (bool_decide (is_Some (arg_optimized_summary args)))
            (rep_opt_map rep) empty_acc (rep_selected rep)
          = Ok (rep_acc rep) ∧
          (if arg_png args
              && bool_decide (is_Some (arg_optimized_summary args))
           then Some <$> annotations (rep_acc rep) else Ok None)
          = Ok (rep_annotations rep)
    end.
Proof.
  unfold main. intros (vals & Hparse & H)%bind_Ok.
  rewrite alloc_nil in H. cbv beta iota zeta in H.
  apply bind_Ok in H as (name & Hname & H).
  destruct (find_region_rows _ _ name) as [[parent pidx]|] eqn:Hfind; [|done].
  apply bind_Ok in H as (children & Hchildren & H).
  exists vals, name, parent, pidx, children.
  split_and!; [done| |done|done|].
  { destruct (arg_region args); [by injection Hname|done]. }
  destruct children as [|c children].
  { injection H as <-. done. }
  apply bind_Ok in H as (h1 & Hshare & H). cbv beta iota zeta in H.
  apply bind_Ok in H as ([[h2 warnings] opt_map] & Hload & H).
  apply bind_Ok in H as (acc & Hemit & H).
  apply bind_Ok in H as (notes & Hnotes & H).
  injection H as <-. simpl. split; [done|].
  exists h1. by split_and!.
Qed.
End main_run.

(** ** Parsed times are numbers *)

Section rounding_numbers.
Variables prec emax : Z.
Local Open Scope Z_scope.

Lemma shr_1_nonneg mrs : 0 ≤ shr_m mrs → 0 ≤ shr_m (shr_1 mrs).
Proof. destruct mrs as [[|[]|[]] r s]; simpl; lia. Qed.

Lemma iter_pos_invariant {A} (P : A → Prop) (f : A → A) :
  (∀ x, P x → P (f x)) → ∀ n x, P x → P (SpecFloat.iter_pos f n x).
Proof. intros Hf. induction n; simpl; auto. Qed.

Lemma shr_fexp_nonneg m e l :
  0 ≤ m → 0 ≤ shr_m (fst (shr_fexp prec emax m e l)).
Proof.
  intros Hm. unfold shr_fexp, shr.
  assert (0 ≤ shr_m (shr_record_of_loc m l)) as H0.
  { by destruct l as [|[]]. }
  destruct (fexp prec emax (Zdigits2 m + e) - e); simpl; [done| |done].
  by apply (iter_pos_invariant (λ mrs, 0 ≤ shr_m mrs)), H0; apply shr_1_nonneg.
Qed.

Lemma round_nearest_even_nonneg m l : 0 ≤ m → 0 ≤ round_nearest_even m l.
Proof.
  intros Hm. destruct l as [|[]]; simpl; try lia. destruct (Z.even m); lia.
Qed.

Lemma binary_round_aux_not_nan s m e l :
  0 ≤ m → binary_round_aux prec emax s m e l ≠ S754_nan.
Proof.
  intros Hm. unfold binary_round_aux.
  pose proof (shr_fexp_nonneg m e l Hm) as H1.
  destruct (shr_fexp prec emax m e l) as [mrs' e']. simpl in H1.
  pose proof (shr_fexp_nonneg _ e' loc_Exact
    (round_nearest_even_nonneg _ (loc_of_shr_record mrs') H1)) as H2.
  destruct (shr_fexp prec emax _ e' loc_Exact) as [mrs'' e'']. simpl in H2.
  destruct (shr_m mrs''); [done| |lia]. by destruct (e'' <=? emax - prec).
Qed.

Lemma binary_round_not_nan s m e : binary_round prec emax s m e ≠ S754_nan.
Proof.
  unfold binary_round. destruct (shl_align _ _ _) as [mz ez].
  by apply binary_round_aux_not_nan.
Qed.

Lemma binary_normalize_not_nan m e sz :
  binary_normalize prec emax m e sz ≠ S754_nan.
Proof. destruct m; simpl; [done|apply binary_round_not_nan..]. Qed.

Lemma SFldexp_not_nan x e : x ≠ S754_nan → SFldexp prec emax x e ≠ S754_nan.
Proof. destruct x; simpl; try done. intros _. apply binary_round_not_nan. Qed.

Lemma SFdiv_finite_not_nan m1 e1 m2 e2 :
  SFdiv prec emax (S754_finite false m1 e1) (S754_finite false m2 e2)
  ≠ S754_nan.
Proof.
  simpl. unfold SFdiv_core_binary.
  set (m' := match _ - _ - _ with Z0 => Z.pos m1 | Z.pos _ => _ | Z.neg _ => 0 end).
  assert (0 ≤ m') as Hm'.
  { unfold m'. destruct (_ - _ - _); [lia| |lia]. apply Z.shiftl_nonneg. lia. }
  pose proof (Z.div_eucl_eq m' (Z.pos m2)) as Hq.
  pose proof (Z.mod_pos_bound m' (Z.pos m2)) as Hr.
  unfold Z.modulo in Hr.
  destruct (Z.div_eucl m' (Z.pos m2)) as [q r].
  apply binary_round_aux_not_nan. nia.
Qed.
End rounding_numbers.

Lemma SF2Prim_number x : x ≠ S754_nan → number (SF2Prim x).
Proof.
  intros Hx. unfold number.
  destruct x as [[]|[]| |s m e]; [by vm_compute..|done|].
  unfold SF2Prim.
  assert (Prim2SF (Z.ldexp (of_uint63 (Uint63.of_Z (Z.pos m))) e) ≠ S754_nan) as H.
  { rewrite Z_ldexp_spec. apply SFldexp_not_nan. rewrite of_uint63_spec.
    apply binary_normalize_not_nan. }
  destruct s; [|done]. rewrite opp_spec.
  by destruct (Prim2SF (Z.ldexp (of_uint63 (Uint63.of_Z (Z.pos m))) e)).
Qed.

Lemma float_of_decimal_number s : number (float_of_decimal s).
Proof.
  unfold float_of_decimal. destruct (split_dot _) as [ip fp].
  destruct (digits_value _); try apply number_zero.
  apply SF2Prim_number, SFdiv_finite_not_nan.
Qed.

Lemma RunCam_parse_Ok_inv text vals :
  RunCam.parse_esmf_summary text = Ok vals →
  vals = omap (λ line, row_of_groups <$> re_match pat line) (splitlines text)
  ∧ vals ≠ [].
Proof.
  rewrite RunCam_parse_cases, omap_fmap_matches. cbv zeta.
  destruct (decide _); [|done].
  destruct (row_of_groups <$> _) as [|r rows]; [done|]. by intros [= <-].
Qed.

Lemma RunCam_parse_Ok_accepted text vals :
  RunCam.parse_esmf_summary text = Ok vals →
  Forall ints_accepted (omap (re_match pat) (splitlines text)).
Proof. rewrite RunCam_parse_cases. cbv zeta. by destruct (decide _). Qed.

Lemma RunCam_parsed_numbers text vals :
  RunCam.parse_esmf_summary text = Ok vals →
  Forall (λ r, number (RunCam.Mean r)) vals.
Proof.
  intros [-> _]%RunCam_parse_Ok_inv. apply Forall_forall.
  intros r (line & _ & Hr)%list_elem_of_omap.
  destruct (re_match pat line) as [g|]; [|done]. injection Hr as <-.
  apply float_of_decimal_number.
Qed.

Section sorted_ext.
Context {A : Type}.

Lemma insert_by_ext (lt1 lt2 : A → A → bool) x l :
  (∀ y, y ∈ l → lt1 x y = lt2 x y) →
  insert_by lt1 x l = insert_by lt2 x l.
Proof.
  induction l as [|y l IH]; intros H; simpl; [done|].
  rewrite (H y) by left. rewrite IH; [done|]. intros z Hz. apply H. by right.
Qed.

Lemma stable_sort_ext (lt1 lt2 : A → A → bool) l :
  (∀ x y, x ∈ l → y ∈ l → lt1 x y = lt2 x y) →
  stable_sort lt1 l = stable_sort lt2 l.
Proof.
  induction l as [|x l IH] using rev_ind; intros H; [done|].
  rewrite !stable_sort_snoc, IH.
  - apply insert_by_ext. intros y Hy. rewrite stable_sort_Permutation in Hy.
    apply H; apply elem_of_app; [right; by apply list_elem_of_singleton|by left].
  - intros y z Hy Hz. apply H; apply elem_of_app; by left.
Qed.

Lemma sorted_ext (key1 key2 : A → float) rev l :
  (∀ a, a ∈ l → key1 a = key2 a) → sorted key1 rev l = sorted key2 rev l.
Proof.
  intros H. unfold sorted. destruct rev.
  - f_equal. apply stable_sort_ext. intros x y Hx Hy.
    rewrite elem_of_reverse in Hx, Hy. by rewrite (H x Hx), (H y Hy).
  - apply stable_sort_ext. intros x y Hx Hy. by rewrite (H x Hx), (H y Hy).
Qed.
End sorted_ext.

(** ** [main] of [run-cam/timing.py] does not fail beyond its three errors *)

Lemma mapM_total {A B} (f : A → result B) (l : list A) :
  Forall (λ x, ∃ y, f x = Ok y) l →
  ∃ ys, mapM f l = Ok ys ∧ length ys = length l.
Proof.
  induction 1 as [|x l [y Hy] _ (ys & IH & Hlen)]; simpl.
  { by exists []. }
  rewrite Hy. simpl. rewrite IH. simpl. exists (y :: ys). simpl. by rewrite Hlen.
Qed.

Lemma index_from_elem (l : list string) x k :
  x ∈ l → ∃ i, index_from k l x = Some (k + i) ∧ i < length l.
Proof.
  revert k. induction l as [|y l IH]; intros k; [by intros []%elem_of_nil|].
  intros Hx. simpl. destruct (decide (y = x)) as [->|Hne].
  - exists 0. split; [f_equal; lia|lia].
  - apply elem_of_cons in Hx as [->|Hx]; [done|].
    destruct (IH (S k) Hx) as (i & -> & Hi). exists (S i).
    split; [f_equal; lia|lia].
Qed.

Section main_total.
Import RunCam.

Lemma annotation_total base_val opt_val : ∃ a, annotation base_val opt_val = Ok a.
Proof.
  unfold annotation. destruct (is_NaN opt_val); [by eexists|].
  destruct (truthy base_val && (0 <? base_val)%float) eqn:E; [|by eexists].
  apply andb_true_iff in E as [_ E]. rewrite py_div_positive by done. simpl.
  destruct (_ <=? _)%float; by eexists.
Qed.

Lemma annotate_loop_total means opts labs i :
  i + length labs ≤ length means → i + length labs ≤ length opts →
  ∃ l, annotate_loop means opts i labs = Ok l.
Proof.
  revert i. induction labs as [|lbl labs IH]; intros i Hm Ho; simpl in *.
  { by eexists. }
  destruct (lookup_lt_is_Some_2 means i) as [b ->]; [lia|].
  destruct (lookup_lt_is_Some_2 opts i) as [o ->]; [lia|].
  destruct (annotation_total b o) as [a ->]. simpl.
  destruct (IH (S i)) as [l ->]; [lia..|]. simpl. by eexists.
Qed.

Lemma annotations_total acc :
  length (base_means acc) = length (labels acc) →
  length (opt_means acc) = length (labels acc) →
  ∃ l, annotations acc = Ok l.
Proof.
  intros Hm Ho. unfold annotations.
  destruct (mapM_total (opt_val_for (labels acc) (opt_means acc))
              (reverse (labels acc))) as (vals & -> & Hlen).
  { apply Forall_forall. intros lbl Hlbl. rewrite elem_of_reverse in Hlbl.
    unfold opt_val_for.
    destruct (index_from_elem _ _ 0 Hlbl) as (i & -> & Hi). simpl.
    destruct (lookup_lt_is_Some_2 (opt_means acc) i) as [[v|] ->]; [lia|..];
      by eexists. }
  simpl. rewrite length_reverse in Hlen.
  apply annotate_loop_total; rewrite !length_reverse; simpl; lia.
Qed.
End main_total.

Section main_failures.
Import RunCam.

Lemma parse_Raise_inv text e :
  parse_esmf_summary text = Raise e →
  e = RuntimeError no_rows_msg ∨ e = ValueError.
Proof.
  rewrite RunCam_parse_cases. cbv zeta.
  destruct (decide _); [|intros [= <-]; by right].
  destruct (row_of_groups <$> _); [|done]. intros [= <-]. by left.
Qed.

Lemma find_region_rows_None {A} (row_of : A → Row) rows name :
  find_region_rows row_of rows name = None
  ↔ Forall (λ r, region (row_of r) ≠ name) rows.
Proof.
  pose proof (find_region_rows_spec row_of rows name) as H.
  destruct (find_region_rows row_of rows name) as [[r i]|]; [|done].
  split; [done|]. intros Hall. destruct H as (Hi & Hr & _).
  rewrite Forall_forall in Hall. destruct (Hall r); [|done].
  by eapply list_elem_of_lookup_2.
Qed.

Lemma default_region_found (vals : heap) :
  vals ≠ [] →
  ∃ name, default_region vals (seq 0 (length vals)) = Ok name ∧
          is_Some (find_region_rows (deref vals) (seq 0 (length vals)) name).
Proof.
  intros Hne. unfold default_region, any.
  destruct (existsb _ _) eqn:E.
  - exists "dyn_run". split; [done|].
    apply existsb_exists in E as (r & Hr%list_elem_of_In & E).
    apply bool_decide_eq_true in E.
    destruct (find_region_rows _ _ _) eqn:F; [done|].
    apply find_region_rows_None in F. rewrite Forall_forall in F.
    by destruct (F r Hr).
  - destruct vals as [|v vals]; [done|]. simpl. eexists. split; [done|].
    unfold find_region_rows. simpl. by rewrite decide_True.
Qed.

Lemma load_optimized_cases h name text :
  (∃ h' warnings opt_map,
     load_optimized h name text = Ok (h', warnings, opt_map)) ∨
  load_optimized h name text = Raise (RuntimeError no_rows_msg) ∨
  load_optimized h name text = Raise ValueError.
Proof.
  unfold load_optimized. destruct text as [t|]; [|left; by eexists _, _, _].
  destruct (parse_esmf_summary t) as [ovals|e] eqn:Hp; simpl.
  - left. by eexists _, _, _.
  - right. destruct (parse_Raise_inv _ _ Hp) as [-> | ->]; auto.
Qed.

Lemma emit_rows_lengths h with_opt opt_map rs acc :
  emit_rows h with_opt opt_map empty_acc rs = Ok acc →
  length (base_means acc) = length (labels acc) ∧
  length (opt_means acc) = length (labels acc).
Proof.
  intros H.
  destruct (emit_rows_spec h with_opt opt_map rs empty_acc)
    as (acc' & H' & E1 & E2 & _ & _ & E5 & _).
  rewrite H in H'. injection H' as <-.
  rewrite E1, E2, E5. simpl. by rewrite !length_map.
Qed.

(** X3: a run of [main] of [run-cam/timing.py] returns, or stops with one
    of its three errors: no row parsed in one of the files, an integer
    field that [int] refuses (more than 4300 digits) in one of the files,
    or the requested region not found in the baseline. *)
Lemma main_outcomes args :
  (∃ out, main args = Ok out) ∨
  main args = Raise (RuntimeError no_rows_msg) ∨
  main args = Raise ValueError ∨
  ∃ name vals,
    arg_region args = Some name ∧
    parse_esmf_summary (arg_summary args) = Ok vals ∧
    Forall (λ r, region r ≠ name) vals ∧
    main args
    = Raise (SystemExit
               (not_found_msg name
                  (region_examples vals (seq 0 (length vals))))).
Proof.
  unfold main.
  destruct (parse_esmf_summary (arg_summary args)) as [vals|e] eqn:Hp; simpl.
  2: { right. destruct (parse_Raise_inv _ _ Hp) as [-> | ->]; auto. }
  apply RunCam_parse_Ok_inv in Hp as Hne. destruct Hne as [_ Hne].
  assert (∃ name, match arg_region args with
                  | Some n => Ok n
                  | None => default_region vals (seq 0 (length vals))
                  end = Ok name ∧
                  (is_Some (find_region_rows (deref vals)
                              (seq 0 (length vals)) name) ∨
                   arg_region args = Some name)) as (name & -> & Hfound).
  { destruct (arg_region args) as [n|]; [by eauto|].
    destruct (default_region_found vals Hne) as (name & ? & ?). eauto. }
  simpl.
  destruct (find_region_rows (deref vals) (seq 0 (length vals)) name)
    as [[parent pidx]|] eqn:Hfind.
  2: { right; right; right. destruct Hfound as [[? [=]]|Hreg].
       exists name, vals. split_and!; [done..| |done].
       apply find_region_rows_None in Hfind. apply Forall_forall.
       intros r [i Hi]%list_elem_of_lookup_1.
       rewrite Forall_forall in Hfind. specialize (Hfind i).
       rewrite (deref_lookup _ _ _ Hi) in Hfind. apply Hfind.
       apply elem_of_seq. apply lookup_lt_Some in Hi. lia. }
  pose proof (find_region_rows_spec (deref vals) (seq 0 (length vals)) name)
    as Hspec.
  rewrite Hfind in Hspec. destruct Hspec as (Hpidx & _).
  destruct (collect_children_spec (deref vals) _ _ _ Hpidx)
    as (children & -> & _). simpl.
  destruct children as [|c children]; [left; by eexists|].
  destruct (share_loop_spec (Mean (deref vals parent)) (c :: children) vals)
    as (h1 & -> & _). simpl.
  destruct (load_optimized_cases h1 name (arg_optimized_summary args))
    as [(h2 & warnings & opt_map & ->)|[-> | ->]];
    [|by right; left|by right; right; left]. simpl.
  match goal with
  | |- context [emit_rows ?h ?w ?m ?a ?rs] =>
      destruct (emit_rows_spec h w m rs a) as (acc & Hemit & _);
      pose proof (emit_rows_lengths _ _ _ _ _ Hemit) as [L1 L2];
      rewrite Hemit
  end. simpl.
  destruct (arg_png args && _).
  - destruct (annotations_total acc L1 L2) as [l ->]. simpl. left. by eexists.
  - simpl. left. by eexists.
Qed.
End main_failures.

Section main_store.
Import RunCam.

Lemma collect_children_range {A} (row_of : A → Row) rows p out :
  collect_children row_of rows p = Ok out → out ⊆ rows.
Proof.
  unfold collect_children. destruct (rows !! p) as [parent|] eqn:Hp; [|done].
  intros H.
  destruct (collect_children_spec row_of rows p parent Hp)
    as (out' & H' & Heq & _).
  unfold collect_children in H'. rewrite Hp, H in H'. injection H' as <-.
  intros x Hx. rewrite Heq in Hx. by eapply subseteq_drop, subseteq_take.
Qed.

Lemma with_pct_parsed_fields v r : parsed_fields (with_pct v r) = parsed_fields r.
Proof. done. Qed.

(** What a run that reports leaves in the store: the rows of the
    baseline, those of the children with their share stored, followed by
    the untouched rows of the optimized file. *)
Lemma main_Reported_inv args h rep :
  main args = Ok (Reported h rep) →
  ∃ vals ovals children h1,
    parse_esmf_summary (arg_summary args) = Ok vals ∧
    optimized_rows args = Ok ovals ∧
    h = h1 ++ ovals ∧ length h1 = length vals ∧
    children ≠ [] ∧ Forall (λ c, c < length vals) children ∧
    (∃ pidx, collect_children (deref vals) (seq 0 (length vals)) pidx
             = Ok children) ∧
    (∀ i, i ∉ children → h1 !! i = vals !! i) ∧
    (∀ i r, i ∈ children → vals !! i = Some r →
            h1 !! i = Some (with_pct (share (rep_pmean rep) (Mean r)) r)) ∧
    rep_selected rep
    = slice_to (sorted (λ r, Mean (deref h1 r)) true children)
        (arg_top args) ∧
    rep_opt_map rep
    = match arg_optimized_summary args with
      | Some _ => build_region_map (deref h)
                    (seq (length vals) (length ovals))
      | None => ∅
      end ∧
    rep_warnings rep
    = match arg_optimized_summary args with
      | Some _ =>
          match find_region_rows (deref h)
                  (seq (length vals) (length ovals)) (rep_region rep) with
          | None => [not_found_warning (rep_region rep)]
          | Some _ => []
          end
      | None => []
      end ∧
    emit_rows h (bool_decide (is_Some (arg_optimized_summary args)))
      (rep_opt_map rep) empty_acc (rep_selected rep)
    = Ok (rep_acc rep).
Proof.
  intros (vals & name & parent & pidx & children & Hp & _ & _ & Hc & Hne & h1
          & Hs & Hname & Hpm & Hsel & Hload & Hemit & _)%main_inv.
  apply load_optimized_inv in Hload as (ovals & Ho & Hh & Hmap & Hwarn).
  destruct (share_loop_spec (Mean (deref vals parent)) children vals)
    as (h1' & Hs' & Hlen & Hout & Hin).
  rewrite Hs in Hs'. injection Hs' as <-.
  exists vals, ovals, children, h1. rewrite Hpm, Hname, <-Hh.
  rewrite Hlen in Hmap, Hwarn.
  split_and!; try done.
  - unfold optimized_rows. revert Ho.
    destruct (arg_optimized_summary args); [done|by intros ->].
  - apply collect_children_range in Hc. apply Forall_forall.
    intros c Hc'%Hc%elem_of_seq. lia.
  - by exists pidx.
Qed.

Lemma deref_app_l (h1 h2 : heap) i :
  i < length h1 → deref (h1 ++ h2) i = deref h1 i.
Proof. intros Hi. unfold deref. by rewrite lookup_total_app_l. Qed.
End main_store.

(** ** The sample of region names *)

Lemma length_remove_dups_le (l : list string) :
  length (remove_dups l) ≤ length l.
Proof.
  induction l as [|x l IH]; simpl; [done|].
  destruct (decide_rel elem_of x l); simpl; lia.
Qed.

Lemma sorted_set_spec l :
  length (sorted_set l) ≤ length l ∧ NoDup (sorted_set l) ∧
  ∀ x, x ∈ sorted_set l ↔ x ∈ l.
Proof.
  unfold sorted_set.
  pose proof (stable_sort_Permutation String.ltb (remove_dups l)) as Hp.
  split_and!.
  - rewrite Hp. apply length_remove_dups_le.
  - rewrite Hp. apply NoDup_remove_dups.
  - intros x. by rewrite Hp, elem_of_remove_dups.
Qed.

Lemma map_deref_seq (h : list RunCam.Row) :
  map (RunCam.deref h) (seq 0 (length h)) = h.
Proof.
  change (map (RunCam.deref h) (seq 0 (length h)))
    with (RunCam.deref h <$> seq 0 (length h)).
  apply list_eq. intros i. rewrite list_lookup_fmap.
  destruct (h !! i) as [r|] eqn:Hi.
  - rewrite lookup_seq_lt by by eapply lookup_lt_Some. simpl.
    by rewrite (deref_lookup _ _ _ Hi).
  - rewrite lookup_ge_None_2; [done|]. rewrite length_seq.
    by apply lookup_ge_None.
Qed.

Lemma region_examples_spec (vals : list RunCam.Row) :
  let examples := RunCam.region_examples vals (seq 0 (length vals)) in
  length examples ≤ 30 ∧ NoDup examples ∧
  ∀ n, n ∈ examples ↔ ∃ r, r ∈ take 30 vals ∧ RunCam.region r = n.
Proof.
  intros examples. unfold examples, RunCam.region_examples.
  rewrite slice_to_nonneg by lia. change (Z.to_nat 30) with 30.
  assert (map (λ r, RunCam.region (RunCam.deref vals r))
            (take 30 (seq 0 (length vals)))
          = map RunCam.region (take 30 vals)) as ->.
  { rewrite <-(map_map (RunCam.deref vals) RunCam.region).
    by rewrite <-firstn_map, map_deref_seq. }
  destruct (sorted_set_spec (map RunCam.region (take 30 vals)))
    as (Hlen & Hnd & Hin).
  split_and!; [|done|].
  - etrans; [exact Hlen|]. rewrite length_map, length_take. lia.
  - intros n. rewrite Hin, list_elem_of_In, in_map_iff.
    split; intros (r & ? & ?); exists r; by rewrite ?list_elem_of_In in *.
Qed.

(** ** The properties of the specification *)

(** C1, in [timing/timing.py]: a document none of whose lines matches the
    pattern is not refused. [parse_esmf_summary] of [run-cam/timing.py]
    raises its error on the example; the one of [timing/timing.py] returns
    the empty list. It does so on every document without a matching line:
    it never fails, and its list is empty exactly when no line matches. *)
Theorem timing_parse_accepts_unrecognized_document :
  Forall (λ line, ¬ matches line) (splitlines example_not_a_summary) ∧
  RunCam.parse_esmf_summary example_not_a_summary
  = Raise (RuntimeError RunCam.no_rows_msg) ∧
  Timing.parse_esmf_summary example_not_a_summary = Ok [] ∧
  ∀ text, ∃ rows,
    Timing.parse_esmf_summary text = Ok rows ∧
    (rows = [] ↔ Forall (λ line, ¬ matches line) (splitlines text)).
Proof.
  split_and!.
  - apply (bool_decide_unpack _). by vm_compute.
  - by vm_compute.
  - by vm_compute.
  - intros text. eexists. split; [apply Timing_parse_esmf_summary_spec|].
    apply omap_matches_nil.
Qed.

(** C2, in [timing/timing.py]: a timer of the baseline that the optimized
    document lacks stops [main] with a [KeyError]; no row is produced. The
    baseline has a row for both timers, with the mean between the minimum
    and the maximum, and the optimized document has a row for [advance]
    only. *)
Theorem timing_main_missing_counterpart :
  Timing.main (timing_args (Some example_optimized)) = Raise (KeyError "remap").
Proof. by vm_compute. Qed.

Lemma map_eq_Forall2 {A B C} (f : A → C) (g : B → C) l k :
  map f l = map g k → Forall2 (λ a b, f a = g b) l k.
Proof.
  revert k. induction l as [|a l IH]; intros [|b k]; simpl; try done.
  intros [= ? ?]. constructor; auto.
Qed.

(** X2: in [run-cam/timing.py] the loop over the selected children does
    not fail and yields one CSV row, one label and one entry of [opt_means]
    per child, in the order of the children; a child whose name the
    optimized map lacks gets a row without optimized columns and the entry
    [None]. *)
Lemma run_cam_alignment_keeps_rows h opt_map (selected : list RunCam.ref) :
  ∃ acc, RunCam.emit_rows h true opt_map RunCam.empty_acc selected = Ok acc ∧
    map RunCam.csv_region (RunCam.csv_rows acc)
    = map (λ r, RunCam.region (RunCam.deref h r)) selected ∧
    RunCam.labels acc = map (λ r, RunCam.region (RunCam.deref h r)) selected ∧
    ∀ i r, selected !! i = Some r →
           opt_map !! RunCam.region (RunCam.deref h r) = None →
           RunCam.opt_means acc !! i = Some None ∧
           ∃ row, RunCam.csv_rows acc !! i = Some row ∧
                  RunCam.csv_region row = RunCam.region (RunCam.deref h r) ∧
                  RunCam.optimized row = None.
Proof.
  destruct (emit_rows_spec h true opt_map selected RunCam.empty_acc)
    as (acc & Hemit & E1 & _ & _ & _ & E5 & (rows & E6 & E7 & _ & E9) & _).
  cbn [RunCam.empty_acc RunCam.labels RunCam.csv_rows RunCam.opt_means app]
    in E1, E5, E6.
  subst rows. exists acc. split_and!; [done..|].
  intros i r Hi Hnone.
  assert (counterpart h true opt_map r = None) as Hc.
  { unfold counterpart. by rewrite Hnone. }
  split.
  - rewrite E5. change map with (@fmap list _).
    rewrite list_lookup_fmap, Hi. cbn [fmap option_fmap option_map].
    by rewrite Hc.
  - apply map_eq_Forall2 in E7, E9.
    destruct (Forall2_lookup_r _ _ _ _ _ E7 Hi) as (row & Hrow & Hreg).
    destruct (Forall2_lookup_r _ _ _ _ _ E9 Hi) as (row' & Hrow' & Hopt).
    assert (row' = row) as -> by congruence.
    exists row. split_and!; [done..|]. rewrite Hc in Hopt.
    by destruct (RunCam.optimized row).
Qed.

(** C4: the children of the row at a valid position [p]: the rows that
    follow it, up to the first one that is not indented deeper. The result
    is a run of the sequence starting right behind [p], each of its rows is
    indented deeper than the parent, and the row behind the run, when there
    is one, is not; so no longer run of deeper rows starts behind [p]. An
    empty run is a result like any other. *)
Theorem collect_children_maximal_run {A} (row_of : A → RunCam.Row)
    (rows : list A) (p : nat) (parent : A) :
  rows !! p = Some parent →
  ∃ out,
    RunCam.collect_children row_of rows p = Ok out ∧
    out = take (length out) (drop (S p) rows) ∧
    Forall (λ r, RunCam.indent (row_of parent) < RunCam.indent (row_of r)) out ∧
    (∀ r, rows !! (S p + length out) = Some r →
          RunCam.indent (row_of r) ≤ RunCam.indent (row_of parent)) ∧
    ∀ k, k ≤ length (drop (S p) rows) →
         Forall (λ r, RunCam.indent (row_of parent) < RunCam.indent (row_of r))
           (take k (drop (S p) rows)) →
         k ≤ length out.
Proof.
  intros Hp.
  destruct (collect_children_spec row_of rows p parent Hp)
    as (out & Hc & Hrun & Hall & Hnext).
  exists out. split_and!; [done..|].
  intros k Hlen Hk. destruct (decide (k ≤ length out)) as [|Hgt]; [done|].
  destruct (lookup_lt_is_Some_2 (drop (S p) rows) (length out)) as [r Hr];
    [lia|].
  assert (take k (drop (S p) rows) !! length out = Some r) as Hin
    by by rewrite lookup_take_lt by lia.
  rewrite Forall_lookup in Hk. specialize (Hk _ _ Hin). simpl in Hk.
  rewrite lookup_drop in Hr. specialize (Hnext _ Hr). lia.
Qed.

(** C5: the map from names to rows has at most as many entries as there
    are rows, and under each name it holds the last row of that name (no
    entry when no row has the name). *)
Theorem build_region_map_last_wins {A} (row_of : A → RunCam.Row)
    (rows : list A) :
  size (RunCam.build_region_map row_of rows) ≤ length rows ∧
  ∀ name,
    RunCam.build_region_map row_of rows !! name
    = last (filter (λ r, RunCam.region (row_of r) = name) rows).
Proof.
  split; [apply build_region_map_size|].
  intros name. apply build_region_map_lookup.
Qed.

(** C8, as stated, fails on the example: after the run the row of
    [advance] in the sequence of the baseline is no longer the parsed
    one. *)
Lemma rows_are_mutated :
  RunCam.parse_esmf_summary example_summary = Ok example_rows ∧
  ∃ h rep, RunCam.main (run_cam_args "dyn_run" None) = Ok (RunCam.Reported h rep) ∧
           RunCam.pct_of_parent <$> example_rows !! 1 = Some None ∧
           RunCam.pct_of_parent <$> h !! 1 = Some (Some 60%float) ∧
           h !! 1 ≠ example_rows !! 1.
Proof.
  split; [by vm_compute|]. eexists _, _. split; [by vm_compute|].
  split_and!; [done|done|]. intros H.
  apply (f_equal (fmap RunCam.pct_of_parent)) in H. by vm_compute in H.
Qed.

(** C10: the extents of the error bar of each selected child are
    [max(0.0, mean - min)] and [max(0.0, max - mean)], and none is below
    zero, whatever the three times of the row are. *)
Theorem error_bars_are_clamped args h rep :
  RunCam.main args = Ok (RunCam.Reported h rep) →
  RunCam.base_xerr_low (RunCam.rep_acc rep)
  = map (λ r, py_max 0 (RunCam.Mean (RunCam.deref h r)
                        - RunCam.Min (RunCam.deref h r)))
      (RunCam.rep_selected rep) ∧
  RunCam.base_xerr_high (RunCam.rep_acc rep)
  = map (λ r, py_max 0 (RunCam.Max (RunCam.deref h r)
                        - RunCam.Mean (RunCam.deref h r)))
      (RunCam.rep_selected rep) ∧
  Forall (λ v, (0 <=? v)%float = true)
    (RunCam.base_xerr_low (RunCam.rep_acc rep)
     ++ RunCam.base_xerr_high (RunCam.rep_acc rep)).
Proof.
  intros (vals & ovals & children & h1 & _ & _ & _ & _ & _ & _ & _ & _ & _
          & _ & _ & _ & Hemit)%main_Reported_inv.
  destruct (emit_rows_spec h
              (bool_decide (is_Some (RunCam.arg_optimized_summary args)))
              (RunCam.rep_opt_map rep)
              (RunCam.rep_selected rep) RunCam.empty_acc)
    as (acc & Hemit' & _ & _ & E3 & E4 & _).
  rewrite Hemit in Hemit'. injection Hemit' as <-.
  rewrite E3, E4. simpl. split_and!; [done..|].
  apply Forall_app. split; apply Forall_forall;
    intros v (r & <- & _)%list_elem_of_In%in_map_iff;
    apply py_max_zero_nonneg.
Qed.


(** C7, as stated, fails in [timing/timing.py]: with the threshold 0 two
    equal times get the label slower, though the delta is zero; and with
    the threshold 5 a baseline of 1 against an optimized time of 0 gets no
    label, though the delta is 100 percent. *)
Lemma labels_against_the_delta :
  (100 * (1 - 1) / 1 =? 0)%float = true ∧
  Timing.annotation 0 1 1 = Ok (Some (0%float, Timing.Slower)) ∧
  (5 <=? abs (100 * (1 - 0) / 1))%float = true ∧
  Timing.annotation 5 1 0 = Ok None.
Proof. split_and!; by vm_compute. Qed.

(** ** The theorems at work on the example *)

Lemma collect_children_maximal_run_witness :
  ∃ out,
    RunCam.collect_children id example_rows 0 = Ok out ∧
    out = take (length out) (drop 1 example_rows) ∧
    Forall (λ r, 0 < RunCam.indent (id r)) out ∧
    (∀ r, example_rows !! (1 + length out) = Some r →
          RunCam.indent (id r) ≤ 0) ∧
    ∀ k, k ≤ length (drop 1 example_rows) →
         Forall (λ r, 0 < RunCam.indent (id r)) (take k (drop 1 example_rows)) →
         k ≤ length out.
Proof.
  exact (collect_children_maximal_run id example_rows 0 _ eq_refl).
Defined.

Lemma label_direction_by_times_witness :
  Timing.annotation 5 10 9 = Ok (Some (10%float, Timing.Faster)) ∧
  RunCam.annotation 9 10
  = Ok (Some ((1 / 9 * 100)%float, RunCam.Slower)).
Proof.
  destruct (label_direction_by_times 5 10 9 eq_refl) as [[H1 _] _].
  destruct (label_direction_by_times 5 9 10 eq_refl) as [_ [H2 _]].
  destruct (H1 eq_refl eq_refl) as (-> & _).
  destruct (H2 eq_refl eq_refl) as (-> & _).
  split; by vm_compute.
Defined.

Lemma error_bars_are_clamped_witness :
  ∃ h rep,
    RunCam.main (run_cam_args "dyn_run" None) = Ok (RunCam.Reported h rep) ∧
    RunCam.base_xerr_low (RunCam.rep_acc rep) = [0%float; 1%float] ∧
    RunCam.base_xerr_low (RunCam.rep_acc rep)
    = map (λ r, py_max 0 (RunCam.Mean (RunCam.deref h r)
                          - RunCam.Min (RunCam.deref h r)))
        (RunCam.rep_selected rep) ∧
    RunCam.base_xerr_high (RunCam.rep_acc rep)
    = map (λ r, py_max 0 (RunCam.Max (RunCam.deref h r)
                          - RunCam.Mean (RunCam.deref h r)))
        (RunCam.rep_selected rep) ∧
    Forall (λ v, (0 <=? v)%float = true)
      (RunCam.base_xerr_low (RunCam.rep_acc rep)
       ++ RunCam.base_xerr_high (RunCam.rep_acc rep)).
Proof.
  eexists _, _. split; [by vm_compute|]. split; [by vm_compute|].
  apply (error_bars_are_clamped (run_cam_args "dyn_run" None)).
  by vm_compute.
Defined.


(** ** What the ranking leaves out *)

Lemma slice_to_take {A} (l : list A) (n : Z) :
  slice_to l n
  = take (if (0 <=? n)%Z then Z.to_nat n `min` length l
          else length l - Z.to_nat (- n)) l.
Proof.
  unfold slice_to. destruct (0 <=? n)%Z eqn:E.
  - destruct (decide (Z.to_nat n ≤ length l)).
    + by rewrite Nat.min_l.
    + rewrite Nat.min_r by lia. rewrite !take_ge; [done|lia..].
  - f_equal. apply Z.leb_gt in E. lia.
Qed.

(** X5: the children that the ranking leaves out are the ones with the
    smallest means. For a count [n] that is not negative the ranking has
    the first [min(n, len)] rows of the sorted children; for a negative
    [n] (the slice [[:n]] of Python) it has all but the last [min(-n, len)]
    of them. In both cases the rows left out follow the ranking in the
    sorted list, nothing is lost or doubled by the sort, and no row left
    out has a larger mean than a row of the ranking. *)
Theorem ranking_leaves_out_the_smallest text vals
    (children : list RunCam.Row) (n : Z) :
  RunCam.parse_esmf_summary text = Ok vals → children ⊆ vals →
  let ranking := slice_to (sorted RunCam.Mean true children) n in
  ∃ rest,
    sorted RunCam.Mean true children = ranking ++ rest ∧
    ranking ++ rest ≡ₚ children ∧
    length ranking = (if (0 <=? n)%Z then Z.to_nat n `min` length children
                      else length children - Z.to_nat (- n)) ∧
    ∀ a b, a ∈ ranking → b ∈ rest →
           (RunCam.Mean b <=? RunCam.Mean a)%float = true.
Proof.
  intros Hparse Hsub ranking.
  assert (Forall (λ r, number (RunCam.Mean r)) children) as Hnum.
  { apply RunCam_parsed_numbers in Hparse. rewrite Forall_forall in Hparse.
    apply Forall_forall. intros r Hr. apply Hparse, Hsub, Hr. }
  pose proof (sorted_reverse_Permutation RunCam.Mean children) as Hperm.
  pose proof (sorted_reverse_desc RunCam.Mean children Hnum) as Hdesc.
  unfold ranking. rewrite slice_to_take.
  set (full := sorted RunCam.Mean true children) in *.
  assert (length full = length children) as Hlen by by rewrite Hperm.
  rewrite Hlen.
  set (k := if (0 <=? n)%Z then _ else _).
  exists (drop k full). rewrite take_drop. split_and!; [done|done| |].
  - rewrite length_take, Hlen. unfold k. destruct (0 <=? n)%Z; lia.
  - intros a b Ha Hb. rewrite <-(take_drop k full) in Hdesc.
    apply StronglySorted_app in Hdesc as (Hab & _). by apply Hab.
Qed.

(** ** Nested runs of children *)

Section nesting.
Context {A : Type} (row_of : A → RunCam.Row).

(** X6: the runs of children are nested. A row collected under a parent
    has its own children collected under that parent too: its run starts
    behind it and ends inside the run of the parent. So the run of a region
    holds all its descendants, not only the rows one level deeper. *)
Theorem collect_children_nested (rows : list A) (p j : nat) (out : list A) :
  RunCam.collect_children row_of rows p = Ok out →
  p < j ≤ p + length out →
  ∃ out',
    RunCam.collect_children row_of rows j = Ok out' ∧
    j + length out' ≤ p + length out ∧
    out' = take (length out') (drop (j - p) out).
Proof.
  intros Hc Hj.
  destruct (rows !! p) as [parent|] eqn:Hp;
    [|by unfold RunCam.collect_children in Hc; rewrite Hp in Hc].
  destruct (collect_children_spec row_of rows p parent Hp)
    as (out0 & Hc0 & Hrun & Hall & Hnext).
  rewrite Hc in Hc0. injection Hc0 as <-.
  apply lookup_lt_Some in Hp as Hplt.
  set (n := length out) in *.
  assert (S p + n ≤ length rows) as Hn.
  { unfold n. rewrite Hrun, length_take, length_drop. lia. }
  destruct (lookup_lt_is_Some_2 rows j) as [c Hcj]; [lia|].
  assert (out !! (j - S p) = Some c) as Hout.
  { rewrite Hrun, lookup_take_lt, lookup_drop by lia.
    by replace (S p + (j - S p)) with j by lia. }
  assert (RunCam.indent (row_of parent) < RunCam.indent (row_of c)) as Hdeep.
  { rewrite Forall_lookup in Hall. by apply (Hall _ _ Hout). }
  destruct (collect_children_spec row_of rows j c Hcj)
    as (out' & Hc' & Hrun' & Hall' & Hnext').
  apply lookup_lt_Some in Hcj as Hjlt.
  set (n' := length out') in *.
  assert (S j + n' ≤ length rows) as Hn'.
  { unfold n'. rewrite Hrun', length_take, length_drop. lia. }
  assert (j + n' ≤ p + n) as Hle.
  { destruct (decide (j + n' ≤ p + n)) as [|Hgt]; [done|exfalso].
    destruct (lookup_lt_is_Some_2 rows (S p + n)) as [r Hr]; [lia|].
    specialize (Hnext r Hr).
    assert (out' !! (S p + n - S j) = Some r) as Hr'.
    { rewrite Hrun', lookup_take_lt, lookup_drop by lia.
      by replace (S j + (S p + n - S j)) with (S p + n) by lia. }
    rewrite Forall_lookup in Hall'. specialize (Hall' _ _ Hr'). simpl in *.
    lia. }
  exists out'. split_and!; [done|done|].
  rewrite Hrun' at 1. rewrite Hrun. fold n n'. apply list_eq. intros i.
  destruct (decide (i < n')).
  - rewrite !lookup_take_lt, !lookup_drop, lookup_take_lt, lookup_drop by lia.
    f_equal. lia.
  - by rewrite !lookup_take_ge by lia.
Qed.
End nesting.

(** ** Lookup by scan and lookup in the registry *)

Section find_and_map.
Context {A : Type} (row_of : A → RunCam.Row).

Lemma last_filter_Some (P : A → Prop) `{!∀ a, Decision (P a)} l r :
  last (filter P l) = Some r → r ∈ l ∧ P r.
Proof.
  intros Hl. apply last_Some in Hl as [l' Hl].
  assert (r ∈ filter P l) as Hr by (rewrite Hl; set_solver).
  by apply list_elem_of_filter in Hr as [? ?].
Qed.

(** X7: the scan [find_region_rows] and the registry [build_region_map]
    know the same names: one finds a row of a name exactly when the other
    has an entry for it, and the entry is a row of that name. When no two
    rows share a name, both give the same row; otherwise the scan gives
    the first row of the name and the registry the last. *)
Theorem find_region_rows_and_build_region_map (rows : list A) name :
  (RunCam.find_region_rows row_of rows name = None
   ↔ RunCam.build_region_map row_of rows !! name = None) ∧
  (∀ r', RunCam.build_region_map row_of rows !! name = Some r' →
         r' ∈ rows ∧ RunCam.region (row_of r') = name) ∧
  (∀ r i, RunCam.find_region_rows row_of rows name = Some (r, i) →
          NoDup (map (λ r, RunCam.region (row_of r)) rows) →
          RunCam.build_region_map row_of rows !! name = Some r).
Proof.
  split_and!.
  - rewrite find_region_rows_None, build_region_map_lookup, last_None.
    split.
    + intros H. by apply filter_none.
    + intros H. apply Forall_forall. intros r Hr Hn.
      assert (r ∈ filter (λ r, RunCam.region (row_of r) = name) rows) as Hin
        by by apply list_elem_of_filter.
      rewrite H in Hin. by apply elem_of_nil in Hin.
  - intros r'. rewrite build_region_map_lookup.
    intros [? ?]%last_filter_Some. done.
  - intros r i Hfind Hnd.
    pose proof (find_region_rows_spec row_of rows name) as Hspec.
    rewrite Hfind in Hspec. destruct Hspec as (Hi & Hr & _).
    destruct (RunCam.build_region_map row_of rows !! name) as [r'|] eqn:Hm.
    2: { rewrite build_region_map_lookup, last_None in Hm.
         assert (r ∈ filter (λ r, RunCam.region (row_of r) = name) rows) as Hin.
         { apply list_elem_of_filter. split; [done|].
           by eapply list_elem_of_lookup_2. }
         rewrite Hm in Hin. by apply elem_of_nil in Hin. }
    rewrite build_region_map_lookup in Hm.
    apply last_filter_Some in Hm as [[j Hj]%list_elem_of_lookup_1 Hr'].
    f_equal. assert (i = j) as ->; [|congruence].
    change (map ?f rows) with (f <$> rows) in Hnd.
    eapply NoDup_lookup; [exact Hnd|..]; rewrite list_lookup_fmap.
    + by rewrite Hi.
    + rewrite Hj. simpl. by rewrite Hr, Hr'.
Qed.
End find_and_map.

(** ** The cases of a run of [main] in [run-cam/timing.py] *)

Section main_cases.
Import RunCam.

Lemma main_tail args vals name parent pidx children :
  parse_esmf_summary (arg_summary args) = Ok vals →
  match arg_region args with
  | Some n => Ok n
  | None => default_region vals (seq 0 (length vals))
  end = Ok name →
  find_region_rows (deref vals) (seq 0 (length vals)) name
  = Some (parent, pidx) →
  collect_children (deref vals) (seq 0 (length vals)) pidx = Ok children →
  match children with
  | [] => main args = Ok (NoChildren vals name)
  | _ :: _ =>
      match optimized_rows args with
      | Ok _ => ∃ h rep, main args = Ok (Reported h rep)
      | Raise e => main args = Raise e
      end
  end.
Proof.
  intros Hp Hn Hf Hc. unfold main. rewrite Hp. simpl.
  rewrite Hn. simpl. rewrite Hf, Hc. simpl.
  destruct children as [|c children]; [done|].
  destruct (share_loop_spec (Mean (deref vals parent)) (c :: children) vals)
    as (h1 & -> & _). simpl.
  unfold optimized_rows, load_optimized.
  destruct (arg_optimized_summary args) as [t|]; simpl.
  - destruct (parse_esmf_summary t) as [ovals|e] eqn:Ho; simpl.
    2: { done. }
    match goal with
    | |- context [emit_rows ?h ?w ?m ?a ?rs] =>
        destruct (emit_rows_spec h w m rs a) as (acc & Hemit & _);
        pose proof (emit_rows_lengths _ _ _ _ _ Hemit) as [L1 L2];
        rewrite Hemit
    end. simpl.
    destruct (arg_png args); simpl; [|by eexists _, _].
    destruct (annotations_total acc L1 L2) as [l ->]. simpl. by eexists _, _.
  - match goal with
    | |- context [emit_rows ?h ?w ?m ?a ?rs] =>
        destruct (emit_rows_spec h w m rs a) as (acc & Hemit & _);
        rewrite Hemit
    end. simpl. rewrite andb_false_r. simpl. by eexists _, _.
Qed.

Lemma default_region_value (vals : heap) name :
  default_region vals (seq 0 (length vals)) = Ok name →
  name = if bool_decide (Exists (λ r, region r = "dyn_run") vals)
         then "dyn_run" else default EmptyString (region <$> head vals).
Proof.
  unfold default_region, any.
  assert (existsb (λ r, bool_decide (region (deref vals r) = "dyn_run"))
            (seq 0 (length vals))
          = bool_decide (Exists (λ r, region r = "dyn_run") vals)) as ->.
  { apply eq_true_iff_eq. rewrite existsb_exists, bool_decide_eq_true.
    rewrite Exists_exists. split.
    - intros (i & Hi%list_elem_of_In%elem_of_seq & E).
      apply bool_decide_eq_true in E.
      destruct (lookup_lt_is_Some_2 vals i) as [r Hr]; [lia|].
      rewrite (deref_lookup _ _ _ Hr) in E.
      exists r. split; [by eapply list_elem_of_lookup_2|done].
    - intros (r & [i Hi]%list_elem_of_lookup_1 & E). exists i. split.
      + apply list_elem_of_In, elem_of_seq. apply lookup_lt_Some in Hi. lia.
      + apply bool_decide_eq_true. by rewrite (deref_lookup _ _ _ Hi). }
  destruct (bool_decide _); [by intros [= <-]|].
  destruct vals as [|v vals]; [done|]. by intros [= <-].
Qed.

(** X8: a run without [--region]. The region is [dyn_run] when a row of
    the baseline has that name, and the name of the first row otherwise;
    it is always found, so that the run does not stop with the message
    about a region that is not in the baseline: it returns, or a file has
    no row, or a file has an integer field that [int] refuses (more than
    4300 digits). *)
Theorem main_default_region args :
  arg_region args = None →
  main args = Raise (RuntimeError no_rows_msg) ∨
  main args = Raise ValueError ∨
  ∃ vals out,
    parse_esmf_summary (arg_summary args) = Ok vals ∧
    main args = Ok out ∧
    match out with
    | NoChildren _ name | Reported _ {| rep_region := name |} =>
        name = if bool_decide (Exists (λ r, region r = "dyn_run") vals)
               then "dyn_run" else default EmptyString (region <$> head vals)
    end.
Proof.
  intros Hreg.
  destruct (parse_esmf_summary (arg_summary args)) as [vals|e] eqn:Hp.
  2: { unfold main. rewrite Hp. simpl.
       destruct (parse_Raise_inv _ _ Hp) as [-> | ->]; auto. }
  apply RunCam_parse_Ok_inv in Hp as Hne. destruct Hne as [_ Hne].
  destruct (default_region_found vals Hne) as (name & Hname & [[parent pidx] Hfind]).
  pose proof (find_region_rows_spec (deref vals) (seq 0 (length vals)) name)
    as Hspec.
  rewrite Hfind in Hspec. destruct Hspec as (Hpidx & _).
  destruct (collect_children_spec (deref vals) _ _ _ Hpidx)
    as (children & Hc & _).
  assert (match arg_region args with
          | Some n => Ok n
          | None => default_region vals (seq 0 (length vals))
          end = Ok name) as Hres by by rewrite Hreg.
  pose proof (main_tail args vals name parent pidx children Hp Hres Hfind Hc)
    as Htail.
  apply default_region_value in Hname.
  destruct children as [|c children].
  - right; right. exists vals, (NoChildren vals name). done.
  - destruct (optimized_rows args) as [ovals|e] eqn:Ho.
    2: { unfold optimized_rows in Ho.
         destruct (arg_optimized_summary args) as [t|]; [|done].
         rewrite Htail. destruct (parse_Raise_inv _ _ Ho) as [-> | ->]; auto. }
    destruct Htail as (h & rep & Hmain). right; right.
    exists vals, (Reported h rep).
    split_and!; [done..|].
    apply main_inv in Hmain
      as (vals' & name' & ? & ? & ? & Hp' & Hn' & _ & _ & _ & h1 & _ & Hr & _).
    rewrite Hp in Hp'. injection Hp' as <-. rewrite Hreg in Hn'.
    apply default_region_value in Hn'. destruct rep. simpl in *. congruence.
Qed.

(** The scan over the references finds the position that the scan over
    the rows finds. *)
Lemma find_region_rows_refs (vals : heap) name parent p :
  find_region_rows id vals name = Some (parent, p) →
  vals !! p = Some parent ∧
  find_region_rows (deref vals) (seq 0 (length vals)) name = Some (p, p).
Proof.
  intros Hfind.
  pose proof (find_region_rows_spec id vals name) as Hspec.
  rewrite Hfind in Hspec. destruct Hspec as (Hpar & Hname & Hfirst).
  split; [done|].
  pose proof (find_region_rows_spec (deref vals) (seq 0 (length vals)) name)
    as Hspec.
  apply lookup_lt_Some in Hpar as Hlt.
  destruct (find_region_rows (deref vals) _ _) as [[r i]|];
    cbv beta iota in Hspec.
  - destruct Hspec as (Hi & Hr & Hmin).
    apply (proj1 (lookup_seq _ _ _ _)) in Hi as [-> Hi]. simpl in *.
    destruct (lookup_lt_is_Some_2 vals i) as [row Hrow]; [done|].
    rewrite (deref_lookup _ _ _ Hrow) in Hr.
    destruct (Nat.lt_trichotomy i p) as [Hlt'|[->|Hgt]]; [|done|].
    + by destruct (Hfirst i row Hlt' Hrow).
    + destruct (Hmin p p Hgt); [by apply lookup_seq|].
      by rewrite (deref_lookup _ _ _ Hpar).
  - rewrite Forall_forall in Hspec. destruct (Hspec p).
    + apply elem_of_seq. lia.
    + by rewrite (deref_lookup _ _ _ Hpar).
Qed.

(** X9: a region without children. When the row behind the region is not
    indented deeper than the region (or the region is the last row), the
    run returns with the message that there are no children: no row of the
    baseline is changed and the optimized file is not read, so that a file
    without any row goes unnoticed there. *)
Theorem main_region_without_children args name vals p parent :
  arg_region args = Some name →
  parse_esmf_summary (arg_summary args) = Ok vals →
  find_region_rows id vals name = Some (parent, p) →
  (∀ r, vals !! S p = Some r → indent r ≤ indent parent) →
  main args = Ok (NoChildren vals name).
Proof.
  intros Hreg Hp Hfind Hnext.
  destruct (find_region_rows_refs _ _ _ _ Hfind) as [Hpar Hfind'].
  assert (seq 0 (length vals) !! p = Some p) as Hpidx.
  { apply lookup_seq. split; [done|]. by eapply lookup_lt_Some. }
  destruct (collect_children_spec (deref vals) _ _ _ Hpidx)
    as (children & Hc & Hrun & Hall & _).
  assert (children = []) as ->.
  { destruct children as [|c children]; [done|exfalso].
    apply Forall_cons in Hall as [Hdeep _].
    assert (seq 0 (length vals) !! S p = Some c) as Hc'.
    { assert ((c :: children) !! 0 = Some c) as H0 by done.
      rewrite Hrun, lookup_take_lt, lookup_drop in H0 by (simpl; lia).
      by rewrite Nat.add_0_r in H0. }
    apply (proj1 (lookup_seq _ _ _ _)) in Hc' as [-> Hlt]. simpl in *.
    destruct (lookup_lt_is_Some_2 vals (S p)) as [row Hrow]; [done|].
    specialize (Hnext row Hrow).
    rewrite (deref_lookup _ _ _ Hrow), (deref_lookup _ _ _ Hpar) in Hdeep.
    lia. }
  apply (main_tail args vals name p p []); [done|by rewrite Hreg|done|done].
Qed.

(** X18: an optimized file without any row of the table. When the
    region is in the baseline and has a child, such a file stops the run
    with the error of the parser, as a baseline without rows does. *)
Theorem main_unrecognized_optimized args name vals p parent child t :
  arg_region args = Some name →
  parse_esmf_summary (arg_summary args) = Ok vals →
  find_region_rows id vals name = Some (parent, p) →
  vals !! S p = Some child → indent parent < indent child →
  arg_optimized_summary args = Some t →
  Forall (λ line, ¬ matches line) (splitlines t) →
  main args = Raise (RuntimeError no_rows_msg).
Proof.
  intros Hreg Hp Hfind Hchild Hdeep Hopt Hnone.
  destruct (find_region_rows_refs _ _ _ _ Hfind) as [Hpar Hfind'].
  assert (seq 0 (length vals) !! p = Some p) as Hpidx.
  { apply lookup_seq. split; [done|]. by eapply lookup_lt_Some. }
  destruct (collect_children_spec (deref vals) _ _ _ Hpidx)
    as (children & Hc & Hrun & _ & Hnext).
  assert (children ≠ []) as Hne.
  { intros ->. simpl in Hnext.
    apply lookup_lt_Some in Hchild as Hlt.
    specialize (Hnext (S p)). rewrite Nat.add_0_r in Hnext.
    rewrite (deref_lookup _ _ _ Hchild), (deref_lookup _ _ _ Hpar) in Hnext.
    assert (indent child ≤ indent parent); [|lia].
    apply Hnext, lookup_seq. split; [done|lia]. }
  pose proof (main_tail args vals name p p children Hp) as Htail.
  rewrite Hreg in Htail. specialize (Htail eq_refl Hfind' Hc).
  destruct children as [|c children]; [done|].
  unfold optimized_rows in Htail. rewrite Hopt in Htail.
  rewrite RunCam_parse_cases in Htail. cbv zeta in Htail.
  rewrite (proj2 (matches_omap_nil (splitlines t)) Hnone) in Htail.
  by rewrite decide_True in Htail by constructor.
Qed.
End main_cases.

(** ** What a run of [main] hands to the CSV file and to the plot *)

Section main_output.
Import RunCam.

Lemma emit_row_csv h with_opt opt_map acc r :
  ∃ acc', emit_row h with_opt opt_map acc r = Ok acc' ∧
    csv_rows acc' = csv_rows acc
                    ++ [csv_row_of (deref h r) (counterpart h with_opt opt_map r)] ∧
    (if with_opt
     then ∃ line, table acc' = table acc ++ [line] ∧
                  t_name line = substring_to 40 (region (deref h r))
     else table acc' = table acc).
Proof.
  unfold emit_row, counterpart, csv_row_of.
  destruct with_opt; [destruct (opt_map !! region (deref h r)) as [o|]|].
  - destruct (ratio_values 0 0 (Mean (deref h r)) (Mean (deref h o)))
      as [_ ->]. simpl.
    eexists. split; [done|]. simpl. split; [done|]. by eexists.
  - simpl. eexists. split; [done|]. simpl. split; [done|]. by eexists.
  - simpl. eexists. split; [done|]. simpl. by rewrite app_nil_r.
Qed.

Lemma emit_rows_csv h with_opt opt_map rs acc :
  ∃ acc', emit_rows h with_opt opt_map acc rs = Ok acc' ∧
    csv_rows acc' = csv_rows acc
      ++ map (λ r, csv_row_of (deref h r) (counterpart h with_opt opt_map r)) rs ∧
    (if with_opt
     then ∃ lines, table acc' = table acc ++ lines ∧
                   map t_name lines
                   = map (λ r, substring_to 40 (region (deref h r))) rs
     else table acc' = table acc).
Proof.
  revert acc. induction rs as [|r rs IH]; intros acc; simpl.
  { eexists. split; [done|]. rewrite app_nil_r. split; [done|].
    destruct with_opt; [|done]. exists []. by rewrite app_nil_r. }
  destruct (emit_row_csv h with_opt opt_map acc r) as (acc1 & -> & E1 & E2).
  simpl. destruct (IH acc1) as (acc' & -> & F1 & F2).
  eexists. split; [done|]. rewrite F1, E1, <-app_assoc. split; [done|].
  destruct with_opt.
  - destruct E2 as (line & E2 & E3), F2 as (lines & F2 & F3).
    exists (line :: lines). rewrite F2, E2, <-app_assoc. simpl.
    by rewrite E3, F3.
  - by rewrite F2, E2.
Qed.

Lemma last_filter_fmap {A B} (f : A → B) (P : B → Prop)
    `{!∀ b, Decision (P b)} (l : list A) :
  last (filter P (f <$> l)) = f <$> last (filter (λ a, P (f a)) l).
Proof.
  induction l as [|a l IH] using rev_ind; [done|].
  rewrite fmap_app, !filter_app, !last_app. simpl.
  rewrite (filter_cons _ (f a)), (filter_cons _ a). simpl.
  destruct (decide (P (f a))); simpl; [done|]. exact IH.
Qed.

Lemma fmap_deref_seq_app (h1 ovals : heap) :
  deref (h1 ++ ovals) <$> seq (length h1) (length ovals) = ovals.
Proof.
  apply list_eq. intros i. rewrite list_lookup_fmap.
  destruct (ovals !! i) as [o|] eqn:Hi.
  - rewrite lookup_seq_lt by by eapply lookup_lt_Some. simpl. f_equal.
    apply deref_lookup. rewrite lookup_app_r by lia.
    by replace (length h1 + i - length h1) with i by lia.
  - rewrite lookup_seq_ge; [done|]. by apply lookup_ge_None.
Qed.

(** In a run that reports: the counterpart of a selected child is the
    last row of its name in the optimized file, and the child has the
    fields it was parsed with. *)
Lemma main_Reported_rows args h rep vals ovals :
  main args = Ok (Reported h rep) →
  parse_esmf_summary (arg_summary args) = Ok vals →
  optimized_rows args = Ok ovals →
  Forall (λ r,
            parsed_fields (deref h r) = parsed_fields (deref vals r) ∧
            counterpart h (bool_decide (is_Some (arg_optimized_summary args)))
              (rep_opt_map rep) r
            = last_named (region (deref vals r)) ovals)
    (rep_selected rep).
Proof.
  intros (vals' & ovals' & children & h1 & Hp & Ho & -> & Hlen & _ & Hrange
          & _ & Hout & Hin & Hsel & Hmap & _)%main_Reported_inv Hp' Ho'.
  rewrite Hp' in Hp. injection Hp as <-.
  rewrite Ho' in Ho. injection Ho as <-.
  apply Forall_forall. intros r Hr.
  assert (parsed_fields (deref (h1 ++ ovals) r) = parsed_fields (deref vals r))
    as Hfields.
  { assert (r ∈ children) as Hc.
    { rewrite Hsel in Hr. unfold slice_to in Hr.
      destruct (0 <=? arg_top args)%Z;
        apply subseteq_take in Hr;
        by rewrite sorted_reverse_Permutation in Hr. }
    rewrite Forall_forall in Hrange. specialize (Hrange r Hc).
    destruct (lookup_lt_is_Some_2 vals r) as [row Hrow]; [done|].
    rewrite deref_app_l by lia.
    rewrite (deref_lookup _ _ _ (Hin r row Hc Hrow)).
    by rewrite (deref_lookup _ _ _ Hrow). }
  split; [done|].
  assert (region (deref (h1 ++ ovals) r) = region (deref vals r)) as Hname
    by by injection Hfields.
  unfold counterpart, last_named. rewrite Hmap, Hname.
  unfold optimized_rows in Ho'.
  destruct (arg_optimized_summary args) as [t|].
  - rewrite bool_decide_eq_true_2 by done.
    rewrite build_region_map_lookup, <-Hlen.
    rewrite <-(fmap_deref_seq_app h1 ovals) at 3.
    by rewrite last_filter_fmap.
  - injection Ho' as <-. by rewrite bool_decide_eq_false_2 by by intros [? ?].
Qed.

Lemma csv_row_of_fields base base' o :
  parsed_fields base = parsed_fields base' → csv_row_of base o = csv_row_of base' o.
Proof. unfold parsed_fields, csv_row_of. by intros [= _ -> -> -> -> -> -> _ -> _]. Qed.

(** X10: the rows of the CSV file. A run that reports writes one row per
    selected child, in the order of the ranking, with the times and counts
    the child was parsed with. The optimized columns of the row are those
    of the last row of the same name in the optimized file, wherever that
    row stands there (inside the region or not), with the speedup
    [base_mean / opt_mean], left empty for an optimized mean of zero; a
    child whose name the optimized file lacks has no optimized columns.
    The vectors of the plot hold, per selected child, its name, its mean
    and the optimized mean ([None] for a child without counterpart, and
    [0.0] for every child when no optimized file is given). The table on
    the terminal has a line per selected child, its name cut
    to 40 characters, when an optimized file is given, and no line for any
    child when none is given. *)
Theorem main_csv_rows args h rep vals ovals :
  main args = Ok (Reported h rep) →
  parse_esmf_summary (arg_summary args) = Ok vals →
  optimized_rows args = Ok ovals →
  csv_rows (rep_acc rep)
  = map (λ r, csv_row_of (deref vals r)
                (last_named (region (deref vals r)) ovals))
      (rep_selected rep) ∧
  map t_name (table (rep_acc rep))
  = match arg_optimized_summary args with
    | Some _ =>
        map (λ r, substring_to 40 (region (deref vals r))) (rep_selected rep)
    | None => []
    end ∧
  labels (rep_acc rep) = map (λ r, region (deref vals r)) (rep_selected rep) ∧
  base_means (rep_acc rep) = map (λ r, Mean (deref vals r)) (rep_selected rep) ∧
  opt_means (rep_acc rep)
  = map (λ r, match arg_optimized_summary args with
              | Some _ => Mean <$> last_named (region (deref vals r)) ovals
              | None => Some 0%float
              end) (rep_selected rep).
Proof.
  intros Hmain Hp Ho.
  pose proof (main_Reported_rows _ _ _ _ _ Hmain Hp Ho) as Hrows.
  apply main_Reported_inv in Hmain as (? & ? & ? & ? & _ & _ & _ & _ & _ & _
    & _ & _ & _ & _ & _ & _ & Hemit).
  destruct (emit_rows_csv h (bool_decide (is_Some (arg_optimized_summary args)))
              (rep_opt_map rep) (rep_selected rep) empty_acc)
    as (acc & Hemit' & Hcsv & Htable).
  rewrite Hemit in Hemit'. injection Hemit' as <-. simpl in Hcsv, Htable.
  destruct (emit_rows_spec h (bool_decide (is_Some (arg_optimized_summary args)))
              (rep_opt_map rep) (rep_selected rep) empty_acc)
    as (acc & Hemit' & E1 & E2 & _ & _ & E5 & _).
  rewrite Hemit in Hemit'. injection Hemit' as <-.
  cbn [empty_acc labels base_means opt_means app] in E1, E2, E5.
  split_and!.
  - rewrite Hcsv. apply map_ext_Forall. eapply Forall_impl; [exact Hrows|].
    intros r [Hf ->]. by apply csv_row_of_fields.
  - destruct (arg_optimized_summary args) as [t|].
    + rewrite bool_decide_eq_true_2 in Htable by done.
      destruct Htable as (lines & -> & ->).
      apply map_ext_Forall. eapply Forall_impl; [exact Hrows|].
      intros r [[= _ -> _] _]. done.
    + rewrite bool_decide_eq_false_2 in Htable by by intros [? ?].
      by rewrite Htable.
  - rewrite E1. apply map_ext_Forall. eapply Forall_impl; [exact Hrows|].
    intros r [[= _ -> _] _]. done.
  - rewrite E2. apply map_ext_Forall. eapply Forall_impl; [exact Hrows|].
    intros r [[= _ _ _ _ _ -> _] _]. done.
  - rewrite E5. apply map_ext_Forall. eapply Forall_impl; [exact Hrows|].
    intros r [_ ->].
    destruct (arg_optimized_summary args); [|done].
    by rewrite bool_decide_eq_true_2 by done.
Qed.
End main_output.

(** ** The labels of the plot *)

Section main_notes.
Import RunCam.

Lemma index_from_lookup (l : list string) x k i :
  index_from k l x = Some i → ∃ j, i = k + j ∧ l !! j = Some x.
Proof.
  revert k. induction l as [|y l IH]; intros k; simpl; [done|].
  destruct (decide (y = x)) as [->|Hne].
  - intros [= <-]. exists 0. split; [lia|done].
  - intros (j & -> & Hj)%IH. exists (S j). split; [lia|done].
Qed.

Lemma mapM_fmap_Ok {A B C} (f : B → result C) (name : A → B) (g : A → C) l :
  Forall (λ x, f (name x) = Ok (g x)) l →
  mapM f (name <$> l) = Ok (g <$> l).
Proof.
  induction 1 as [|x l Hx _ IH]; [done|].
  change (mapM f (name <$> x :: l))
    with (y ← f (name x); k ← mapM f (name <$> l); mret (y :: k)).
  rewrite Hx. simpl. by rewrite IH.
Qed.

Section loops.
Context {X : Type} (name : X → string) (base : X → float)
  (opt : X → option float).

Local Abbreviation optv := (λ x, default nan (opt x)).
Local Abbreviation note := (λ x,
  match annotation (base x) (optv x) with
  | Ok (Some t) => Some (name x, t)
  | _ => None
  end).

Lemma opt_val_for_fmap (sel : list X) x :
  (∀ y z, y ∈ sel → z ∈ sel → name y = name z → opt y = opt z) →
  x ∈ sel →
  opt_val_for (name <$> sel) (opt <$> sel) (name x) = Ok (optv x).
Proof.
  intros Hname Hx. unfold opt_val_for.
  destruct (index_from_elem (name <$> sel) (name x) 0) as (i & Hi & _).
  { by apply list_elem_of_fmap_2. }
  rewrite Hi. simpl.
  apply index_from_lookup in Hi as (j & Hj & Hl).
  assert (i = j) as -> by lia.
  rewrite list_lookup_fmap in Hl.
  destruct (sel !! j) as [y|] eqn:Hy; [|done]. injection Hl as Hl.
  rewrite list_lookup_fmap, Hy. simpl.
  rewrite (Hname y x); [by destruct (opt x)|by eapply list_elem_of_lookup_2|done..].
Qed.

Lemma annotate_loop_fmap (pre suf : list X) :
  annotate_loop (base <$> pre ++ suf) (optv <$> pre ++ suf) (length pre)
    (name <$> suf)
  = Ok (omap note suf).
Proof.
  revert pre. induction suf as [|x suf IH]; intros pre; [done|].
  specialize (IH (pre ++ [x])). rewrite <-app_assoc, length_app in IH.
  simpl in IH. rewrite Nat.add_1_r in IH.
  rewrite fmap_cons. cbn [annotate_loop].
  rewrite !list_lookup_fmap, !list_lookup_middle by done. rewrite IH. simpl.
  destruct (annotation_total (base x) (optv x)) as [a Ha]. rewrite Ha. simpl.
  by destruct a.
Qed.

Lemma annotations_fmap (sel : list X) acc :
  (∀ y z, y ∈ sel → z ∈ sel → name y = name z → opt y = opt z) →
  labels acc = name <$> sel → base_means acc = base <$> sel →
  opt_means acc = opt <$> sel →
  annotations acc = Ok (omap note (reverse sel)).
Proof.
  intros Hname Hl Hb Ho. unfold annotations. rewrite Hl, Hb, Ho.
  rewrite <-!fmap_reverse.
  rewrite (mapM_fmap_Ok _ name optv).
  2: { apply Forall_forall. intros x Hx. rewrite elem_of_reverse in Hx.
       by apply opt_val_for_fmap. }
  simpl. apply (annotate_loop_fmap [] (reverse sel)).
Qed.
End loops.

Lemma omap_ext_in {A B} (f g : A → option B) (l : list A) :
  (∀ x, x ∈ l → f x = g x) → omap f l = omap g l.
Proof.
  induction l as [|x l IH]; intros H; [done|].
  change (omap ?h (x :: l))
    with (match h x with Some y => y :: omap h l | None => omap h l end).
  rewrite (H x) by left. rewrite IH; [done|].
  intros y Hy. apply H. by right.
Qed.

Lemma annotation_nan base_val : annotation base_val nan = Ok None.
Proof. done. Qed.

(** X11: the labels of the plot. A run that reports computes them when
    a PNG file and an optimized file are both asked for, and only then.
    There is one candidate per selected child, in the order of the bars
    (the ranking reversed); the child is labelled by the comparison of its
    mean with the mean of the last row of its name in the optimized file,
    and a child whose name that file lacks gets no label. The lookup of the
    optimized value by [labels.index] gives each bar the value of its own
    child also when two children share a name. *)
Theorem main_annotations args h rep vals ovals :
  main args = Ok (Reported h rep) →
  parse_esmf_summary (arg_summary args) = Ok vals →
  optimized_rows args = Ok ovals →
  rep_annotations rep
  = if arg_png args && bool_decide (is_Some (arg_optimized_summary args))
    then Some (omap (λ r, note_of (deref vals r)
                            (last_named (region (deref vals r)) ovals))
                 (reverse (rep_selected rep)))
    else None.
Proof.
  intros Hmain Hp Ho.
  pose proof (main_Reported_rows _ _ _ _ _ Hmain Hp Ho) as Hrows.
  apply main_inv in Hmain as (? & ? & ? & ? & ? & _ & _ & _ & _ & _ & ?
    & _ & _ & _ & _ & _ & Hemit & Hnotes).
  destruct (arg_png args && bool_decide (is_Some (arg_optimized_summary args)))
    eqn:E; [|by injection Hnotes].
  apply andb_true_iff in E as [_ E]. rewrite E in Hemit, Hrows.
  destruct (emit_rows_spec h true (rep_opt_map rep) (rep_selected rep) empty_acc)
    as (acc & Hemit' & E1 & E2 & _ & _ & E5 & _).
  rewrite Hemit in Hemit'. injection Hemit' as <-. simpl in E1, E2, E5.
  rewrite (annotations_fmap (λ r, region (deref h r)) (λ r, Mean (deref h r))
             (λ r, Mean <$> counterpart h true (rep_opt_map rep) r)
             (rep_selected rep)) in Hnotes; [|by unfold counterpart; intros ????->|done..].
  injection Hnotes as <-. f_equal. rewrite Forall_forall in Hrows.
  apply omap_ext_in. intros r Hr. rewrite elem_of_reverse in Hr.
  destruct (Hrows r Hr) as [[= _ Hname _ _ _ Hmean _] Hc].
  unfold counterpart in Hc. rewrite Hc, Hname, Hmean.
  by destruct (last_named (region (deref vals r)) ovals).
Qed.
End main_notes.

(** ** The claims about runs of [main] in [run-cam/timing.py] *)

Section main_claims.
Import RunCam.

Lemma collect_children_seq (vals : heap) pidx children :
  collect_children (deref vals) (seq 0 (length vals)) pidx = Ok children →
  children = seq (S pidx) (length children) ∧
  S pidx + length children ≤ length vals.
Proof.
  intros Hc. unfold collect_children in Hc.
  destruct (seq 0 (length vals) !! pidx) as [parent|] eqn:Hp; [|done].
  destruct (collect_children_spec (deref vals) _ _ _ Hp)
    as (out & Hc' & Hrun & _).
  unfold collect_children in Hc'. rewrite Hp, Hc in Hc'. injection Hc' as <-.
  apply (proj1 (lookup_seq _ _ _ _)) in Hp as [_ Hlt].
  rewrite drop_seq, take_seq in Hrun. simpl in Hrun.
  assert (length children = length children `min` (length vals - S pidx))
    as Hlen by (rewrite Hrun at 1; by rewrite length_seq).
  split; [|lia]. rewrite Hrun at 1. f_equal. lia.
Qed.

(** A run that reports: the region, its children by their positions, and
    the store, in which exactly the rows of the children have got their
    share. *)
Lemma main_Reported_children args h rep :
  main args = Ok (Reported h rep) →
  ∃ vals ovals parent pidx children h1,
    parse_esmf_summary (arg_summary args) = Ok vals ∧
    optimized_rows args = Ok ovals ∧
    match arg_region args with
    | Some n => Ok n
    | None => default_region vals (seq 0 (length vals))
    end = Ok (rep_region rep) ∧
    find_region_rows (deref vals) (seq 0 (length vals)) (rep_region rep)
    = Some (parent, pidx) ∧
    collect_children (deref vals) (seq 0 (length vals)) pidx = Ok children ∧
    children ≠ [] ∧
    rep_pmean rep = Mean (deref vals parent) ∧
    h = h1 ++ ovals ∧ length h1 = length vals ∧
    (∀ i r, vals !! i = Some r →
       h1 !! i = Some (if decide (i ∈ children)
                       then with_pct (share (rep_pmean rep) (Mean r)) r
                       else r)) ∧
    rep_selected rep
    = slice_to (sorted (λ r, Mean (deref vals r)) true children)
        (arg_top args).
Proof.
  intros (vals & name & parent & pidx & children & Hp & Hn & Hf & Hc & Hne & h1
          & Hs & Hname & Hpm & Hsel & Hload & _)%main_inv.
  apply load_optimized_inv in Hload as (ovals & Ho & Hh & _).
  destruct (share_loop_spec (Mean (deref vals parent)) children vals)
    as (h1' & Hs' & Hlen & Hout & Hin).
  rewrite Hs in Hs'. injection Hs' as <-.
  assert (∀ i r, vals !! i = Some r →
            h1 !! i = Some (if decide (i ∈ children)
                            then with_pct (share (rep_pmean rep) (Mean r)) r
                            else r)) as Hstore.
  { intros i r Hi. rewrite Hpm. destruct (decide (i ∈ children)) as [Hc'|Hc'].
    - by apply Hin.
    - by rewrite Hout. }
  exists vals, ovals, parent, pidx, children, h1. rewrite Hname.
  split_and!; try done.
  - unfold optimized_rows. revert Ho.
    destruct (arg_optimized_summary args); [done|by intros ->].
  - destruct (arg_region args); [by subst|done].
  - rewrite Hsel. f_equal. apply sorted_ext. intros r Hr.
    apply collect_children_range in Hc. apply Hc, elem_of_seq in Hr.
    destruct (lookup_lt_is_Some_2 vals r) as [row Hrow]; [lia|].
    rewrite (deref_lookup _ _ _ (Hstore r row Hrow)), (deref_lookup _ _ _ Hrow).
    by destruct (decide _).
Qed.

(** C3: the ranking in a run of [main]. Whatever the children of the
    region are (there is at least one, or the run ends before the ranking)
    and whatever the count [--top], if it is not negative: the run
    reports, and its selected children are
    [sorted(children, key=mean, reverse=True)[:top]]. There are
    [min(top, len(children))] of them, so fewer children than [top] are no
    error; their means descend; they are children; and the children of one
    mean stand among them as they stand in the document (they are the
    first of them). The only way the run can still stop is an optimized
    file that cannot be parsed. *)
Theorem ranking_of_parsed_children args vals name parent pidx children :
  parse_esmf_summary (arg_summary args) = Ok vals →
  match arg_region args with
  | Some n => Ok n
  | None => default_region vals (seq 0 (length vals))
  end = Ok name →
  find_region_rows (deref vals) (seq 0 (length vals)) name
  = Some (parent, pidx) →
  collect_children (deref vals) (seq 0 (length vals)) pidx = Ok children →
  children ≠ [] →
  (∃ ovals, optimized_rows args = Ok ovals) →
  (0 ≤ arg_top args)%Z →
  let key := λ r, Mean (deref vals r) in
  ∃ h rep,
    main args = Ok (Reported h rep) ∧
    rep_selected rep = slice_to (sorted key true children) (arg_top args) ∧
    length (rep_selected rep)
    = Z.to_nat (arg_top args) `min` length children ∧
    StronglySorted (λ a b, (key b <=? key a)%float = true)
      (rep_selected rep) ∧
    rep_selected rep ⊆+ children ∧
    ∀ v, filter (λ r, (key r =? v)%float = true) (rep_selected rep)
         `prefix_of` filter (λ r, (key r =? v)%float = true) children.
Proof.
  intros Hp Hn Hf Hc Hne [ovals Ho] Htop key.
  pose proof (main_tail args vals name parent pidx children Hp Hn Hf Hc)
    as Htail.
  destruct children as [|c children']; [done|]. rewrite Ho in Htail.
  destruct Htail as (h & rep & Hmain). exists h, rep. split; [done|].
  apply main_Reported_children in Hmain
    as (vals' & ? & parent' & pidx' & children & ? & Hp' & _ & Hn' & Hf' & Hc'
        & _ & _ & _ & _ & _ & Hsel).
  rewrite Hp in Hp'. injection Hp' as <-.
  assert (rep_region rep = name) as Hname by congruence.
  rewrite Hname, Hf in Hf'. injection Hf' as <- <-.
  rewrite Hc in Hc'. injection Hc' as <-.
  fold key in Hsel. rewrite Hsel.
  split; [done|]. apply ranking_top_n; [|done].
  apply Forall_forall. intros r Hr. apply is_NaN_number. unfold key.
  apply collect_children_range in Hc. apply Hc, elem_of_seq in Hr.
  destruct (lookup_lt_is_Some_2 vals r) as [row Hrow]; [lia|].
  rewrite (deref_lookup _ _ _ Hrow).
  pose proof (RunCam_parsed_numbers _ _ Hp) as Hnum.
  rewrite Forall_forall in Hnum. by eapply Hnum, list_elem_of_lookup_2.
Qed.
(** The rows of the CSV file and the optimized means of a run that
    reports, from the parsed rows of the two files. *)
Lemma main_Reported_acc args h rep vals ovals :
  main args = Ok (Reported h rep) →
  parse_esmf_summary (arg_summary args) = Ok vals →
  optimized_rows args = Ok ovals →
  csv_rows (rep_acc rep)
  = map (λ r, csv_row_of (deref vals r)
                (last_named (region (deref vals r)) ovals))
      (rep_selected rep) ∧
  labels (rep_acc rep) = map (λ r, region (deref vals r)) (rep_selected rep) ∧
  opt_means (rep_acc rep)
  = map (λ r, match arg_optimized_summary args with
              | Some _ => Mean <$> last_named (region (deref vals r)) ovals
              | None => Some 0%float
              end) (rep_selected rep).
Proof.
  intros Hmain Hp Ho.
  pose proof (main_Reported_rows _ _ _ _ _ Hmain Hp Ho) as Hrows.
  apply main_Reported_inv in Hmain as (? & ? & ? & ? & _ & _ & _ & _ & _ & _
    & _ & _ & _ & _ & _ & _ & Hemit).
  destruct (emit_rows_csv h (bool_decide (is_Some (arg_optimized_summary args)))
              (rep_opt_map rep) (rep_selected rep) empty_acc)
    as (acc & Hemit' & Hcsv & _).
  rewrite Hemit in Hemit'. injection Hemit' as <-. simpl in Hcsv.
  destruct (emit_rows_spec h (bool_decide (is_Some (arg_optimized_summary args)))
              (rep_opt_map rep) (rep_selected rep) empty_acc)
    as (acc & Hemit' & E1 & _ & _ & _ & E5 & _).
  rewrite Hemit in Hemit'. injection Hemit' as <-.
  cbn [empty_acc labels opt_means app] in E1, E5.
  split_and!.
  - rewrite Hcsv. apply map_ext_Forall. eapply Forall_impl; [exact Hrows|].
    intros r [Hf ->]. by apply csv_row_of_fields.
  - rewrite E1. apply map_ext_Forall. eapply Forall_impl; [exact Hrows|].
    intros r [[= _ -> _] _]. done.
  - rewrite E5. apply map_ext_Forall. eapply Forall_impl; [exact Hrows|].
    intros r [_ ->].
    destruct (arg_optimized_summary args); [|done].
    by rewrite bool_decide_eq_true_2 by done.
Qed.

(** C6: the two ratios in a run of [main] that reports. Every child of
    the region, selected or not, has got its share of the parent stored:
    [100.0 * (mean / pmean)] of its mean and the mean of the region when
    that mean is above zero, and NaN otherwise. Every row of the CSV file
    that has a counterpart in the optimized file has the speedup
    [base_mean / opt_mean] when the optimized mean is above zero, and
    [None] otherwise. A denominator that is zero, negative or a NaN gives
    the sentinel, and neither of the two loops that compute the ratios
    ever raises. *)
Theorem ratios_have_sentinels args h rep :
  main args = Ok (Reported h rep) →
  ∃ vals ovals parent pidx children,
    parse_esmf_summary (arg_summary args) = Ok vals ∧
    optimized_rows args = Ok ovals ∧
    find_region_rows (deref vals) (seq 0 (length vals)) (rep_region rep)
    = Some (parent, pidx) ∧
    collect_children (deref vals) (seq 0 (length vals)) pidx = Ok children ∧
    let pmean := Mean (deref vals parent) in
    Forall (λ c, pct_of_parent (deref h c)
                 = Some (if 0 <? pmean
                         then 100 * (Mean (deref vals c) / pmean)
                         else nan)%float) children ∧
    Forall2 (λ r row,
               speedup <$> optimized row
               = (λ o, if 0 <? Mean o
                       then Some (Mean (deref vals r) / Mean o)
                       else None)%float
                 <$> last_named (region (deref vals r)) ovals)
      (rep_selected rep) (csv_rows (rep_acc rep)) ∧
    (∀ pm cs h0, ∃ h', share_loop pm cs h0 = Ok h') ∧
    (∀ h0 w m acc rs, ∃ acc', emit_rows h0 w m acc rs = Ok acc').
Proof.
  intros Hmain.
  destruct (main_Reported_children _ _ _ Hmain)
    as (vals & ovals & parent & pidx & children & h1 & Hp & Ho & _ & Hf & Hc
        & _ & Hpm & -> & Hlen & Hstore & _).
  exists vals, ovals, parent, pidx, children.
  split; [done|]. split; [done|]. split; [done|]. split; [done|]. cbv zeta.
  split; [|split; [|split]].
  - apply Forall_forall. intros c Hc'.
    apply collect_children_range in Hc.
    assert (c < length vals) as Hlt by (apply Hc, elem_of_seq in Hc'; lia).
    destruct (lookup_lt_is_Some_2 vals c) as [row Hrow]; [lia|].
    rewrite deref_app_l by lia.
    rewrite (deref_lookup _ _ _ (Hstore c row Hrow)), (deref_lookup _ _ _ Hrow).
    rewrite decide_True by done. simpl. by rewrite Hpm.
  - destruct (main_Reported_acc _ _ _ _ _ Hmain Hp Ho) as (-> & _).
    change (map ?f ?l) with (f <$> l). apply Forall2_fmap_r, Forall_Forall2_diag.
    apply Forall_forall. intros r _. unfold csv_row_of. simpl.
    by destruct (last_named _ _).
  - intros pm cs h0. destruct (share_loop_spec pm cs h0) as (h' & ? & _).
    by exists h'.
  - intros h0 w m acc rs. destruct (emit_rows_spec h0 w m rs acc) as (acc' & ? & _).
    by exists acc'.
Qed.

(** C8, as the code has it: a run that returns leaves every row of both
    documents with the fields it was parsed with. A run that finds no
    children leaves the rows of the baseline as they were parsed. In a run
    that reports, the rows of the optimized document, the ones the map of
    names refers to, are left as they were parsed. Of the rows of the
    baseline, the children of the region, which are the rows at the
    positions right behind the region, have got their share of the parent
    stored in them, one and all, and every other row is left as it was
    parsed. *)
Theorem rows_keep_parsed_fields args out :
  main args = Ok out →
  match out with
  | NoChildren h _ => parse_esmf_summary (arg_summary args) = Ok h
  | Reported h rep =>
      ∃ vals ovals parent pidx children,
        parse_esmf_summary (arg_summary args) = Ok vals ∧
        optimized_rows args = Ok ovals ∧
        find_region_rows (deref vals) (seq 0 (length vals)) (rep_region rep)
        = Some (parent, pidx) ∧
        collect_children (deref vals) (seq 0 (length vals)) pidx
        = Ok children ∧
        children = seq (S pidx) (length children) ∧
        length h = length vals + length ovals ∧
        (∀ i r, vals !! i = Some r →
           h !! i = Some (if decide (i ∈ children)
                          then with_pct (share (rep_pmean rep) (Mean r)) r
                          else r)) ∧
        (∀ i r r', vals !! i = Some r → h !! i = Some r' →
           parsed_fields r' = parsed_fields r) ∧
        (∀ j, h !! (length vals + j) = ovals !! j) ∧
        (∀ name o, rep_opt_map rep !! name = Some o →
           ∃ row, h !! o = Some row ∧ ovals !! (o - length vals) = Some row ∧
                  region row = name)
  end.
Proof.
  intros Hmain. destruct out as [h name|h rep].
  { apply main_inv in Hmain
      as (vals & ? & ? & ? & ? & Hp & _ & _ & _ & _ & -> & _). done. }
  destruct (main_Reported_children _ _ _ Hmain)
    as (vals & ovals & parent & pidx & children & h1 & Hp & Ho & _ & Hf & Hc
        & _ & _ & -> & Hlen & Hstore & _).
  apply main_Reported_inv in Hmain
    as (vals' & ovals' & ? & h1' & Hp' & Ho' & Hh & _ & _ & _ & _ & _ & _ & _
        & Hmap & _).
  rewrite Hp in Hp'. injection Hp' as <-.
  rewrite Ho in Ho'. injection Ho' as <-.
  assert (∀ i r, vals !! i = Some r →
            (h1 ++ ovals) !! i
            = Some (if decide (i ∈ children)
                    then with_pct (share (rep_pmean rep) (Mean r)) r
                    else r)) as Hstore'.
  { intros i r Hi. apply lookup_lt_Some in Hi as Hlt.
    rewrite lookup_app_l by lia. by apply Hstore. }
  exists vals, ovals, parent, pidx, children.
  split_and!; [done|done|done|done| | |done| | |].
  - by apply collect_children_seq in Hc as [? _].
  - by rewrite length_app, Hlen.
  - intros i r r' Hi Hi'. rewrite (Hstore' i r Hi) in Hi'. injection Hi' as <-.
    by destruct (decide _).
  - intros j. rewrite lookup_app_r by lia. f_equal. lia.
  - intros name o Hlook. rewrite Hmap in Hlook.
    destruct (arg_optimized_summary args); [|done].
    rewrite build_region_map_lookup in Hlook.
    apply last_Some_elem_of, list_elem_of_filter in Hlook as [Hreg Hseq].
    apply elem_of_seq in Hseq.
    assert (is_Some (ovals !! (o - length vals))) as [row Hrow].
    { apply lookup_lt_is_Some. lia. }
    assert ((h1 ++ ovals) !! o = Some row) as Hh'.
    { rewrite lookup_app_r by lia. by rewrite Hlen. }
    exists row. split_and!; [done..|].
    by rewrite (deref_lookup _ _ _ Hh') in Hreg.
Qed.

(** C9, in [run-cam/timing.py]: a region that the optimized document
    lacks is not fatal for that document. On the example the run warns
    that the overlay will be empty, and then takes the counterpart of
    [advance] from the very document. It is so on every run: when no row
    of the optimized document has the name of the region, a run that
    reports has the warning and aligns each selected child with the last
    row of its name in that document. In the baseline the same miss is
    fatal: the run stops with [SystemExit], and the message carries the
    names of the first 30 rows, each once. [find_region_rows] itself
    yields the first row of the name and its position, or nothing. *)
Theorem region_missing_in_optimized_is_not_fatal :
  (∃ ovals h rep,
     parse_esmf_summary example_optimized = Ok ovals ∧
     find_region_rows id ovals "dyn_run" = None ∧
     main (run_cam_args "dyn_run" (Some example_optimized))
     = Ok (Reported h rep) ∧
     rep_warnings rep = [not_found_warning "dyn_run"] ∧
     labels (rep_acc rep) = ["remap"; "advance"] ∧
     opt_means (rep_acc rep) = [None; Some 3%float]) ∧
  (∀ args h rep vals ovals,
     main args = Ok (Reported h rep) →
     parse_esmf_summary (arg_summary args) = Ok vals →
     is_Some (arg_optimized_summary args) →
     optimized_rows args = Ok ovals →
     Forall (λ r, region r ≠ rep_region rep) ovals →
     rep_warnings rep = [not_found_warning (rep_region rep)] ∧
     opt_means (rep_acc rep)
     = map (λ r, Mean <$> last_named (region (deref vals r)) ovals)
         (rep_selected rep)) ∧
  (∀ args name vals,
     arg_region args = Some name →
     parse_esmf_summary (arg_summary args) = Ok vals →
     Forall (λ r, region r ≠ name) vals →
     let examples := region_examples vals (seq 0 (length vals)) in
     main args = Raise (SystemExit (not_found_msg name examples)) ∧
     length examples ≤ 30 ∧ NoDup examples ∧
     ∀ n, n ∈ examples ↔ ∃ r, r ∈ take 30 vals ∧ region r = n) ∧
  (∀ (rows : list Row) name,
     match find_region_rows id rows name with
     | Some (r, i) =>
         rows !! i = Some r ∧ region r = name ∧
         ∀ j r', j < i → rows !! j = Some r' → region r' ≠ name
     | None => Forall (λ r, region r ≠ name) rows
     end).
Proof.
  split_and!.
  - eexists _, _, _. split_and!; by vm_compute.
  - intros args h rep vals ovals Hmain Hp [t Ht] Ho Hall.
    destruct (main_Reported_acc _ _ _ _ _ Hmain Hp Ho) as (_ & _ & ->).
    rewrite Ht. split; [|done].
    apply main_Reported_inv in Hmain
      as (vals' & ovals' & ? & h1 & Hp' & Ho' & -> & Hlen & _ & _ & _ & _ & _
          & _ & _ & -> & _).
    rewrite Hp in Hp'. injection Hp' as <-.
    rewrite Ho in Ho'. injection Ho' as <-. rewrite Ht.
    assert (find_region_rows (deref (h1 ++ ovals))
              (seq (length vals) (length ovals)) (rep_region rep) = None)
      as ->; [|done].
    apply find_region_rows_None, Forall_forall.
    intros i Hi%elem_of_seq. rewrite Forall_forall in Hall. apply Hall.
    destruct (lookup_lt_is_Some_2 ovals (i - length vals)) as [r Hr]; [lia|].
    assert ((h1 ++ ovals) !! i = Some r) as Hh
      by (rewrite lookup_app_r by lia; by rewrite Hlen).
    rewrite (deref_lookup _ _ _ Hh). by eapply list_elem_of_lookup_2.
  - intros args name vals Hreg Hp Hall examples.
    split; [|apply region_examples_spec].
    unfold main. rewrite Hp. simpl. rewrite Hreg. simpl.
    assert (find_region_rows (deref vals) (seq 0 (length vals)) name = None)
      as ->; [|done].
    apply find_region_rows_None, Forall_forall.
    intros i Hi%elem_of_seq. rewrite Forall_forall in Hall. apply Hall.
    destruct (lookup_lt_is_Some_2 vals i) as [r Hr]; [lia|].
    rewrite (deref_lookup _ _ _ Hr). by eapply list_elem_of_lookup_2.
  - intros rows name. apply (find_region_rows_spec id).
Qed.
End main_claims.

(** ** [timing/timing.py] *)

(** X12: the two scripts read the same rows off a document.
    [timing/timing.py] never fails: it returns the rows of the matching
    lines. Where [run-cam/timing.py] returns rows, they are the same rows,
    in the same order, with the same indentation, name and times; where it
    refuses the document for want of a matching line, [timing/timing.py]
    gets the empty list; and where it stops with the [ValueError] of [int]
    on an integer field of more than 4300 digits, [timing/timing.py],
    which converts no integer, still returns its rows. *)
Theorem parsers_agree text :
  let gs := omap (re_match pat) (splitlines text) in
  Timing.parse_esmf_summary text = Ok (Timing.make_row <$> gs) ∧
  match RunCam.parse_esmf_summary text with
  | Ok rows => Timing.make_row <$> gs = to_timing <$> rows
  | Raise e =>
      e = RuntimeError RunCam.no_rows_msg ∧ gs = [] ∨
      e = ValueError ∧ Exists (λ g, ¬ ints_accepted g) gs
  end.
Proof.
  intros gs. split.
  { unfold Timing.parse_esmf_summary, Timing.parse_lines.
    by rewrite parse_loop_omap, app_nil_l, omap_fmap_matches. }
  rewrite RunCam_parse_cases. cbv zeta. fold gs.
  destruct (decide (Forall ints_accepted gs)) as [Hacc|Hno].
  - destruct gs as [|g gs']; [by left|]. cbn [fmap list_fmap].
    change (Timing.make_row <$> g :: gs' = to_timing <$> (row_of_groups <$> g :: gs')).
    by rewrite <-list_fmap_compose.
  - right. split; [done|]. apply not_Forall_Exists; [|done]. apply _.
Qed.

Section timing_main.
Import Timing.

Lemma by_region_snoc rows r :
  by_region (rows ++ [r]) = <[region r := r]> (by_region rows).
Proof. unfold by_region. by rewrite foldl_app. Qed.

Lemma by_region_lookup rows name :
  by_region rows !! name = timing_last_named name rows.
Proof.
  unfold timing_last_named.
  induction rows as [|r rows IH] using rev_ind; [done|].
  rewrite by_region_snoc, filter_app, (filter_singleton _ r []).
  destruct (decide (region r = name)) as [<-|Hne].
  - by rewrite lookup_insert_eq, last_snoc.
  - rewrite lookup_insert_ne by done. by rewrite app_nil_r.
Qed.

Lemma named_lookup rows (timers : list string) name :
  by_region (extract_named_regions rows timers) !! name
  = if decide (name ∈ timers) then timing_last_named name rows else None.
Proof.
  rewrite by_region_lookup. unfold timing_last_named, extract_named_regions.
  rewrite list_filter_filter.
  destruct (decide (name ∈ timers)) as [Hin|Hout].
  - f_equal. apply list_filter_iff. intros r.
    split; [by intros [? _]|]. by intros <-.
  - rewrite (filter_none _ rows); [done|].
    apply Forall_forall. intros r _ [<- ?]. done.
Qed.

Lemma named_empty rows (timers : list string) :
  by_region (extract_named_regions rows timers) = ∅
  ↔ Forall (λ t, timing_last_named t rows = None) timers.
Proof.
  rewrite map_empty, Forall_forall. split.
  - intros H t Ht. specialize (H t). rewrite named_lookup in H.
    by rewrite decide_True in H.
  - intros H t. rewrite named_lookup. destruct (decide _); auto.
Qed.

(** The dict of the optimized file, as [main] builds it. *)
Lemma opt_data_lookup rows (timers : list string) :
  let d := match rows with
           | [] => ∅
           | _ => by_region (extract_named_regions rows timers)
           end in
  (∀ t, t ∈ timers → d !! t = timing_last_named t rows) ∧
  (d = ∅ ↔ Forall (λ t, timing_last_named t rows = None) timers).
Proof.
  destruct rows as [|r rows].
  - simpl. split; [done|]. split; [|done]. intros _. by apply Forall_forall.
  - cbv zeta. split; [|apply named_empty].
    intros t Ht. by rewrite named_lookup, decide_True.
Qed.

Lemma getitem_Some (d : gmap string Row) t r :
  d !! t = Some r → getitem d t = Ok r.
Proof. unfold getitem. by intros ->. Qed.

Lemma getitem_None (d : gmap string Row) t :
  d !! t = None → getitem d t = Raise (KeyError t).
Proof. unfold getitem. by intros ->. Qed.

Lemma mapM_getitem_Ok {B} (d : gmap string Row) (f : Row → B) timers rows :
  Forall2 (λ t r, d !! t = Some r) timers rows →
  mapM (λ t, row ← getitem d t; Ok (f row)) timers = Ok (f <$> rows).
Proof.
  induction 1 as [|t r timers rows Ht _ IH]; [done|].
  change (mapM ?g (t :: timers))
    with (y ← g t; k ← mapM g timers; mret (y :: k)).
  cbv beta. rewrite (getitem_Some _ _ _ Ht). simpl. by rewrite IH.
Qed.

Lemma mapM_getitem_KeyError {B} (d : gmap string Row) (f : Row → B)
    pre t post :
  Forall (λ t', is_Some (d !! t')) pre → d !! t = None →
  mapM (λ t, row ← getitem d t; Ok (f row)) (pre ++ t :: post)
  = Raise (KeyError t).
Proof.
  intros Hpre Ht. induction Hpre as [|t' pre [r Hr] _ IH].
  - change (mapM ?g ([] ++ t :: post))
      with (y ← g t; k ← mapM g post; mret (y :: k)).
    cbv beta. by rewrite (getitem_None _ _ Ht).
  - change (mapM ?g ((t' :: pre) ++ t :: post))
      with (y ← g t'; k ← mapM g (pre ++ t :: post); mret (y :: k)).
    cbv beta. rewrite (getitem_Some _ _ _ Hr). simpl. by rewrite IH.
Qed.

Lemma Forall_Some_Forall2 {A B} (f : A → option B) (l : list A) :
  Forall (λ a, is_Some (f a)) l → ∃ k, Forall2 (λ a b, f a = Some b) l k.
Proof.
  induction 1 as [|a l [b Hb] _ [k IH]]; [by exists []|].
  exists (b :: k). by constructor.
Qed.

Lemma bars_Ok (d : gmap string Row) timers rows :
  Forall2 (λ t r, d !! t = Some r) timers rows →
  bars d timers
  = Ok (Mean <$> rows, (λ r, Mean r - Min r)%float <$> rows,
        (λ r, Max r - Mean r)%float <$> rows).
Proof.
  intros H. unfold bars.
  rewrite (mapM_getitem_Ok d Mean timers rows H). simpl.
  rewrite (mapM_getitem_Ok d (λ r, Mean r - Min r)%float timers rows H). simpl.
  by rewrite (mapM_getitem_Ok d (λ r, Max r - Mean r)%float timers rows H).
Qed.

Lemma bars_KeyError (d : gmap string Row) pre t post :
  Forall (λ t', is_Some (d !! t')) pre → d !! t = None →
  bars d (pre ++ t :: post) = Raise (KeyError t).
Proof.
  intros Hpre Ht. unfold bars.
  by rewrite (mapM_getitem_KeyError d Mean pre t post Hpre Ht).
Qed.

Lemma bars_KeyError_eq (d : gmap string Row) timers pre t post :
  timers = pre ++ t :: post →
  Forall (λ t', is_Some (d !! t')) pre → d !! t = None →
  bars d timers = Raise (KeyError t).
Proof. intros ->. apply bars_KeyError. Qed.

Lemma timing_annotation_total thr b o : ∃ a, annotation thr b o = Ok a.
Proof.
  unfold annotation. destruct (0 <? b)%float eqn:E; simpl; [|by eexists].
  destruct (0 <? o)%float; simpl; [|by eexists].
  rewrite py_div_positive by done. simpl.
  destruct (_ <=? _)%float; by eexists.
Qed.

Lemma timing_annotate_loop_spec thr (bs os : list Row) labels i :
  i + length labels ≤ length bs → i + length labels ≤ length os →
  annotate_loop thr (Mean <$> bs) (Mean <$> os) i labels
  = Ok (omap (λ j, b ← bs !! j; o ← os !! j; timing_note thr j b o)
          (seq i (length labels))).
Proof.
  revert i. induction labels as [|lbl labels IH]; intros i Hb Ho; [done|].
  simpl in Hb, Ho. cbn [annotate_loop length seq].
  destruct (lookup_lt_is_Some_2 bs i) as [b Hbi]; [lia|].
  destruct (lookup_lt_is_Some_2 os i) as [o Hoi]; [lia|].
  rewrite !list_lookup_fmap, Hbi, Hoi, IH by lia. simpl.
  rewrite Hbi, Hoi. simpl. unfold timing_note.
  destruct (timing_annotation_total thr (Mean b) (Mean o)) as [a ->]. simpl.
  by destruct a.
Qed.

Lemma main_steps args :
  main args
  = let timers := arg_timers args in
    let base_rows := timing_rows (Some (arg_baseline args)) in
    let opt_rows := timing_rows (arg_optimized_summary args) in
    let base_data := by_region (extract_named_regions base_rows timers) in
    let opt_data := match opt_rows with
                    | [] => ∅
                    | _ => by_region (extract_named_regions opt_rows timers)
                    end in
    let y := length (labels_of args) in
    '(means, lows, highs) ← bars base_data timers;
    barh y means;;
    errorbar means y (Some (lows, highs));;
    errorbar means y None;;
    ov ← (if decide (opt_data = ∅) then Ok None
          else
            '(omeans, olows, ohighs) ← bars opt_data timers;
            errorbar omeans y (Some (olows, ohighs));;
            ns ← annotate_loop (arg_annotate_threshold args) means omeans 0
                   (labels_of args);
            Ok (Some {| opt_means := omeans; opt_lows := olows;
                        opt_highs := ohighs; notes := ns |}));
    Ok {| plot_labels := labels_of args; base_means := means;
          base_lows := lows; base_highs := highs; overlay := ov |}.
Proof.
  unfold main, parse_esmf_summary, timing_rows.
  by destruct (arg_optimized_summary args).
Qed.

Lemma existsb_refused (rows : list Row) :
  existsb refused (((λ r, Mean r - Min r)%float <$> rows)
                   ++ ((λ r, Max r - Mean r)%float <$> rows)) = false
  ↔ extents_accepted rows.
Proof.
  unfold extents_accepted. rewrite existsb_app, orb_false_iff.
  induction rows as [|r rows IH]; simpl.
  { split; [constructor|done]. }
  rewrite Forall_cons, !orb_false_iff. tauto.
Qed.

(** The baseline part of the drawing: it goes through when there is one
    tick label per timer and no extent is refused, and stops with a
    [ValueError] otherwise. *)
Lemma draw_accepted (rows : list Row) n :
  length rows = n → extents_accepted rows →
  (barh n (Mean <$> rows);;
   errorbar (Mean <$> rows) n
     (Some ((λ r, Mean r - Min r)%float <$> rows,
            (λ r, Max r - Mean r)%float <$> rows));;
   errorbar (Mean <$> rows) n None) = Ok ().
Proof.
  intros <- Hacc. unfold barh, errorbar. rewrite !length_fmap.
  destruct (decide (_ ∨ _)) as [_|H]; [|destruct H; by left]. simpl.
  destruct (decide (length rows = length rows)); [|done].
  by rewrite (proj2 (existsb_refused rows) Hacc).
Qed.

Lemma draw_refused {B} (rows : list Row) n (k : result B) :
  length rows ≠ n ∨ ¬ extents_accepted rows →
  (barh n (Mean <$> rows);;
   errorbar (Mean <$> rows) n
     (Some ((λ r, Mean r - Min r)%float <$> rows,
            (λ r, Max r - Mean r)%float <$> rows));;
   errorbar (Mean <$> rows) n None;; k) = Raise ValueError.
Proof.
  intros H. unfold barh, errorbar. rewrite !length_fmap.
  destruct (decide (n = length rows ∨ n = 1 ∨ length rows = 1)); [|done].
  simpl. destruct (decide (length rows = n)) as [Hn|Hn]; [|done].
  destruct H as [H|H]; [done|].
  destruct (existsb refused _) eqn:E; [done|].
  by apply existsb_refused in E.
Qed.

Lemma overlay_errorbar (orows : list Row) n :
  length orows = n →
  errorbar (Mean <$> orows) n
    (Some ((λ r, Mean r - Min r)%float <$> orows,
           (λ r, Max r - Mean r)%float <$> orows))
  = if decide (extents_accepted orows) then Ok () else Raise ValueError.
Proof.
  intros Hn. unfold errorbar. rewrite length_fmap.
  destruct (decide (length orows = n)); [|done].
  destruct (existsb refused _) eqn:E.
  - rewrite decide_False; [done|]. intros H%existsb_refused. congruence.
  - by rewrite decide_True by by apply existsb_refused.
Qed.

(** X13: when [main] of [timing/timing.py] stops with a [KeyError]. It
    does so on the first timer, in the order of [--timers], that has no
    row in the baseline; and, when every timer has a row in the baseline,
    there is one tick label per timer and no extent of a baseline error
    bar is negative (so that the baseline is drawn), on the first timer
    that has no row in the optimized file, provided that file has a row
    for some timer. *)
Theorem Timing_main_KeyError args pre t post :
  arg_timers args = pre ++ t :: post →
  let base_rows := timing_rows (Some (arg_baseline args)) in
  let opt_rows := timing_rows (arg_optimized_summary args) in
  (Forall (λ t', is_Some (timing_last_named t' base_rows)) pre →
   timing_last_named t base_rows = None →
   main args = Raise (KeyError t)) ∧
  (∀ rows,
     Forall2 (λ t' r, timing_last_named t' base_rows = Some r)
       (arg_timers args) rows →
     timing_labels_fit args → extents_accepted rows →
     Forall (λ t', is_Some (timing_last_named t' opt_rows)) pre →
     timing_last_named t opt_rows = None →
     Exists (λ t', is_Some (timing_last_named t' opt_rows)) (arg_timers args) →
     main args = Raise (KeyError t)).
Proof.
  intros Htimers base_rows opt_rows. rewrite main_steps. cbv zeta.
  fold base_rows opt_rows.
  assert (∀ rows t', t' ∈ arg_timers args →
            by_region (extract_named_regions rows (arg_timers args)) !! t'
            = timing_last_named t' rows) as Hlook.
  { intros rows t' Hin. by rewrite named_lookup, decide_True. }
  assert (∀ t', t' ∈ pre → t' ∈ arg_timers args) as Hin_pre.
  { intros t' Hin. rewrite Htimers. apply elem_of_app. by left. }
  assert (t ∈ arg_timers args) as Hin_t.
  { rewrite Htimers. apply elem_of_app. right. by left. }
  split.
  - intros Hpre Ht.
    rewrite (bars_KeyError_eq
               (by_region (extract_named_regions base_rows (arg_timers args)))
               (arg_timers args) pre t post Htimers); [done| |].
    + rewrite Forall_forall in Hpre. apply Forall_forall. intros t' Hin.
      rewrite Hlook by by apply Hin_pre. by apply Hpre.
    + by rewrite Hlook.
  - intros rows Hbase Hfit Hacc Hpre Ht Hex.
    assert (Forall2 (λ t' r, by_region (extract_named_regions base_rows
                                          (arg_timers args)) !! t' = Some r)
              (arg_timers args) rows) as Hrows.
    { apply Forall2_same_length_lookup. split; [by eapply Forall2_length|].
      intros i t' r Ht' Hr. rewrite Hlook by by eapply list_elem_of_lookup_2.
      exact (Forall2_lookup_lr _ _ _ _ _ _ Hbase Ht' Hr). }
    rewrite (bars_Ok _ _ _ Hrows). simpl.
    apply Forall2_length in Hbase as Hlen.
    assert (length rows = length (labels_of args)) as Hn
      by (unfold timing_labels_fit in Hfit; lia).
    pose proof (draw_accepted rows _ Hn Hacc) as Hdraw.
    destruct (barh _ _) as [[]|]; [|done]. simpl in Hdraw |- *.
    destruct (errorbar _ _ (Some _)) as [[]|]; [|done]. simpl in Hdraw |- *.
    rewrite Hdraw. simpl.
    destruct (opt_data_lookup opt_rows (arg_timers args)) as [Hd He].
    cbv zeta in Hd, He.
    rewrite decide_False.
    2: { rewrite He. intros Hall. apply Exists_exists in Hex as (t' & Hin & [r Hr]).
         rewrite Forall_forall in Hall. by rewrite (Hall t' Hin) in Hr. }
    rewrite (bars_KeyError_eq _ (arg_timers args) pre t post Htimers);
      [done| |].
    + rewrite Forall_forall in Hpre. apply Forall_forall. intros t' Hin.
      rewrite Hd by by apply Hin_pre. by apply Hpre.
    + by rewrite Hd.
Qed.

(** X14: what [main] of [timing/timing.py] plots when every timer has a
    row in the baseline. The plotting library stops the run with a
    [ValueError] unless there is one tick label per timer and no extent
    [mean - min] or [max - mean] of a baseline row is negative. Otherwise
    each bar shows the last row of its timer in the baseline. When the
    optimized file has no row for any timer (or is not given, or has no
    row at all), the overlay is left out without a word; when it has a row
    for every timer, the overlay shows the last row of each timer and the
    bar at position [j] is labelled by the comparison of the two means,
    unless an extent of the overlay is negative, which again is a
    [ValueError]. *)
Theorem Timing_main_plot args rows :
  let timers := arg_timers args in
  let base_rows := timing_rows (Some (arg_baseline args)) in
  let opt_rows := timing_rows (arg_optimized_summary args) in
  Forall2 (λ t r, timing_last_named t base_rows = Some r) timers rows →
  let plot ov := {|
    plot_labels := labels_of args;
    base_means := Mean <$> rows;
    base_lows := (λ r, Mean r - Min r)%float <$> rows;
    base_highs := (λ r, Max r - Mean r)%float <$> rows;
    overlay := ov |} in
  (¬ timing_labels_fit args ∨ ¬ extents_accepted rows →
   main args = Raise ValueError) ∧
  (timing_labels_fit args → extents_accepted rows →
   (Forall (λ t, timing_last_named t opt_rows = None) timers →
    main args = Ok (plot None)) ∧
   (∀ orows,
      timers ≠ [] →
      Forall2 (λ t r, timing_last_named t opt_rows = Some r) timers orows →
      main args
      = if decide (extents_accepted orows) then
          Ok (plot (Some {|
            opt_means := Mean <$> orows;
            opt_lows := (λ r, Mean r - Min r)%float <$> orows;
            opt_highs := (λ r, Max r - Mean r)%float <$> orows;
            notes := omap (λ j, b ← rows !! j; o ← orows !! j;
                             timing_note (arg_annotate_threshold args) j b o)
                       (seq 0 (length timers)) |}))
        else Raise ValueError)).
Proof.
  intros timers base_rows opt_rows Hrows plot.
  rewrite main_steps. cbv zeta. fold timers base_rows opt_rows.
  assert (∀ rs l, Forall2 (λ t r, timing_last_named t rs = Some r) timers l →
            Forall2 (λ t r, by_region (extract_named_regions rs timers) !! t
                            = Some r) timers l) as Hlift.
  { intros rs l H. apply Forall2_same_length_lookup. split.
    - by eapply Forall2_length.
    - intros i t r Ht Hr. rewrite named_lookup, decide_True
        by by eapply list_elem_of_lookup_2.
      exact (Forall2_lookup_lr _ _ _ _ _ _ H Ht Hr). }
  rewrite (bars_Ok _ _ _ (Hlift _ _ Hrows)). simpl.
  apply Forall2_length in Hrows as Hl1. fold timers in Hl1.
  split.
  { intros Hno. apply draw_refused. unfold timing_labels_fit in Hno.
    fold timers in Hno. destruct Hno as [Hno|Hno]; [left; lia|by right]. }
  intros Hfit Hacc. unfold timing_labels_fit in Hfit. fold timers in Hfit.
  assert (length rows = length (labels_of args)) as Hn by lia.
  pose proof (draw_accepted rows _ Hn Hacc) as Hdraw.
  destruct (barh _ _) as [[]|]; [|done]. simpl in Hdraw |- *.
  destruct (errorbar _ _ (Some _)) as [[]|]; [|done]. simpl in Hdraw |- *.
  rewrite Hdraw. simpl.
  destruct (opt_data_lookup opt_rows timers) as [Hd He]. cbv zeta in Hd, He.
  split.
  - intros Hnone. by rewrite decide_True by by apply He.
  - intros orows Hne Horows. rewrite decide_False.
    2: { rewrite He. intros Hall. destruct Horows as [|t o ?? Ho _]; [done|].
         apply Forall_cons in Hall as [Hall _]. by rewrite Hall in Ho. }
    assert (Forall2 (λ t r, match opt_rows with
                            | [] => ∅
                            | _ => by_region (extract_named_regions opt_rows timers)
                            end !! t = Some r) timers orows) as Hopt.
    { apply Forall2_same_length_lookup. split.
      - by eapply Forall2_length.
      - intros i t r Ht Hr. rewrite Hd by by eapply list_elem_of_lookup_2.
        exact (Forall2_lookup_lr _ _ _ _ _ _ Horows Ht Hr). }
    rewrite (bars_Ok _ _ _ Hopt). simpl.
    apply Forall2_length in Horows as Hl2. fold timers in Hl2.
    rewrite overlay_errorbar by lia.
    destruct (decide (extents_accepted orows)); [|done]. simpl.
    rewrite timing_annotate_loop_spec by lia. simpl. unfold plot.
    by rewrite Hfit.
Qed.
End timing_main.

(** ** The tokenizer and the grammar of its pattern *)

Section matcher.

Lemma or_else_Some {A} (x y : option A) a :
  or_else x y = Some a → x = Some a ∨ x = None ∧ y = Some a.
Proof. destruct x; simpl; [intros [= <-]|]; auto. Qed.

Lemma is_Some_or_else {A} (x y : option A) :
  is_Some x ∨ is_Some y → is_Some (or_else x y).
Proof. destruct x; simpl; [by eauto|]. by intros [[? [=]]|?]. Qed.

(** The matcher finds only matches of the grammar. *)
Lemma re_exec_sound r s g k out :
  re_exec r s g k = Some out →
  ∃ s' g', rmatch r s s' g g' ∧ k s' g' = Some out.
Proof.
  revert s g k out.
  induction r as [| |p|r1 IH1 r2 IH2|r1 IH1 r2 IH2|gr r1 IH1|name r1 IH1];
    intros s g k out H; simpl in H.
  - exists s, g. split; [constructor|done].
  - destruct s as [|c [|c' s]]; [|destruct (code c =? 10)%N eqn:E|]; try done.
    + exists [], g. split; [constructor|done].
    + exists [c], g. split; [|done]. constructor. by apply N.eqb_eq.
  - destruct s as [|c s]; [done|]. destruct (p c) eqn:E; [|done].
    exists s, g. split; [by constructor|done].
  - apply IH1 in H as (s1 & g1 & H1 & H).
    apply IH2 in H as (s2 & g2 & H2 & H).
    exists s2, g2. split; [by econstructor|done].
  - apply or_else_Some in H as [H|[_ H]].
    + apply IH1 in H as (s' & g' & H1 & H).
      exists s', g'. split; [by apply rm_Alt_l|done].
    + apply IH2 in H as (s' & g' & H2 & H).
      exists s', g'. split; [by apply rm_Alt_r|done].
  - remember (length s) as fuel eqn:Hfuel. clear Hfuel.
    revert s g H. induction fuel as [|fuel IH]; intros s g H.
    + exists s, g. split; [constructor|done].
    + simpl in H.
      assert (k s g = Some out →
              ∃ s' g', rmatch (Star gr r1) s s' g g' ∧ k s' g' = Some out)
        as Hstop.
      { intros Hk. exists s, g. split; [constructor|done]. }
      destruct gr; apply or_else_Some in H as [H|[_ H]]; auto;
        apply IH1 in H as (s1 & g1 & H1 & Hx);
        (destruct (length s1 <? length s) eqn:E; [|done]);
        apply Nat.ltb_lt in E;
        apply IH in Hx as (s2 & g2 & H2 & Hx);
        exists s2, g2; (split; [by econstructor|done]).
  - apply IH1 in H as (s' & g' & H1 & H).
    eexists s', _. split; [by constructor|done].
Qed.

(** The matcher finds a match whenever the grammar has one. *)
Lemma re_exec_complete r s s' g g' k :
  rmatch r s s' g g' → is_Some (k s' g') → is_Some (re_exec r s g k).
Proof.
  revert s s' g g' k.
  induction r as [| |p|r1 IH1 r2 IH2|r1 IH1 r2 IH2|gr r1 IH1|name r1 IH1];
    intros s s' g g' k H Hk.
  - by inversion H; subst.
  - inversion H as [|? |c ? Hc| | | | | | |]; subst; simpl; [done|].
    apply N.eqb_eq in Hc. by rewrite Hc.
  - inversion H as [| | |? c ? ? Hc| | | | | |]; subst. simpl. by rewrite Hc.
  - inversion H as [| | | |? ? ? s1 ? ? g1 ? H1 H2| | | | |]; subst. simpl.
    eapply IH1; [exact H1|]. by eapply IH2.
  - simpl. apply is_Some_or_else.
    inversion H; subst; [left|right]; eauto.
  - simpl. remember (length s) as fuel eqn:Hfuel.
    assert (length s ≤ fuel) as Hlen by lia. clear Hfuel.
    revert s g H Hlen. induction fuel as [|fuel IH]; intros s g H Hlen.
    + inversion H; subst; [done|lia].
    + simpl. inversion H as [| | | | | | |? ? ? ?|? ? ? s1 ? ? g1 ? H1 Hlt H2|];
        subst.
      * destruct gr; apply is_Some_or_else; auto.
      * destruct gr; apply is_Some_or_else; [left|right];
          (eapply IH1; [exact H1|]); cbv beta;
          rewrite (proj2 (Nat.ltb_lt _ _) Hlt); (apply IH; [done|lia]).
  - inversion H; subst. simpl. eapply IH1; [eassumption|done].
Qed.

Lemma matches_rmatch line :
  matches line ↔ ∃ s' g', rmatch pat (list_ascii_of_string line) s' ∅ g'.
Proof.
  unfold matches, re_match. split.
  - intros [out H]. apply re_exec_sound in H as (s' & g' & H & _). eauto.
  - intros (s' & g' & H). by eapply re_exec_complete.
Qed.

Lemma re_match_rmatch line g :
  re_match pat line = Some g →
  ∃ s', rmatch pat (list_ascii_of_string line) s' ∅ g.
Proof.
  unfold re_match. intros (s' & g' & H & [= <-])%re_exec_sound. eauto.
Qed.
End matcher.

(** *** What the parts of the pattern match *)

Section grammar.

(** [r] matches the strings [x] with [Φ x g g']. *)
Local Abbreviation recognizes r Φ :=
  (∀ s s' g g', rmatch r s s' g g' ↔ ∃ x, s = x ++ s' ∧ Φ x g g').
Local Abbreviation plain P :=
  (λ (x : list ascii) (g g' : groups), P x ∧ g' = g).

Lemma rec_Eps : recognizes Eps (plain (λ x, x = [])).
Proof.
  intros s s' g g'. split.
  - intros H. inversion H; subst. by exists [].
  - intros (x & -> & -> & ->). constructor.
Qed.

Lemma rec_Class p :
  recognizes (Class p) (plain (λ x, ∃ c, x = [c] ∧ p c = true)).
Proof.
  intros s s' g g'. split.
  - intros H. inversion H; subst. exists [c]. eauto.
  - intros (x & -> & (c & -> & Hc) & ->). by constructor.
Qed.

Lemma rec_Seq r1 r2 Φ1 Φ2 :
  recognizes r1 Φ1 → recognizes r2 Φ2 →
  recognizes (Seq r1 r2)
    (λ x g g', ∃ x1 x2 g1, x = x1 ++ x2 ∧ Φ1 x1 g g1 ∧ Φ2 x2 g1 g').
Proof.
  intros H1 H2 s s' g g'. split.
  - intros H. inversion H as [| | | |? ? ? s1 ? ? g1 ? M1 M2| | | | |]; subst.
    apply H1 in M1 as (x1 & -> & M1). apply H2 in M2 as (x2 & -> & M2).
    exists (x1 ++ x2). rewrite <-app_assoc. split; [done|]. by exists x1, x2, g1.
  - intros (x & -> & x1 & x2 & g1 & -> & M1 & M2).
    apply (rm_Seq _ _ _ (x2 ++ s') _ _ g1).
    + apply H1. exists x1. by rewrite <-app_assoc.
    + apply H2. by exists x2.
Qed.

Lemma rec_Alt r1 r2 Φ1 Φ2 :
  recognizes r1 Φ1 → recognizes r2 Φ2 →
  recognizes (Alt r1 r2) (λ x g g', Φ1 x g g' ∨ Φ2 x g g').
Proof.
  intros H1 H2 s s' g g'. split.
  - intros H. inversion H as [| | | | |? ? ? ? ? ? M|? ? ? ? ? ? M| | |]; subst.
    + apply H1 in M as (x & -> & M). exists x. auto.
    + apply H2 in M as (x & -> & M). exists x. auto.
  - intros (x & -> & [M|M]).
    + apply rm_Alt_l, H1. by exists x.
    + apply rm_Alt_r, H2. by exists x.
Qed.

Lemma rec_Star_Class gr p :
  recognizes (Star gr (Class p)) (plain (Forall (λ c, p c = true))).
Proof.
  intros s s' g g'. split.
  - intros H. remember (Star gr (Class p)) as r eqn:Hr.
    induction H as [| | | | | | |? ? s g|? ? s s1 s2 g g1 g2 M1 _ Hlt M2 IH|];
      try done; injection Hr as -> ->.
    + exists []. by split.
    + destruct (IH eq_refl) as (x & -> & Hx & ->).
      inversion M1; subst. exists (c :: x). split; [done|]. split; [|done].
      by constructor.
  - intros (x & -> & Hx & ->). induction Hx as [|c x Hc _ IH]; simpl.
    + constructor.
    + eapply rm_Star_step; [by constructor| |exact IH]. simpl. lia.
Qed.

Lemma rec_Group name r Φ :
  recognizes r Φ →
  recognizes (Group name r)
    (λ x g g', ∃ g1, Φ x g g1 ∧ g' = <[name := string_of_list_ascii x]> g1).
Proof.
  intros H1 s s' g g'. split.
  - intros H. inversion H as [| | | | | | | | |? ? ? ? ? g1 M]; subst.
    apply H1 in M as (x & -> & M). exists x. split; [done|]. exists g1.
    split; [done|]. rewrite length_app.
    replace (length x + length s' - length s') with (length x) by lia.
    by rewrite take_app_length.
  - intros (x & -> & g1 & M & ->).
    assert (x = take (length (x ++ s') - length s') (x ++ s')) as Hx.
    { rewrite length_app.
      replace (length x + length s' - length s') with (length x) by lia.
      by rewrite take_app_length. }
    rewrite Hx at 2. constructor. apply H1. by exists x.
Qed.

Lemma rec_ext r (Φ Ψ : list ascii → groups → groups → Prop) :
  recognizes r Φ → (∀ x g g', Φ x g g' ↔ Ψ x g g') → recognizes r Ψ.
Proof.
  intros H Heq s s' g g'. rewrite H. by setoid_rewrite Heq.
Qed.

Lemma rec_Plus_Class p :
  recognizes (Plus (Class p))
    (plain (λ x, x ≠ [] ∧ Forall (λ c, p c = true) x)).
Proof.
  eapply rec_ext; [apply rec_Seq; [apply rec_Class|apply rec_Star_Class]|].
  intros x g g'. split.
  - intros (x1 & x2 & g1 & -> & ((c & -> & Hc) & ->) & (Hx2 & ->)).
    split; [|done]. split; [done|]. by constructor.
  - intros ((Hne & Hx) & ->). destruct Hx as [|c x Hc Hx]; [done|].
    exists [c], x, g. split; [done|]. split; [|done]. split; [|done]. eauto.
Qed.

Lemma is_char_eq a c : is_char a c = true ↔ c = a.
Proof.
  unfold is_char, code. rewrite N.eqb_eq. split; [|by intros ->].
  intros H. by rewrite <-(ascii_N_embedding c), <-H, ascii_N_embedding.
Qed.

Lemma rec_Lit str :
  recognizes (Lit str) (plain (λ x, x = list_ascii_of_string str)).
Proof.
  induction str as [|a str IH]; [apply rec_Eps|].
  eapply rec_ext; [apply rec_Seq; [apply rec_Class|apply IH]|].
  intros x g g'. split.
  - intros (x1 & x2 & g1 & -> & ((c & -> & Hc%is_char_eq) & ->) & (-> & ->)).
    by subst.
  - intros (-> & ->). exists [a], (list_ascii_of_string str), g.
    split; [done|]. split; [|done]. split; [|done]. exists a.
    split; [done|]. by apply is_char_eq.
Qed.

Lemma rec_spaces : recognizes (Star true ws) (plain spaces).
Proof. apply rec_Star_Class. Qed.

Lemma rec_space_run : recognizes (Plus ws) (plain space_run).
Proof. apply rec_Plus_Class. Qed.

Lemma rec_digits : recognizes digits (plain digit_run).
Proof. apply rec_Plus_Class. Qed.

Lemma rec_decimal : recognizes decimal (plain decimal_run).
Proof.
  eapply rec_ext.
  { apply rec_Seq; [apply rec_digits|].
    apply rec_Seq; [apply (rec_Lit ".")|].
    apply rec_Seq; [apply rec_digits|apply rec_Eps]. }
  intros x g g'. split.
  - intros (a & ? & ? & -> & (Ha & ->) & d & ? & ? & -> & (-> & ->)
            & b & ? & ? & -> & (Hb & ->) & -> & ->).
    split; [|done]. exists a, b. by rewrite app_nil_r.
  - intros ((a & b & -> & Ha & Hb) & ->).
    exists a, ("."%char :: b), g. split; [done|]. split; [done|].
    exists ["."%char], b, g. split; [done|]. split; [done|].
    exists b, [], g. by rewrite app_nil_r.
Qed.

Lemma rec_count :
  recognizes (Alt (Lit "MULTIPLE") digits)
    (plain (λ x, x = list_ascii_of_string "MULTIPLE" ∨ digit_run x)).
Proof.
  eapply rec_ext; [apply rec_Alt; [apply rec_Lit|apply rec_digits]|].
  intros x g g'. split.
  - intros [[-> ->]|[H ->]]; auto.
  - intros [[->|H] ->]; [left|right]; done.
Qed.

Lemma not_space_is_dot c : is_space c = false → is_dot c = true.
Proof.
  unfold is_space, is_dot. cbv zeta. intros H.
  apply negb_true_iff, N.eqb_neq. intros E. rewrite E in H. done.
Qed.

Lemma rec_name :
  recognizes (Alt (Seqs [nws; Star false (Class is_dot); nws]) nws)
    (plain name_run).
Proof.
  eapply rec_ext.
  { apply rec_Alt; [|apply rec_Class].
    apply rec_Seq; [apply rec_Class|].
    apply rec_Seq; [apply rec_Star_Class|].
    apply rec_Seq; [apply rec_Class|apply rec_Eps]. }
  intros x g g'. split.
  - intros [(? & ? & ? & -> & ((c & -> & Hc) & ->) & mid & ? & ? & -> & (Hmid & ->)
             & ? & ? & ? & -> & ((c' & -> & Hc') & ->) & -> & ->)
           |((c & -> & Hc) & ->)];
      apply negb_true_iff in Hc; try apply negb_true_iff in Hc'.
    + split; [|done]. rewrite app_nil_r.
      change ([c] ++ mid ++ [c']) with (c :: mid ++ [c']). split_and!.
      * by exists c.
      * exists c'. by rewrite app_comm_cons, last_snoc.
      * constructor; [by apply not_space_is_dot|].
        apply Forall_app. split; [done|]. constructor; [|done].
        by apply not_space_is_dot.
    + split; [|done]. split_and!; [by exists c..|].
      constructor; [by apply not_space_is_dot|done].
  - intros (((c & Hhead & Hc) & (c' & Hlast & Hc') & Hdot) & ->).
    destruct x as [|c0 x]; [done|]. injection Hhead as ->.
    destruct x as [|c1 x] using rev_ind.
    + right. split; [|done]. exists c. split; [done|]. by apply negb_true_iff.
    + left. rewrite app_comm_cons, last_snoc in Hlast. injection Hlast as ->.
      apply Forall_cons in Hdot as [_ Hdot].
      apply Forall_app in Hdot as [Hdot _].
      exists [c], (x ++ [c']), g. split; [done|]. split.
      { split; [|done]. exists c. split; [done|]. by apply negb_true_iff. }
      exists x, [c'], g. split; [done|]. split; [done|].
      exists [c'], [], g. split; [done|]. split; [|done]. split; [|done].
      exists c'. split; [done|]. by apply negb_true_iff.
Qed.

Lemma rec_pets :
  recognizes
    (Opt (Seqs [Group "PETs" digits; Plus ws; Group "PEs" digits; Plus ws]))
    (λ x g g', ∃ o,
       x = pets_text o ∧
       match o with
       | Some (a, sa, b, sb) =>
           digit_run a ∧ space_run sa ∧ digit_run b ∧ space_run sb ∧
           g' = <["PEs" := string_of_list_ascii b]>
                  (<["PETs" := string_of_list_ascii a]> g)
       | None => g' = g
       end).
Proof.
  eapply rec_ext.
  { apply rec_Alt; [|apply rec_Eps].
    apply rec_Seq; [apply rec_Group, rec_digits|].
    apply rec_Seq; [apply rec_space_run|].
    apply rec_Seq; [apply rec_Group, rec_digits|].
    apply rec_Seq; [apply rec_space_run|apply rec_Eps]. }
  intros x g g'. split.
  - intros [(a & ? & ? & -> & (? & (Ha & ->) & ->) & sa & ? & ? & -> & (Hsa & ->)
             & b & ? & ? & -> & (? & (Hb & ->) & ->)
             & sb & ? & ? & -> & (Hsb & ->) & -> & ->)
           |[-> ->]].
    + exists (Some (a, sa, b, sb)). simpl. by rewrite app_nil_r.
    + by exists None.
  - intros ([[[[a sa] b] sb]|] & -> & H).
    + destruct H as (Ha & Hsa & Hb & Hsb & ->). left.
      exists a, (sa ++ b ++ sb), (<["PETs" := string_of_list_ascii a]> g).
      split; [done|]. split; [by exists g|].
      exists sa, (b ++ sb), (<["PETs" := string_of_list_ascii a]> g).
      split; [done|]. split; [done|].
      exists b, sb, (<["PEs" := string_of_list_ascii b]>
                       (<["PETs" := string_of_list_ascii a]> g)).
      split; [done|]. split; [by eexists|].
      exists sb, [], (<["PEs" := string_of_list_ascii b]>
                        (<["PETs" := string_of_list_ascii a]> g)).
      by rewrite app_nil_r.
    + right. by subst.
Qed.

Lemma rec_Seq_tail r1 rest Φ1 :
  recognizes r1 Φ1 →
  ∀ s s' g g',
    rmatch (Seq r1 rest) s s' g g'
    ↔ ∃ x1 s1 g1, s = x1 ++ s1 ∧ Φ1 x1 g g1 ∧ rmatch rest s1 s' g1 g'.
Proof.
  intros H1 s s' g g'. split.
  - intros H. inversion H as [| | | |? ? ? s1 ? ? g1 ? M1 M2| | | | |]; subst.
    apply H1 in M1 as (x1 & -> & M1). by exists x1, s1, g1.
  - intros (x1 & s1 & g1 & -> & M1 & M2).
    apply (rm_Seq _ _ _ s1 _ _ g1); [|done]. apply H1. by exists x1.
Qed.

Lemma rmatch_Eos_Eps s s' g g' :
  rmatch (Seq Eos Eps) s s' g g'
  ↔ s' = s ∧ g' = g ∧ (s = [] ∨ ∃ c, s = [c] ∧ code c = 10%N).
Proof.
  split.
  - intros H. inversion H as [| | | |? ? ? s1 ? ? g1 ? M1 M2| | | | |]; subst.
    inversion M2; subst. inversion M1; subst; eauto 6.
  - intros (-> & -> & [->|(c & -> & Hc)]);
      (eapply rm_Seq; [|apply rm_Eps]); by constructor.
Qed.

(** The pieces behind the name. *)
Local Abbreviation rest_list :=
  [ Plus ws;
    Opt (Seqs [Group "PETs" digits; Plus ws; Group "PEs" digits; Plus ws]);
    Group "count" (Alt (Lit "MULTIPLE") digits); Plus ws;
    Group "mean" decimal; Plus ws;
    Group "min" decimal; Plus ws;
    Group "minpet" digits; Plus ws;
    Group "max" decimal; Plus ws;
    Group "maxpet" digits; Star true ws;
    Eos ].
Local Abbreviation rest_text p :=
  (p_sep1 p ++ pets_text (p_pets p) ++
   p_count p ++ p_sep2 p ++ p_mean p ++ p_sep3 p ++ p_min p ++ p_sep4 p ++
   p_minpet p ++ p_sep5 p ++ p_max p ++ p_sep6 p ++ p_maxpet p ++ p_tail p).
Local Abbreviation rest_ok p :=
  (space_run (p_sep1 p) ∧
   match p_pets p with
   | Some (a, sa, b, sb) =>
       digit_run a ∧ space_run sa ∧ digit_run b ∧ space_run sb
   | None => True
   end ∧
   (p_count p = list_ascii_of_string "MULTIPLE" ∨ digit_run (p_count p)) ∧
   space_run (p_sep2 p) ∧ decimal_run (p_mean p) ∧
   space_run (p_sep3 p) ∧ decimal_run (p_min p) ∧
   space_run (p_sep4 p) ∧ digit_run (p_minpet p) ∧
   space_run (p_sep5 p) ∧ decimal_run (p_max p) ∧
   space_run (p_sep6 p) ∧ digit_run (p_maxpet p) ∧
   spaces (p_tail p)).
Local Abbreviation rest_groups p g0 :=
  (<["maxpet" := string_of_list_ascii (p_maxpet p)]>
   (<["max" := string_of_list_ascii (p_max p)]>
   (<["minpet" := string_of_list_ascii (p_minpet p)]>
   (<["min" := string_of_list_ascii (p_min p)]>
   (<["mean" := string_of_list_ascii (p_mean p)]>
   (<["count" := string_of_list_ascii (p_count p)]>
   (match p_pets p with
    | Some (a, _, b, _) =>
        <["PEs" := string_of_list_ascii b]>
          (<["PETs" := string_of_list_ascii a]> g0)
    | None => g0
    end))))))).

Lemma rmatch_rest ind name s s' g0 g' :
  rmatch (Seqs rest_list) s s' g0 g'
  ↔ ∃ p, p_indent p = ind ∧ p_name p = name ∧ rest_ok p ∧
         s = rest_text p ++ s' ∧ g' = rest_groups p g0 ∧
         (s' = [] ∨ ∃ c, s' = [c] ∧ code c = 10%N).
Proof.
  unfold Seqs. split.
  - intros H.
    apply (rec_Seq_tail _ _ _ rec_space_run) in H
      as (s1 & ? & ? & -> & [Hs1 ->] & H).
    apply (rec_Seq_tail _ _ _ rec_pets) in H
      as (? & ? & gp & -> & (pets & -> & Hpets) & H).
    apply (rec_Seq_tail _ _ _ (rec_Group _ _ _ rec_count)) in H
      as (count & ? & ? & -> & (? & [Hcount ->] & ->) & H).
    apply (rec_Seq_tail _ _ _ rec_space_run) in H
      as (s2 & ? & ? & -> & [Hs2 ->] & H).
    apply (rec_Seq_tail _ _ _ (rec_Group _ _ _ rec_decimal)) in H
      as (mean & ? & ? & -> & (? & [Hmean ->] & ->) & H).
    apply (rec_Seq_tail _ _ _ rec_space_run) in H
      as (s3 & ? & ? & -> & [Hs3 ->] & H).
    apply (rec_Seq_tail _ _ _ (rec_Group _ _ _ rec_decimal)) in H
      as (min & ? & ? & -> & (? & [Hmin ->] & ->) & H).
    apply (rec_Seq_tail _ _ _ rec_space_run) in H
      as (s4 & ? & ? & -> & [Hs4 ->] & H).
    apply (rec_Seq_tail _ _ _ (rec_Group _ _ _ rec_digits)) in H
      as (minpet & ? & ? & -> & (? & [Hminpet ->] & ->) & H).
    apply (rec_Seq_tail _ _ _ rec_space_run) in H
      as (s5 & ? & ? & -> & [Hs5 ->] & H).
    apply (rec_Seq_tail _ _ _ (rec_Group _ _ _ rec_decimal)) in H
      as (max & ? & ? & -> & (? & [Hmax ->] & ->) & H).
    apply (rec_Seq_tail _ _ _ rec_space_run) in H
      as (s6 & ? & ? & -> & [Hs6 ->] & H).
    apply (rec_Seq_tail _ _ _ (rec_Group _ _ _ rec_digits)) in H
      as (maxpet & ? & ? & -> & (? & [Hmaxpet ->] & ->) & H).
    apply (rec_Seq_tail _ _ _ rec_spaces) in H
      as (tail & ? & ? & -> & [Htail ->] & H).
    apply rmatch_Eos_Eps in H as (-> & -> & Hend).
    exists {| p_indent := ind; p_name := name; p_sep1 := s1; p_pets := pets;
              p_count := count; p_sep2 := s2; p_mean := mean; p_sep3 := s3;
              p_min := min; p_sep4 := s4; p_minpet := minpet; p_sep5 := s5;
              p_max := max; p_sep6 := s6; p_maxpet := maxpet;
              p_tail := tail |}.
    simpl. split_and!; try done.
    + by destruct pets as [[[[??]?]?]|]; [destruct Hpets as (?&?&?&?&?)|].
    + by rewrite <-!app_assoc.
    + by destruct pets as [[[[??]?]?]|]; [destruct Hpets as (?&?&?&?&->)|subst].
  - intros ([ind' name' s1 pets count s2 mean s3 min s4 minpet s5 max s6 maxpet tail]
            & _ & _ & Hok & -> & -> & Hend).
    simpl in *.
    destruct Hok as (Hs1 & Hpets & Hcount & Hs2 & Hmean & Hs3
                     & Hmin & Hs4 & Hminpet & Hs5 & Hmax & Hs6 & Hmaxpet & Htail).
    rewrite <-!app_assoc.
    apply (rec_Seq_tail _ _ _ rec_space_run).
    eexists s1, _, _. split; [done|]. split; [done|].
    apply (rec_Seq_tail _ _ _ rec_pets).
    eexists (pets_text pets), _,
      (match pets with
       | Some (a, _, b, _) =>
           <["PEs" := string_of_list_ascii b]>
             (<["PETs" := string_of_list_ascii a]> g0)
       | None => g0
       end).
    split; [done|]. split.
    { exists pets. split; [done|].
      destruct pets as [[[[??]?]?]|]; [|done].
      destruct Hpets as (?&?&?&?). by split_and!. }
    apply (rec_Seq_tail _ _ _ (rec_Group _ _ _ rec_count)).
    eexists count, _, _. split; [done|]. split; [by eexists|].
    apply (rec_Seq_tail _ _ _ rec_space_run).
    eexists s2, _, _. split; [done|]. split; [done|].
    apply (rec_Seq_tail _ _ _ (rec_Group _ _ _ rec_decimal)).
    eexists mean, _, _. split; [done|]. split; [by eexists|].
    apply (rec_Seq_tail _ _ _ rec_space_run).
    eexists s3, _, _. split; [done|]. split; [done|].
    apply (rec_Seq_tail _ _ _ (rec_Group _ _ _ rec_decimal)).
    eexists min, _, _. split; [done|]. split; [by eexists|].
    apply (rec_Seq_tail _ _ _ rec_space_run).
    eexists s4, _, _. split; [done|]. split; [done|].
    apply (rec_Seq_tail _ _ _ (rec_Group _ _ _ rec_digits)).
    eexists minpet, _, _. split; [done|]. split; [by eexists|].
    apply (rec_Seq_tail _ _ _ rec_space_run).
    eexists s5, _, _. split; [done|]. split; [done|].
    apply (rec_Seq_tail _ _ _ (rec_Group _ _ _ rec_decimal)).
    eexists max, _, _. split; [done|]. split; [by eexists|].
    apply (rec_Seq_tail _ _ _ rec_space_run).
    eexists s6, _, _. split; [done|]. split; [done|].
    apply (rec_Seq_tail _ _ _ (rec_Group _ _ _ rec_digits)).
    eexists maxpet, _, _. split; [done|]. split; [by eexists|].
    apply (rec_Seq_tail _ _ _ rec_spaces).
    eexists tail, _, _. split; [done|]. split; [done|].
    apply rmatch_Eos_Eps. split_and!; [|done..].
    by destruct pets as [[[[??]?]?]|].
Qed.

Lemma rmatch_pat s s' g' :
  rmatch pat s s' ∅ g'
  ↔ ∃ p, pieces_ok p ∧ s = pieces_text p ++ s' ∧ g' = pieces_groups p ∧
         (s' = [] ∨ ∃ c, s' = [c] ∧ code c = 10%N).
Proof.
  change pat
    with (Seq (Group "indent" (Star true ws))
            (Seq (Group "name"
                    (Alt (Seqs [nws; Star false (Class is_dot); nws]) nws))
               (Seqs rest_list))).
  rewrite (rec_Seq_tail _ _ _ (rec_Group _ _ _ rec_spaces)). split.
  - intros (ind & ? & ? & -> & (? & [Hind ->] & ->) & H).
    apply (rec_Seq_tail _ _ _ (rec_Group _ _ _ rec_name)) in H
      as (name & ? & ? & -> & (? & [Hname ->] & ->) & H).
    apply (rmatch_rest ind name) in H
      as (p & <- & <- & Hok & -> & -> & Hend).
    exists p. unfold pieces_ok, pieces_text, pieces_groups.
    rewrite <-!app_assoc.
    split; [exact (conj Hind (conj Hname Hok))|]. by split_and!.
  - intros (p & Hok & -> & -> & Hend).
    unfold pieces_ok in Hok. destruct Hok as (Hind & Hname & Hok).
    unfold pieces_text, pieces_groups. rewrite <-!app_assoc.
    eexists (p_indent p), _, _. split; [done|]. split; [by eexists|].
    apply (rec_Seq_tail _ _ _ (rec_Group _ _ _ rec_name)).
    eexists (p_name p), _, _. split; [done|]. split; [by eexists|].
    apply (rmatch_rest (p_indent p) (p_name p)). exists p.
    split; [done|]. split; [done|]. split; [exact Hok|].
    split; [by rewrite <-!app_assoc|]. by split.
Qed.
(** *** The order in which [re] tries the names *)

(** The lazy star stops at the first place where what follows matches. *)
Lemma lazy_star_first p s g k out :
  re_exec (Star false (Class p)) s g k = Some out →
  ∃ x s', s = x ++ s' ∧ Forall (λ c, p c = true) x ∧ k s' g = Some out ∧
          ∀ x' s'', s = x' ++ s'' → length x' < length x → k s'' g = None.
Proof.
  simpl. remember (length s) as fuel eqn:Hfuel. clear Hfuel.
  revert s. induction fuel as [|fuel IH]; intros s H.
  - exists [], s. split_and!; [done|constructor|done|].
    intros x' s'' _ Hlt. simpl in Hlt. lia.
  - simpl in H. apply or_else_Some in H as [H|[Hnone H]].
    + exists [], s. split_and!; [done|constructor|done|].
      intros x' s'' _ Hlt. simpl in Hlt. lia.
    + destruct s as [|c t]; [done|]. destruct (p c) eqn:Hc; [|done].
      destruct (length t <? length (c :: t)) eqn:E; [|done].
      apply IH in H as (x & s' & -> & Hx & Hk & Hmin).
      exists (c :: x), s'. split_and!; [done|by constructor|done|].
      intros x' s'' Heq Hlt. destruct x' as [|c' x'].
      * simpl in Heq. by subst.
      * injection Heq as <- Heq. apply (Hmin x'); [done|]. simpl in Hlt. lia.
Qed.

Lemma take_front (x s' : list ascii) :
  take (length (x ++ s') - length s') (x ++ s') = x.
Proof.
  rewrite length_app.
  replace (length x + length s' - length s') with (length x) by lia.
  by rewrite take_app_length.
Qed.

Lemma name_run_long x :
  name_run x → 2 ≤ length x →
  ∃ c mid c', x = c :: mid ++ [c'] ∧ is_space c = false ∧
              is_space c' = false ∧ Forall (λ c, is_dot c = true) mid.
Proof.
  intros ((c & Hhead & Hc) & (c' & Hlast & Hc') & Hdot) Hlen.
  destruct x as [|c0 x]; [done|]. injection Hhead as ->.
  destruct x as [|c1 x _] using rev_ind; [simpl in Hlen; lia|].
  rewrite app_comm_cons, last_snoc in Hlast. injection Hlast as ->.
  apply Forall_cons in Hdot as [_ Hdot]. apply Forall_app in Hdot as [Hdot _].
  by exists c, x, c'.
Qed.

(** The name that [re] settles on: the first one, in the order two
    characters or more from the shortest on and then one character, behind
    which the rest of the pattern matches. *)
Lemma re_exec_name nm R s g k out :
  re_exec
    (Seq (Group nm (Alt (Seqs [nws; Star false (Class is_dot); nws]) nws)) R)
    s g k = Some out →
  ∃ name s2,
    s = name ++ s2 ∧ name_run name ∧
    re_exec R s2 (<[nm := string_of_list_ascii name]> g) k = Some out ∧
    ∀ name' s2',
      s = name' ++ s2' → name_run name' → 2 ≤ length name' →
      length name < 2 ∨ length name' < length name →
      re_exec R s2' (<[nm := string_of_list_ascii name']> g) k = None.
Proof.
  set (K := λ (s' : list ascii) (g' : groups),
         re_exec R s'
           (<[nm := string_of_list_ascii (take (length s - length s') s)]> g')
           k).
  set (after := λ (s' : list ascii) (g' : groups),
         match s' with
         | c' :: s'' => if negb (is_space c') then K s'' g' else None
         | [] => None
         end).
  intros H.
  change (or_else
            (match s with
             | c :: t =>
                 if negb (is_space c)
                 then re_exec (Star false (Class is_dot)) t g after
                 else None
             | [] => None
             end)
            (match s with
             | c :: t => if negb (is_space c) then K t g else None
             | [] => None
             end) = Some out) in H.
  assert (∀ x s', s = x ++ s' →
            K s' g = re_exec R s' (<[nm := string_of_list_ascii x]> g) k)
    as HK.
  { intros x s' ->. unfold K. by rewrite take_front. }
  destruct s as [|c t]; [done|].
  destruct (is_space c) eqn:Hc; [done|]. cbv beta iota in H.
  change (negb false) with true in H. cbv iota in H.
  apply or_else_Some in H as [H|[Hnone H]].
  - apply lazy_star_first in H as (x & s' & -> & Hx & Hk & Hmin).
    unfold after in Hk. destruct s' as [|c' s2]; [done|].
    destruct (is_space c') eqn:Hc'; [done|]. simpl in Hk.
    exists (c :: x ++ [c']), s2. split_and!.
    + simpl. by rewrite <-app_assoc.
    + split_and!; [by exists c|exists c'; by rewrite app_comm_cons, last_snoc|].
      constructor; [by apply not_space_is_dot|]. apply Forall_app.
      split; [done|]. constructor; [by apply not_space_is_dot|done].
    + rewrite <-Hk. symmetry. apply HK. simpl. by rewrite <-app_assoc.
    + intros name' s2' Heq Hname' Hlen' Hshort.
      destruct (name_run_long _ Hname' Hlen') as (c0 & mid & c1 & -> & _ & Hc1 & _).
      simpl in Heq. rewrite <-app_assoc in Heq. injection Heq as <- Heq.
      rewrite <-(HK (c :: mid ++ [c1]) s2')
        by (simpl; by rewrite <-app_assoc, Heq).
      assert (length mid < length x) as Hlt.
      { destruct Hshort as [Hshort|Hshort]; simpl in Hshort;
          rewrite !length_app in Hshort; simpl in Hshort; lia. }
      specialize (Hmin mid (c1 :: s2') Heq Hlt). unfold after in Hmin.
      by rewrite Hc1 in Hmin.
  - exists [c], t. split_and!; [done| |by rewrite <-(HK [c] t)|].
    { split_and!; [by exists c..|].
      constructor; [by apply not_space_is_dot|done]. }
    intros name' s2' Heq Hname' Hlen' _.
    destruct (name_run_long _ Hname' Hlen')
      as (c0 & mid & c1 & -> & _ & Hc1 & Hmid).
    simpl in Heq. rewrite <-app_assoc in Heq. injection Heq as <- Heq.
    rewrite <-(HK (c :: mid ++ [c1]) s2')
      by (simpl; by rewrite <-app_assoc, Heq).
    destruct (K s2' g) as [o|] eqn:EK; [|done]. exfalso.
    assert (is_Some (re_exec (Star false (Class is_dot)) t g after)) as [o' Ho'].
    { apply (re_exec_complete _ _ (c1 :: s2') _ g).
      - apply rec_Star_Class. exists mid. by rewrite Heq.
      - unfold after. rewrite Hc1. simpl. by rewrite EK. }
    by rewrite Ho' in Hnone.
Qed.

(** The division that [re] reports, with the order of the names. *)
Lemma re_match_first_name line g :
  re_match pat line = Some g →
  ∃ p s', pieces_ok p ∧ list_ascii_of_string line = pieces_text p ++ s' ∧
          g = pieces_groups p ∧ (s' = [] ∨ ∃ c, s' = [c] ∧ code c = 10%N) ∧
          ∀ q, pieces_ok q → list_ascii_of_string line = pieces_text q →
               p_indent q = p_indent p → 2 ≤ length (p_name q) →
               2 ≤ length (p_name p) ≤ length (p_name q).
Proof.
  unfold re_match. generalize (list_ascii_of_string line). clear line.
  intros s H.
  change pat
    with (Seq (Group "indent" (Star true ws))
            (Seq (Group "name"
                    (Alt (Seqs [nws; Star false (Class is_dot); nws]) nws))
               (Seqs rest_list))) in H.
  change (re_exec (Seq ?a ?b) ?s ?g ?k)
    with (re_exec a s g (λ s' g', re_exec b s' g' k)) in H.
  apply re_exec_sound in H as (s1 & g1 & HI & H).
  apply (rec_Group _ _ _ rec_spaces) in HI as (ind & -> & ? & [Hind ->] & ->).
  apply re_exec_name in H as (name & s2 & -> & Hname & H & Hmin).
  apply re_exec_sound in H as (s' & g' & HR & [= ->]).
  apply (rmatch_rest ind name) in HR as (p & <- & <- & Hok & -> & -> & Hend).
  exists p, s'. split; [exact (conj Hind (conj Hname Hok))|].
  split; [unfold pieces_text; by rewrite <-!app_assoc|].
  split; [done|]. split; [done|].
  intros q (_ & Hqname & Hq) Htext Hindent Hlen.
  destruct (decide (2 ≤ length (p_name p) ≤ length (p_name q)))
    as [|Hno]; [done|]. exfalso.
  unfold pieces_text in Htext. rewrite Hindent in Htext.
  apply app_inv_head in Htext.
  assert (is_Some
            (re_exec (Seqs rest_list) (rest_text q)
               (<["name" := string_of_list_ascii (p_name q)]>
                  (<["indent" := string_of_list_ascii (p_indent p)]> ∅))
               (λ _ g, Some g))) as [o Ho].
  { eapply re_exec_complete; [|done].
    apply (rmatch_rest (p_indent q) (p_name q)). exists q.
    split; [done|]. split; [done|]. split; [exact Hq|].
    split; [by rewrite app_nil_r|]. split; [done|by left]. }
  rewrite Hmin in Ho; [done|done|done|done|lia].
Qed.
End grammar.

(** *** The rows of the matched lines *)

Section rows_of_lines.

Lemma length_string_of_list_ascii l :
  String.length (string_of_list_ascii l) = length l.
Proof. induction l as [|c l IH]; simpl; [done|]. by rewrite IH. Qed.

Lemma lstrip_not_space c l : is_space c = false → lstrip (c :: l) = c :: l.
Proof. intros H. simpl. by rewrite H. Qed.

Lemma strip_name_run x :
  name_run x → strip (string_of_list_ascii x) = string_of_list_ascii x.
Proof.
  intros ((c & Hhead & Hc) & (c' & Hlast & Hc') & _). unfold strip.
  rewrite list_ascii_of_string_of_list_ascii.
  destruct x as [|c0 x]; [done|]. injection Hhead as ->.
  rewrite (lstrip_not_space _ _ Hc).
  apply last_Some in Hlast as [x' Hx']. rewrite Hx', reverse_snoc.
  rewrite (lstrip_not_space _ _ Hc'). by rewrite <-reverse_snoc, reverse_involutive.
Qed.

Lemma string_of_list_ascii_nil l : string_of_list_ascii l = EmptyString → l = [].
Proof. by destruct l. Qed.

Lemma row_of_groups_pieces p :
  pieces_ok p → row_of_groups (pieces_groups p) = pieces_row p.
Proof.
  intros (_ & Hname & _ & Hpets & _).
  unfold row_of_groups, pieces_row, RunCam.group, optional_digits,
    pieces_groups. cbv zeta.
  destruct (p_pets p) as [[[[a sa] b] sb]|].
  - destruct Hpets as ([Ha _] & _ & [Hb _] & _).
    rewrite !lookup_insert_eq, ?lookup_insert_ne by done.
    rewrite !lookup_insert_eq, ?lookup_insert_ne by done.
    rewrite !lookup_insert_eq, ?lookup_insert_ne by done.
    rewrite !lookup_insert_eq. simpl.
    rewrite length_string_of_list_ascii, (strip_name_run _ Hname).
    destruct (string_of_list_ascii a) eqn:Ea;
      [by apply string_of_list_ascii_nil in Ea|].
    destruct (string_of_list_ascii b) eqn:Eb;
      [by apply string_of_list_ascii_nil in Eb|].
    done.
  - rewrite !lookup_insert_eq, ?lookup_insert_ne by done.
    rewrite !lookup_insert_eq, ?lookup_insert_ne by done.
    rewrite !lookup_insert_eq, ?lookup_insert_ne by done.
    rewrite !lookup_insert_eq, ?lookup_empty. simpl.
    by rewrite length_string_of_list_ascii, (strip_name_run _ Hname).
Qed.

Lemma ints_accepted_pieces p :
  ints_accepted (pieces_groups p) ↔ pieces_ints_fit p.
Proof.
  unfold ints_accepted, pieces_ints_fit, int_fields, int_pieces, RunCam.group,
    pieces_groups. cbv zeta.
  destruct (p_pets p) as [[[[a sa] b] sb]|];
    repeat (rewrite lookup_insert_eq || rewrite lookup_insert_ne by done);
    rewrite ?lookup_empty; simpl;
    rewrite !Forall_cons, !Forall_nil, !length_string_of_list_ascii.
  - tauto.
  - simpl. split; [tauto|]. intros ?. split_and!; try tauto; lia.
Qed.

(** The row of the pieces of a line, as the dict literal gives it. *)
Lemma make_row_pieces p :
  pieces_ok p →
  RunCam.make_row (pieces_groups p)
  = if decide (pieces_ints_fit p) then Ok (pieces_row p) else Raise ValueError.
Proof.
  intros Hok. destruct (decide (pieces_ints_fit p)) as [H|H].
  - rewrite make_row_accepted by by apply ints_accepted_pieces.
    by rewrite row_of_groups_pieces.
  - apply make_row_refused. by rewrite ints_accepted_pieces.
Qed.
End rows_of_lines.

(** ** Parsed times are not negative *)

Section not_negative.

Lemma leb_zero_not_neg x :
  number x → ¬ sf_neg (Prim2SF x) → (0 <=? x)%float = true.
Proof.
  intros Hx Hneg. apply leb_rank. split_and!; [apply number_zero|done|].
  rewrite zero_rank. unfold number, frank in *.
  destruct (Prim2SF x) as [[]|[]| |[] m e]; simpl in *; try done;
    first [by right|left; lia].
Qed.

Lemma sf_sign_false_not_neg x : sf_sign_is false x → ¬ sf_neg x.
Proof. destruct x as [[]|[]| |[] ? ?]; simpl; try done; tauto. Qed.

Lemma SFldexp_not_neg x e : ¬ sf_neg x → ¬ sf_neg (SFldexp prec emax x e).
Proof.
  destruct x as [[]|[]| |[] m e']; simpl; try done. intros _.
  apply sf_sign_false_not_neg, binary_round_sign.
Qed.

Lemma SF2Prim_not_neg x :
  ¬ sf_neg x → ¬ sf_neg (Prim2SF (SF2Prim x)).
Proof.
  destruct x as [[]|[]| |[] m e];
    [by vm_compute|by vm_compute|by intros []|by vm_compute|by vm_compute
    |by intros []|intros _].
  unfold SF2Prim. rewrite Z_ldexp_spec. apply SFldexp_not_neg.
  rewrite of_uint63_spec. intros Hn.
  destruct (binary_normalize_sign prec emax
              (Uint63Axioms.to_Z (Uint63.of_Z (Z.pos m))) 0) as [_ Hneg].
  apply Hneg in Hn.
  pose proof (Uint63.to_Z_bounded (Uint63.of_Z (Z.pos m))). lia.
Qed.

Lemma float_of_decimal_not_negative s : (0 <=? float_of_decimal s)%float = true.
Proof.
  apply leb_zero_not_neg; [apply float_of_decimal_number|].
  unfold float_of_decimal. destruct (split_dot _) as [ip fp].
  destruct (digits_value _) as [|n|n]; [by vm_compute| |by vm_compute].
  apply SF2Prim_not_neg. intros Hn.
  by apply (SFdiv_sign prec emax (S754_finite false n 0)) in Hn.
Qed.
End not_negative.

(** ** The fields of the rows *)

Section fields.

Lemma digits_value_not_negative x :
  Forall (λ c, is_digit c = true) x →
  (0 ≤ digits_value (string_of_list_ascii x))%Z.
Proof.
  unfold digits_value. rewrite list_ascii_of_string_of_list_ascii.
  assert (∀ acc, (0 ≤ acc)%Z → Forall (λ c, is_digit c = true) x →
            (0 ≤ fold_left (λ acc c, 10 * acc + digit_val c) x acc)%Z) as H.
  { induction x as [|c x IH]; intros acc Hacc Hx; simpl; [done|].
    apply Forall_cons in Hx as [Hc Hx]. apply IH; [|done].
    unfold is_digit, digit_val in *. cbv zeta in Hc.
    apply andb_true_iff in Hc as [Hc _]. apply N.leb_le in Hc. lia. }
  by apply H.
Qed.

Lemma leading_spaces_app ind rest :
  spaces ind → (∃ c, head rest = Some c ∧ is_space c = false) →
  leading_spaces (ind ++ rest) = length ind.
Proof.
  intros Hind (c & Hhead & Hc). induction Hind as [|a ind Ha _ IH]; simpl.
  - destruct rest as [|c0 rest]; [done|]. injection Hhead as ->.
    simpl. by rewrite Hc.
  - by rewrite Ha, IH.
Qed.

Lemma pieces_extend_tail p s' :
  pieces_ok p → (s' = [] ∨ ∃ c, s' = [c] ∧ code c = 10%N) →
  ∃ p', pieces_ok p' ∧ pieces_text p' = pieces_text p ++ s' ∧
        pieces_row p' = pieces_row p ∧ int_pieces p' = int_pieces p.
Proof.
  intros Hok Hend.
  exists {| p_indent := p_indent p; p_name := p_name p; p_sep1 := p_sep1 p;
            p_pets := p_pets p; p_count := p_count p; p_sep2 := p_sep2 p;
            p_mean := p_mean p; p_sep3 := p_sep3 p; p_min := p_min p;
            p_sep4 := p_sep4 p; p_minpet := p_minpet p; p_sep5 := p_sep5 p;
            p_max := p_max p; p_sep6 := p_sep6 p; p_maxpet := p_maxpet p;
            p_tail := p_tail p ++ s' |}.
  unfold pieces_ok, pieces_text, pieces_row, int_pieces in *. simpl.
  split_and!; try apply Hok; [| |done|done].
  - apply Forall_app. split; [apply Hok|].
    destruct Hend as [->|(c & -> & Hc)]; [constructor|].
    constructor; [|done]. unfold is_space. cbv zeta. by rewrite Hc.
  - by rewrite <-!app_assoc.
Qed.

(** X15: the lines of the table. The pattern of [parse_esmf_summary]
    matches a line exactly when the line is made of these pieces, in this
    order: white space (possibly none), a name, white space, optionally
    the two columns of digits PETs and PEs each followed by white space,
    the count ([MULTIPLE] or digits), then mean, min, min PET, max and max
    PET, separated by white space, the times being digits with a point in
    between and the PETs being digits, and at the end white space
    (possibly none). The order in which [re] tries the alternatives does
    not change the set of lines that match. *)
Theorem tokenizer_language line :
  matches line
  ↔ ∃ p, pieces_ok p ∧ list_ascii_of_string line = pieces_text p.
Proof.
  rewrite matches_rmatch. split.
  - intros (s' & g' & (p & Hok & Hs & _ & Hend)%rmatch_pat).
    destruct (pieces_extend_tail p s' Hok Hend) as (p' & Hok' & Ht & _).
    exists p'. split; [done|]. by rewrite Ht.
  - intros (p & Hok & Hs). exists [], (pieces_groups p).
    apply rmatch_pat. exists p. rewrite app_nil_r. by split_and!; [..|left].
Qed.

Lemma re_match_pieces line g :
  re_match pat line = Some g →
  ∃ p, pieces_ok p ∧ list_ascii_of_string line = pieces_text p ∧
       row_of_groups g = pieces_row p ∧
       (ints_accepted g ↔ pieces_ints_fit p).
Proof.
  intros (s' & (p & Hok & Hs & -> & Hend)%rmatch_pat)%re_match_rmatch.
  destruct (pieces_extend_tail p s' Hok Hend)
    as (p' & Hok' & Ht & Hrow & Hints).
  exists p'. rewrite Hrow, (row_of_groups_pieces p Hok).
  split_and!; [done|by rewrite Ht|done|].
  rewrite ints_accepted_pieces. unfold pieces_ints_fit. by rewrite Hints.
Qed.

Lemma make_row_of_pieces g p :
  row_of_groups g = pieces_row p → (ints_accepted g ↔ pieces_ints_fit p) →
  RunCam.make_row g
  = if decide (pieces_ints_fit p) then Ok (pieces_row p) else Raise ValueError.
Proof.
  intros Hrow Hints. destruct (decide (pieces_ints_fit p)) as [H|H].
  - rewrite make_row_accepted by by apply Hints. by rewrite Hrow.
  - apply make_row_refused. by rewrite Hints.
Qed.

(** X16: the row of a matched line. The groups that [re] reports for a
    line come from a division of the line into the pieces of the grammar,
    and the row is read off these pieces: the indentation is the number of
    white-space characters at the start of the line, the region is the
    name as it stands (stripping changes nothing), PETs and PEs are there
    together or not at all, and the count is [None] exactly for
    [MULTIPLE]. Both scripts build their row from the same pieces;
    [run-cam/timing.py], which converts the integers, stops with the
    [ValueError] of [int] instead when one of the integer pieces has more
    than 4300 digits. *)
Theorem tokenizer_row line g :
  re_match pat line = Some g →
  ∃ p, pieces_ok p ∧ list_ascii_of_string line = pieces_text p ∧
       RunCam.make_row g
       = (if decide (pieces_ints_fit p) then Ok (pieces_row p)
          else Raise ValueError) ∧
       Timing.make_row g = to_timing (pieces_row p) ∧
       RunCam.indent (pieces_row p)
       = leading_spaces (list_ascii_of_string line).
Proof.
  intros (p & Hok & Hs & Hrow & Hints)%re_match_pieces. exists p.
  split_and!; [done|done|by apply make_row_of_pieces| |].
  - change (Timing.make_row g) with (to_timing (row_of_groups g)).
    by rewrite Hrow.
  - rewrite Hs. unfold pieces_text, pieces_row. simpl.
    destruct Hok as (Hind & ((c & Hhead & Hc) & _) & _).
    rewrite leading_spaces_app; [done|done|].
    exists c. split; [|done]. by destruct (p_name p).
Qed.

(** X17: what holds of every row of a parsed document (the rows of
    [timing/timing.py] being the same rows). The region is not empty and has no white space at either end;
    PETs and PEs are both there or both missing; no count and no PET
    number is negative; and the three times are numbers that are not
    negative (never NaN). *)
Theorem parsed_rows_are_well_formed text rows :
  RunCam.parse_esmf_summary text = Ok rows →
  Forall (λ r,
            RunCam.region r ≠ EmptyString ∧
            strip (RunCam.region r) = RunCam.region r ∧
            (RunCam.PETs r = None ↔ RunCam.PEs r = None) ∧
            (0 ≤ default 0 (RunCam.PETs r))%Z ∧
            (0 ≤ default 0 (RunCam.PEs r))%Z ∧
            (0 ≤ default 0 (RunCam.Count r))%Z ∧
            (0 ≤ RunCam.MinPET r)%Z ∧ (0 ≤ RunCam.MaxPET r)%Z ∧
            (0 <=? RunCam.Mean r)%float = true ∧
            (0 <=? RunCam.Min r)%float = true ∧
            (0 <=? RunCam.Max r)%float = true) rows.
Proof.
  intros Hp.
  apply RunCam_parse_Ok_inv in Hp as [-> _]. apply Forall_forall.
  intros r (line & _ & Hr)%list_elem_of_omap.
  destruct (re_match pat line) as [g|] eqn:Hg; [|done]. injection Hr as <-.
  apply re_match_pieces in Hg as (p & Hok & _ & -> & _).
  destruct Hok as (_ & Hname & _ & Hpets & Hcount & _ & _ & _ & _ & _
                   & [_ Hminpet] & _ & _ & _ & [_ Hmaxpet] & _).
  unfold pieces_row. simpl. split_and!.
  - intros E%string_of_list_ascii_nil.
    destruct Hname as ((c & Hhead & _) & _). by rewrite E in Hhead.
  - by apply strip_name_run.
  - by destruct (p_pets p).
  - destruct (p_pets p) as [[[[a ?] ?] ?]|]; simpl; [|done].
    destruct Hpets as ([_ Ha] & _). by apply digits_value_not_negative.
  - destruct (p_pets p) as [[[[? ?] b] ?]|]; simpl; [|done].
    destruct Hpets as (_ & _ & [_ Hb] & _). by apply digits_value_not_negative.
  - destruct (decide _); simpl; [done|].
    destruct Hcount as [E|[_ Hc]]; [|by apply digits_value_not_negative].
    by rewrite E in *.
  - by apply digits_value_not_negative.
  - by apply digits_value_not_negative.
  - apply float_of_decimal_not_negative.
  - apply float_of_decimal_not_negative.
  - apply float_of_decimal_not_negative.
Qed.
End fields.

(** ** What of a row does not depend on the division of its line *)

Section unique_numbers.

Lemma prefix_run_unique (P : ascii → bool) x1 r1 x2 r2 :
  x1 ++ r1 = x2 ++ r2 →
  Forall (λ c, P c = true) x1 → Forall (λ c, P c = true) x2 →
  (∀ c, head r1 = Some c → P c = false) →
  (∀ c, head r2 = Some c → P c = false) →
  x1 = x2 ∧ r1 = r2.
Proof.
  intros Heq H1. revert x2 Heq.
  induction H1 as [|c x1 Hc _ IH]; intros x2 Heq H2 Hr1 Hr2.
  - destruct H2 as [|c x2 Hc _]; [done|]. simpl in Heq. subst r1.
    specialize (Hr1 c eq_refl). congruence.
  - destruct H2 as [|c' x2 Hc' H2].
    + simpl in Heq. subst r2. specialize (Hr2 c eq_refl). congruence.
    + injection Heq as -> Heq. by destruct (IH x2 Heq H2 Hr1 Hr2) as [-> ->].
Qed.

Lemma suffix_run_unique (P : ascii → bool) l1 x1 l2 x2 :
  l1 ++ x1 = l2 ++ x2 →
  Forall (λ c, P c = true) x1 → Forall (λ c, P c = true) x2 →
  (∀ c, last l1 = Some c → P c = false) →
  (∀ c, last l2 = Some c → P c = false) →
  l1 = l2 ∧ x1 = x2.
Proof.
  intros Heq H1 H2 Hl1 Hl2.
  apply (f_equal reverse) in Heq. rewrite !reverse_app in Heq.
  destruct (prefix_run_unique P _ _ _ _ Heq) as [Hx Hl].
  - by apply Forall_reverse.
  - by apply Forall_reverse.
  - intros c. rewrite head_reverse. apply Hl1.
  - intros c. rewrite head_reverse. apply Hl2.
  - split; apply (inj reverse); done.
Qed.

Lemma last_app_run (Q : ascii → Prop) l y c :
  y ≠ [] → Forall Q y → last (l ++ y) = Some c → Q c.
Proof.
  intros Hne Hy. rewrite last_app.
  destruct (last y) as [a|] eqn:E; [|by rewrite last_None in E].
  intros [= <-]. apply last_Some_elem_of in E.
  rewrite Forall_forall in Hy. by apply Hy.
Qed.

Lemma digit_not_space c : is_digit c = true → is_space c = false.
Proof.
  unfold is_digit, is_space. cbv zeta.
  rewrite andb_true_iff, !N.leb_le. intros [H1 H2].
  repeat (apply orb_false_iff; split); try apply andb_false_iff;
    rewrite ?N.leb_gt, ?N.eqb_neq; lia.
Qed.

Lemma space_not_digit c : is_space c = true → is_digit c = false.
Proof.
  intros Hs. destruct (is_digit c) eqn:Hd; [|done].
  apply digit_not_space in Hd. congruence.
Qed.

Local Abbreviation ends_with P x := (∃ c, last x = Some c ∧ P c).

Lemma digit_run_ends x : digit_run x → ends_with (λ c, is_digit c = true) x.
Proof.
  intros [Hne Hx]. destruct (last x) as [c|] eqn:E; [|by rewrite last_None in E].
  exists c. split; [done|]. apply last_Some_elem_of in E.
  rewrite Forall_forall in Hx. by apply Hx.
Qed.

Lemma decimal_run_ends x : decimal_run x → ends_with (λ c, is_digit c = true) x.
Proof.
  intros (a & b & -> & _ & Hb). destruct (digit_run_ends b Hb) as (c & Hc & Hd).
  exists c. split; [|done]. destruct Hb as [Hne _].
  rewrite last_app_cons, last_cons, Hc. done.
Qed.

Lemma space_run_ends x : space_run x → ends_with (λ c, is_space c = true) x.
Proof.
  intros [Hne Hx]. destruct (last x) as [c|] eqn:E; [|by rewrite last_None in E].
  exists c. split; [done|]. apply last_Some_elem_of in E.
  unfold spaces in Hx. rewrite Forall_forall in Hx. by apply Hx.
Qed.

Lemma last_app_ends (P : ascii → Prop) l x c :
  ends_with P x → last (l ++ x) = Some c → P c.
Proof.
  intros (c' & Hc' & HP). rewrite last_app, Hc'. by intros [= <-].
Qed.

(** A run of white space at the end, behind something that ends with a
    digit or a letter. *)
Lemma peel_spaces l1 x1 s1 l2 x2 s2 :
  (l1 ++ x1) ++ s1 = (l2 ++ x2) ++ s2 →
  spaces s1 → spaces s2 →
  ends_with (λ c, is_space c = false) x1 →
  ends_with (λ c, is_space c = false) x2 →
  l1 ++ x1 = l2 ++ x2 ∧ s1 = s2.
Proof.
  intros Heq H1 H2 E1 E2.
  apply (suffix_run_unique is_space); [done..| |]; intros c.
  - by apply (last_app_ends (λ c, is_space c = false)).
  - by apply (last_app_ends (λ c, is_space c = false)).
Qed.

(** A run of digits at the end, behind white space. *)
Lemma peel_digits l1 s1 d1 l2 s2 d2 :
  (l1 ++ s1) ++ d1 = (l2 ++ s2) ++ d2 →
  space_run s1 → space_run s2 → digit_run d1 → digit_run d2 →
  l1 ++ s1 = l2 ++ s2 ∧ d1 = d2.
Proof.
  intros Heq S1 S2 [_ D1] [_ D2].
  apply (suffix_run_unique is_digit); [done..| |]; intros c Hc;
    apply space_not_digit.
  - by apply (last_app_ends (λ c, is_space c = true) l1 s1);
      [apply space_run_ends|].
  - by apply (last_app_ends (λ c, is_space c = true) l2 s2);
      [apply space_run_ends|].
Qed.

(** A decimal number at the end, behind white space. *)
Lemma peel_decimal l1 s1 m1 l2 s2 m2 :
  (l1 ++ s1) ++ m1 = (l2 ++ s2) ++ m2 →
  space_run s1 → space_run s2 → decimal_run m1 → decimal_run m2 →
  l1 ++ s1 = l2 ++ s2 ∧ m1 = m2.
Proof.
  intros Heq S1 S2 (a1 & b1 & -> & A1 & [_ B1]) (a2 & b2 & -> & A2 & [_ B2]).
  change (?a ++ "."%char :: ?b) with (a ++ ["."%char] ++ b) in Heq.
  rewrite !app_assoc in Heq.
  apply (suffix_run_unique is_digit) in Heq as [Heq ->]; [|done..| |].
  2,3: intros c; rewrite last_snoc; by intros [= <-].
  apply app_inj_tail in Heq as [Heq _].
  apply peel_digits in Heq as [-> ->]; done.
Qed.

Lemma pieces_front_ends p :
  pieces_ok p →
  ends_with (λ c, is_space c = true)
    (p_indent p ++ p_name p ++ p_sep1 p ++ pets_text (p_pets p)).
Proof.
  intros (_ & _ & Hs1 & Hpets & _).
  destruct (p_pets p) as [[[[a sa] b] sb]|]; simpl.
  - destruct Hpets as (_ & _ & _ & Hsb).
    destruct (space_run_ends sb Hsb) as (c & Hc & Hs). exists c.
    split; [|done]. rewrite !app_assoc, last_app, Hc. done.
  - destruct (space_run_ends _ Hs1) as (c & Hc & Hs). exists c.
    split; [|done]. rewrite app_nil_r, !app_assoc, last_app, Hc. done.
Qed.

Lemma count_ends x :
  x = list_ascii_of_string "MULTIPLE" ∨ digit_run x →
  ends_with (λ c, is_space c = false) x.
Proof.
  intros [->|(c & Hc & Hd)%digit_run_ends].
  - by exists "E"%char.
  - exists c. split; [done|]. by apply digit_not_space.
Qed.

Lemma peel_count l1 c1 l2 c2 :
  l1 ++ c1 = l2 ++ c2 →
  ends_with (λ c, is_space c = true) l1 →
  ends_with (λ c, is_space c = true) l2 →
  c1 = list_ascii_of_string "MULTIPLE" ∨ digit_run c1 →
  c2 = list_ascii_of_string "MULTIPLE" ∨ digit_run c2 →
  l1 = l2 ∧ c1 = c2.
Proof.
  intros Heq (a1 & La1 & Sa1) (a2 & La2 & Sa2) [->|D1] [->|D2].
  - by apply app_inv_tail in Heq as ->.
  - exfalso. destruct (digit_run_ends _ D2) as (d & Hd & Hdig).
    apply (f_equal last) in Heq.
    rewrite (last_app l2), Hd, last_app in Heq. simpl in Heq.
    injection Heq as <-. done.
  - exfalso. destruct (digit_run_ends _ D1) as (d & Hd & Hdig).
    apply (f_equal last) in Heq.
    rewrite (last_app l1), Hd, last_app in Heq. simpl in Heq.
    injection Heq as ->. done.
  - destruct D1 as [_ D1], D2 as [_ D2].
    apply (suffix_run_unique is_digit); [done..| |]; intros c Hc;
      apply space_not_digit; congruence.
Qed.

Lemma digit_ends_not_space x :
  ends_with (λ c, is_digit c = true) x → ends_with (λ c, is_space c = false) x.
Proof. intros (c & ? & ?). exists c. split; [done|]. by apply digit_not_space. Qed.

Lemma pieces_numbers_unique p q :
  pieces_ok p → pieces_ok q → pieces_text p = pieces_text q →
  p_indent p = p_indent q ∧ p_count p = p_count q ∧
  p_mean p = p_mean q ∧ p_min p = p_min q ∧ p_minpet p = p_minpet q ∧
  p_max p = p_max q ∧ p_maxpet p = p_maxpet q ∧
  p_name p ++ p_sep1 p ++ pets_text (p_pets p)
  = p_name q ++ p_sep1 q ++ pets_text (p_pets q).
Proof.
  intros Hp Hq Heq.
  pose proof (pieces_front_ends p Hp) as Fp.
  pose proof (pieces_front_ends q Hq) as Fq.
  destruct Hp as (Ip & Np & _ & _ & Cp & S2p & Mp & S3p & Mip & S4p & MPp
                  & S5p & Xp & S6p & XPp & Tp).
  destruct Hq as (Iq & Nq & _ & _ & Cq & S2q & Mq & S3q & Miq & S4q & MPq
                  & S5q & Xq & S6q & XPq & Tq).
  unfold pieces_text in Heq.
  set (Ap := p_indent p ++ p_name p ++ p_sep1 p ++ pets_text (p_pets p)) in *.
  set (Aq := p_indent q ++ p_name q ++ p_sep1 q ++ pets_text (p_pets q)) in *.
  assert (Ap ++ p_count p ++ p_sep2 p ++ p_mean p ++ p_sep3 p ++ p_min p
            ++ p_sep4 p ++ p_minpet p ++ p_sep5 p ++ p_max p ++ p_sep6 p
            ++ p_maxpet p ++ p_tail p
          = Aq ++ p_count q ++ p_sep2 q ++ p_mean q ++ p_sep3 q ++ p_min q
            ++ p_sep4 q ++ p_minpet q ++ p_sep5 q ++ p_max q ++ p_sep6 q
            ++ p_maxpet q ++ p_tail q) as H.
  { unfold Ap, Aq. by rewrite <-!app_assoc. }
  clear Heq. rewrite !app_assoc in H.
  apply peel_spaces in H as [H _];
    [|done|done|by apply digit_ends_not_space, digit_run_ends..].
  apply peel_digits in H as [H EXP]; [|done..].
  apply peel_spaces in H as [H _];
    [|by destruct S6p|by destruct S6q
     |by apply digit_ends_not_space, decimal_run_ends..].
  apply peel_decimal in H as [H EX]; [|done..].
  apply peel_spaces in H as [H _];
    [|by destruct S5p|by destruct S5q
     |by apply digit_ends_not_space, digit_run_ends..].
  apply peel_digits in H as [H EMP]; [|done..].
  apply peel_spaces in H as [H _];
    [|by destruct S4p|by destruct S4q
     |by apply digit_ends_not_space, decimal_run_ends..].
  apply peel_decimal in H as [H EMI]; [|done..].
  apply peel_spaces in H as [H _];
    [|by destruct S3p|by destruct S3q
     |by apply digit_ends_not_space, decimal_run_ends..].
  apply peel_decimal in H as [H EM]; [|done..].
  apply peel_spaces in H as [H _];
    [|by destruct S2p|by destruct S2q|by apply count_ends..].
  apply peel_count in H as [H EC]; [|done..].
  unfold Ap, Aq in H.
  apply (prefix_run_unique is_space) in H as [HI HF]; [by split_and!|done|done| |].
  - destruct Np as ((c & Hc & Hs) & _). intros c'.
    destruct (p_name p); [done|]. simpl in *. congruence.
  - destruct Nq as ((c & Hc & Hs) & _). intros c'.
    destruct (p_name q); [done|]. simpl in *. congruence.
Qed.

(** X19: what of a row does not depend on how [re] divides the line.
    However a matched line is divided into the pieces of the grammar, the
    indentation, the count, the three times and the two PET numbers of the
    row that is read come out the same: they are fixed by the line, the
    times and PET numbers being its last five fields and the count the
    field before them. Only the end of the name, and with it the columns
    PETs and PEs, can depend on the division. *)
Theorem row_numbers_are_fixed_by_the_line line g r q :
  re_match pat line = Some g → RunCam.make_row g = Ok r →
  pieces_ok q → list_ascii_of_string line = pieces_text q →
  RunCam.indent r = length (p_indent q) ∧
  RunCam.Count r = RunCam.Count (pieces_row q) ∧
  RunCam.Mean r = RunCam.Mean (pieces_row q) ∧
  RunCam.Min r = RunCam.Min (pieces_row q) ∧
  RunCam.MinPET r = RunCam.MinPET (pieces_row q) ∧
  RunCam.Max r = RunCam.Max (pieces_row q) ∧
  RunCam.MaxPET r = RunCam.MaxPET (pieces_row q).
Proof.
  intros (p & Hp & Hs & Hrow & _)%re_match_pieces [_ ->]%make_row_Ok_inv Hq Hs'.
  rewrite Hrow.
  destruct (pieces_numbers_unique p q Hp Hq)
    as (E1 & E2 & E3 & E4 & E5 & E6 & E7 & _); [congruence|].
  unfold pieces_row. simpl. by rewrite E1, E2, E3, E4, E5, E6, E7.
Qed.
End unique_numbers.

(** *** Which division of a line is reported *)

Section name_choice.

Lemma re_match_pieces_shortest line g :
  re_match pat line = Some g →
  ∃ p, pieces_ok p ∧ list_ascii_of_string line = pieces_text p ∧
       row_of_groups g = pieces_row p ∧
       ∀ q, pieces_ok q → list_ascii_of_string line = pieces_text q →
            2 ≤ length (p_name q) →
            2 ≤ length (p_name p) ≤ length (p_name q).
Proof.
  intros H.
  destruct (re_match_first_name _ _ H) as (p & s' & Hok & Ht & -> & Hend & Hmin).
  destruct (pieces_extend_tail p s' Hok Hend) as (p' & Hok' & Ht' & Hrow & _).
  exists p'. split; [done|]. split; [by rewrite Ht'|].
  split; [by rewrite Hrow, row_of_groups_pieces|].
  intros q Hq Hqt Hlen.
  assert (length (p_name p') = length (p_name p)) as ->.
  { apply (f_equal (λ r, String.length (RunCam.region r))) in Hrow.
    simpl in Hrow. by rewrite !length_string_of_list_ascii in Hrow. }
  apply Hmin; [done|done| |done].
  rewrite Ht in Hqt. unfold pieces_text in Hqt. rewrite <-app_assoc in Hqt.
  apply (prefix_run_unique is_space) in Hqt as [Hqt _]; [done|by destruct Hok|by destruct Hq| |].
  - destruct Hok as (_ & ((c & Hc & Hs) & _) & _). intros c'.
    destruct (p_name p); [done|]. simpl in *. congruence.
  - destruct Hq as (_ & ((c & Hc & Hs) & _) & _). intros c'.
    destruct (p_name q); [done|]. simpl in *. congruence.
Qed.

(** X20: which name is reported. When a line can be divided so that the
    name has two characters or more, [re] reports a name of two characters
    or more, and no longer than the name of any such division: the
    shortest name of at least two characters behind which the rest of the
    line still fits the pattern is taken, and a name of one character only
    when there is no other. *)
Theorem reported_name_is_the_shortest line g r q :
  re_match pat line = Some g → RunCam.make_row g = Ok r →
  pieces_ok q → list_ascii_of_string line = pieces_text q →
  2 ≤ length (p_name q) →
  2 ≤ String.length (RunCam.region r) ≤ length (p_name q).
Proof.
  intros (p & Hp & Ht & Hrow & Hmin)%re_match_pieces_shortest
    [_ ->]%make_row_Ok_inv Hq Hqt Hlen.
  rewrite Hrow. simpl. rewrite length_string_of_list_ascii. by apply Hmin.
Qed.

(** X21: a region of one character loses its columns PETs and PEs. On a
    line whose region name is a single character followed by the columns
    PETs and PEs (with no line feed in the blanks before and between
    them), the row that is read has neither PETs nor PEs, and its region
    is the character together with the blanks and the two numbers: the
    pattern tries a name of two characters or more before a name of one
    character. *)
Theorem one_character_name_takes_the_columns line g r p c a sa b sb :
  re_match pat line = Some g → RunCam.make_row g = Ok r →
  pieces_ok p → list_ascii_of_string line = pieces_text p →
  p_name p = [c] → p_pets p = Some (a, sa, b, sb) →
  Forall (λ x, is_dot x = true) (p_sep1 p ++ sa) →
  RunCam.region r = string_of_list_ascii (c :: p_sep1 p ++ a ++ sa ++ b) ∧
  RunCam.PETs r = None ∧ RunCam.PEs r = None.
Proof.
  intros (p' & Hp' & Ht' & Hrow & Hmin)%re_match_pieces_shortest
    [_ ->]%make_row_Ok_inv Hp Ht Hname Hpets Hdot.
  rewrite Hrow. clear Hrow.
  apply Forall_app in Hdot as [Hdot1 Hdota].
  pose proof Hp as (Hind & Hn & Hs1 & Hpp & Hrest). rewrite Hpets in Hpp.
  destruct Hpp as (Ha & Hsa & Hb & Hsb).
  assert (is_space c = false) as Hc.
  { destruct Hn as ((c0 & Hhead & Hc0) & _). rewrite Hname in Hhead.
    by injection Hhead as ->. }
  assert (∀ x, digit_run x → Forall (λ c, is_dot c = true) x) as Hdd.
  { intros x [_ Hx]. eapply Forall_impl; [exact Hx|]. intros d Hd.
    by apply not_space_is_dot, digit_not_space. }
  set (q := {| p_indent := p_indent p;
               p_name := c :: p_sep1 p ++ a ++ sa ++ b;
               p_sep1 := sb; p_pets := None;
               p_count := p_count p; p_sep2 := p_sep2 p;
               p_mean := p_mean p; p_sep3 := p_sep3 p; p_min := p_min p;
               p_sep4 := p_sep4 p; p_minpet := p_minpet p;
               p_sep5 := p_sep5 p; p_max := p_max p; p_sep6 := p_sep6 p;
               p_maxpet := p_maxpet p; p_tail := p_tail p |}).
  assert (pieces_ok q) as Hq.
  { split; [done|]. split; [|split; [done|split; [done|exact Hrest]]].
    simpl. split_and!.
    - by exists c.
    - destruct (digit_run_ends b Hb) as (d & Hd & Hdig). exists d.
      split; [|by apply digit_not_space].
      by rewrite app_comm_cons, !app_assoc, last_app, Hd.
    - constructor; [by apply not_space_is_dot|].
      rewrite !Forall_app. split_and!; auto. }
  assert (pieces_text q = pieces_text p) as Hqt.
  { unfold pieces_text. rewrite Hname, Hpets. simpl.
    by rewrite <-!app_assoc. }
  assert (2 ≤ length (p_name p')) as Hlen.
  { apply (Hmin q Hq); [congruence|]. subst q. simpl.
    destruct Hs1 as [Hne _]. destruct (p_sep1 p); [done|]. simpl. lia. }
  destruct (pieces_numbers_unique p' p Hp' Hp)
    as (_ & _ & _ & _ & _ & _ & _ & HF); [congruence|].
  rewrite Hname, Hpets in HF. simpl in HF.
  pose proof Hp' as (_ & Hn' & Hs1' & Hpp' & _).
  assert (∃ d, last (p_name p') = Some d ∧ is_space d = false) as Hend'
    by (by destruct Hn' as (_ & ? & _)).
  destruct (p_pets p') as [[[[a' sa'] b'] sb']|] eqn:E.
  - exfalso. destruct Hpp' as (Ha' & Hsa' & Hb' & Hsb'). simpl in HF.
    assert (((((p_name p' ++ p_sep1 p') ++ a') ++ sa') ++ b') ++ sb'
            = ((((([c] ++ p_sep1 p) ++ a) ++ sa) ++ b) ++ sb)) as H
      by (rewrite <-!app_assoc; exact HF).
    apply peel_spaces in H as [H _];
      [|by destruct Hsb'|by destruct Hsb
       |by apply digit_ends_not_space, digit_run_ends..].
    apply peel_digits in H as [H _]; [|done..].
    apply peel_spaces in H as [H _];
      [|by destruct Hsa'|by destruct Hsa
       |by apply digit_ends_not_space, digit_run_ends..].
    apply peel_digits in H as [H _]; [|done..].
    apply (peel_spaces [] (p_name p') (p_sep1 p') [] [c] (p_sep1 p))
      in H as [H _];
      [|by destruct Hs1'|by destruct Hs1|done|by exists c].
    simpl in H. rewrite H in Hlen. simpl in Hlen. lia.
  - simpl in HF. rewrite app_nil_r in HF.
    assert (([] ++ p_name p') ++ p_sep1 p'
            = ([] ++ (c :: p_sep1 p ++ a ++ sa ++ b)) ++ sb) as H
      by (simpl; rewrite HF, <-!app_assoc; done).
    apply peel_spaces in H as [H _];
      [|by destruct Hs1'|by destruct Hsb|done|].
    + simpl in H. unfold pieces_row. simpl. by rewrite E, H.
    + destruct (digit_run_ends b Hb) as (d & Hd & Hdig). exists d.
      split; [|by apply digit_not_space].
      by rewrite app_comm_cons, !app_assoc, last_app, Hd.
Qed.
End name_choice.

(** ** The further properties at work on the example *)

Lemma ranking_leaves_out_the_smallest_witness :
  ∃ rest,
    sorted RunCam.Mean true (take 2 (drop 1 example_rows))
    = slice_to (sorted RunCam.Mean true (take 2 (drop 1 example_rows))) (-1)
      ++ rest ∧
    RunCam.region <$> rest = ["advance"] ∧
    ∀ a b,
      a ∈ slice_to (sorted RunCam.Mean true (take 2 (drop 1 example_rows))) (-1) →
      b ∈ rest → (RunCam.Mean b <=? RunCam.Mean a)%float = true.
Proof.
  destruct (ranking_leaves_out_the_smallest example_summary example_rows
              (take 2 (drop 1 example_rows)) (-1)) as (rest & H1 & _ & _ & H2).
  - by vm_compute.
  - etrans; [apply subseteq_take|apply subseteq_drop].
  - exists rest. split_and!; [done| |done].
    apply (f_equal (drop 1)) in H1. vm_compute in H1. by subst rest.
Defined.

Lemma collect_children_nested_witness :
  ∃ out',
    RunCam.collect_children id example_rows 1 = Ok out' ∧
    1 + length out' ≤ 0 + 2 ∧
    out' = take (length out') (drop (1 - 0) (take 2 (drop 1 example_rows))).
Proof.
  apply (collect_children_nested id example_rows 0 1
           (take 2 (drop 1 example_rows))).
  - by vm_compute.
  - simpl. lia.
Defined.

Lemma main_default_region_witness :
  ∃ vals out,
    RunCam.parse_esmf_summary example_summary = Ok vals ∧
    RunCam.main run_cam_default_args = Ok out ∧
    match out with
    | RunCam.NoChildren _ name
    | RunCam.Reported _ {| RunCam.rep_region := name |} =>
        name = if bool_decide (Exists (λ r, RunCam.region r = "dyn_run") vals)
               then "dyn_run"
               else default EmptyString (RunCam.region <$> head vals)
    end.
Proof.
  destruct (main_default_region run_cam_default_args eq_refl) as [H|[H|H]].
  - by vm_compute in H.
  - by vm_compute in H.
  - exact H.
Defined.

Lemma main_region_without_children_witness :
  RunCam.main (run_cam_args "advance" (Some example_not_a_summary))
  = Ok (RunCam.NoChildren example_rows "advance").
Proof.
  apply (main_region_without_children _ "advance" example_rows 1
           (example_rows !!! 1)).
  - done.
  - by vm_compute.
  - by vm_compute.
  - intros r Hr. vm_compute in Hr. injection Hr as <-. simpl. lia.
Defined.

Lemma main_unrecognized_optimized_witness :
  RunCam.main (run_cam_args "dyn_run" (Some example_not_a_summary))
  = Raise (RuntimeError RunCam.no_rows_msg).
Proof.
  apply (main_unrecognized_optimized _ "dyn_run" example_rows 0
           (example_rows !!! 0) (example_rows !!! 1) example_not_a_summary).
  - done.
  - by vm_compute.
  - by vm_compute.
  - by vm_compute.
  - simpl. lia.
  - done.
  - apply (bool_decide_unpack _). by vm_compute.
Defined.

Lemma main_csv_rows_witness :
  ∃ h rep ovals,
    RunCam.main (run_cam_args "dyn_run" (Some example_optimized))
    = Ok (RunCam.Reported h rep) ∧
    optimized_rows (run_cam_args "dyn_run" (Some example_optimized)) = Ok ovals ∧
    RunCam.csv_rows (RunCam.rep_acc rep)
    = map (λ r, csv_row_of (RunCam.deref example_rows r)
                  (last_named (RunCam.region (RunCam.deref example_rows r)) ovals))
        (RunCam.rep_selected rep) ∧
    map RunCam.t_name (RunCam.table (RunCam.rep_acc rep))
    = map (λ r, RunCam.substring_to 40
                  (RunCam.region (RunCam.deref example_rows r)))
        (RunCam.rep_selected rep) ∧
    RunCam.opt_means (RunCam.rep_acc rep) = [None; Some 3%float].
Proof.
  eexists _, _, _. split; [by vm_compute|]. split; [by vm_compute|].
  split_and!; [| |by vm_compute];
    eapply (main_csv_rows (run_cam_args "dyn_run" (Some example_optimized)));
    by vm_compute.
Defined.

Lemma main_annotations_witness :
  ∃ h rep ovals,
    RunCam.main (run_cam_args "dyn_run" (Some example_optimized))
    = Ok (RunCam.Reported h rep) ∧
    optimized_rows (run_cam_args "dyn_run" (Some example_optimized)) = Ok ovals ∧
    RunCam.rep_annotations rep
    = Some (omap (λ r, note_of (RunCam.deref example_rows r)
                         (last_named (RunCam.region (RunCam.deref example_rows r))
                            ovals))
              (reverse (RunCam.rep_selected rep))).
Proof.
  eexists _, _, _. split; [by vm_compute|]. split; [by vm_compute|].
  eapply (main_annotations (run_cam_args "dyn_run" (Some example_optimized)));
    by vm_compute.
Defined.

Lemma Timing_main_KeyError_witness :
  Timing.main (timing_args (Some example_optimized)) = Raise (KeyError "remap").
Proof.
  destruct (Timing_main_KeyError (timing_args (Some example_optimized))
              ["advance"] "remap" [] eq_refl) as [_ H].
  apply (H (take 2 (drop 1 example_timing_rows))).
  - apply Forall2_cons. split; [by vm_compute|].
    apply Forall2_cons. split; [by vm_compute|]. constructor.
  - done.
  - apply (bool_decide_unpack _). by vm_compute.
  - apply Forall_cons. split; [vm_compute; by eexists|]. constructor.
  - by vm_compute.
  - apply Exists_cons_hd. vm_compute. by eexists.
Defined.

Lemma Timing_main_plot_witness :
  ∃ plot o,
    Timing.main (timing_args (Some example_baseline)) = Ok plot ∧
    Timing.overlay plot = Some o ∧
    Timing.base_means plot = Timing.Mean <$> take 2 (drop 1 example_timing_rows) ∧
    Timing.opt_means o = Timing.Mean <$> take 2 (drop 1 example_timing_rows).
Proof.
  destruct (Timing_main_plot (timing_args (Some example_baseline))
              (take 2 (drop 1 example_timing_rows))) as [_ H].
  - apply Forall2_cons. split; [by vm_compute|].
    apply Forall2_cons. split; [by vm_compute|]. constructor.
  - destruct H as [_ H]; [done|apply (bool_decide_unpack _); by vm_compute|].
    specialize (H (take 2 (drop 1 example_timing_rows))).
    rewrite decide_True in H by (apply (bool_decide_unpack _); by vm_compute).
    eexists _, _. split; [apply H|].
    + done.
    + apply Forall2_cons. split; [by vm_compute|].
      apply Forall2_cons. split; [by vm_compute|]. constructor.
    + by split_and!.
Defined.

(** A line that matches and whose row is built. *)
Lemma match_and_row line :
  bool_decide
    (is_Some (g ← re_match pat line;
              match RunCam.make_row g with
              | Ok r => Some r
              | Raise _ => None
              end)) = true →
  ∃ g r, re_match pat line = Some g ∧ RunCam.make_row g = Ok r.
Proof.
  intros [r H]%bool_decide_eq_true.
  destruct (re_match pat line) as [g|]; [|done].
  change (match RunCam.make_row g with
          | Ok r => Some r
          | Raise _ => None
          end = Some r) in H.
  destruct (RunCam.make_row g) as [r'|] eqn:Hr; [|done]. by exists g, r'.
Qed.

Lemma tokenizer_row_witness :
  ∃ g p,
    re_match pat example_line = Some g ∧
    pieces_ok p ∧ list_ascii_of_string example_line = pieces_text p ∧
    RunCam.make_row g = Ok (pieces_row p) ∧
    Timing.make_row g = to_timing (pieces_row p) ∧
    RunCam.indent (pieces_row p) = 2.
Proof.
  destruct (match_and_row example_line) as (g & r & Hg & Hr); [by vm_compute|].
  destruct (tokenizer_row example_line g Hg) as (p & H1 & H2 & H3 & H4 & H5).
  exists g, p. split_and!; [done..| |done|].
  - destruct (decide (pieces_ints_fit p)); [done|congruence].
  - rewrite H5. by vm_compute.
Defined.

Lemma parsed_rows_are_well_formed_witness :
  Forall (λ r,
            RunCam.region r ≠ EmptyString ∧
            strip (RunCam.region r) = RunCam.region r ∧
            (RunCam.PETs r = None ↔ RunCam.PEs r = None) ∧
            (0 ≤ default 0 (RunCam.PETs r))%Z ∧
            (0 ≤ default 0 (RunCam.PEs r))%Z ∧
            (0 ≤ default 0 (RunCam.Count r))%Z ∧
            (0 ≤ RunCam.MinPET r)%Z ∧ (0 ≤ RunCam.MaxPET r)%Z ∧
            (0 <=? RunCam.Mean r)%float = true ∧
            (0 <=? RunCam.Min r)%float = true ∧
            (0 <=? RunCam.Max r)%float = true) example_rows.
Proof.
  apply (parsed_rows_are_well_formed example_summary). by vm_compute.
Defined.

Lemma row_numbers_are_fixed_by_the_line_witness :
  ∃ g r,
    re_match pat example_line = Some g ∧ RunCam.make_row g = Ok r ∧
    RunCam.PETs (pieces_row example_division) = None ∧
    RunCam.indent r = 2 ∧
    RunCam.Count r = None ∧
    RunCam.Mean r = 9%float ∧
    RunCam.Min r = 9.5%float ∧
    RunCam.MinPET r = 0%Z ∧
    RunCam.Max r = 9.25%float ∧
    RunCam.MaxPET r = 1%Z.
Proof.
  destruct (match_and_row example_line) as (g & r & Hg & Hr); [by vm_compute|].
  assert (pieces_ok example_division) as Hok.
  { unfold pieces_ok, example_division, name_run, space_run, digit_run, spaces.
    simpl. split_and!; try (apply (bool_decide_unpack _); by vm_compute).
    - by exists "r"%char.
    - by exists "4"%char.
    - exists ["9"%char], (list_ascii_of_string "0000").
      split_and!; by apply (bool_decide_unpack _); vm_compute.
    - exists ["9"%char], (list_ascii_of_string "5000").
      split_and!; by apply (bool_decide_unpack _); vm_compute.
    - exists ["9"%char], (list_ascii_of_string "2500").
      split_and!; by apply (bool_decide_unpack _); vm_compute. }
  destruct (row_numbers_are_fixed_by_the_line example_line g r example_division
              Hg Hr Hok eq_refl) as (E1 & E2 & E3 & E4 & E5 & E6 & E7).
  exists g, r. rewrite E1, E2, E3, E4, E5, E6, E7.
  split_and!; [done|done|done|done|done|by vm_compute..].
Defined.

Lemma reported_name_is_the_shortest_witness :
  ∃ g r,
    re_match pat example_line = Some g ∧ RunCam.make_row g = Ok r ∧
    2 ≤ String.length (RunCam.region r) ≤ length (p_name example_division).
Proof.
  destruct (match_and_row example_line) as (g & r & Hg & Hr); [by vm_compute|].
  assert (pieces_ok example_division) as Hok.
  { unfold pieces_ok, example_division, name_run, space_run, digit_run, spaces.
    simpl. split_and!; try (apply (bool_decide_unpack _); by vm_compute).
    - by exists "r"%char.
    - by exists "4"%char.
    - exists ["9"%char], (list_ascii_of_string "0000").
      split_and!; by apply (bool_decide_unpack _); vm_compute.
    - exists ["9"%char], (list_ascii_of_string "5000").
      split_and!; by apply (bool_decide_unpack _); vm_compute.
    - exists ["9"%char], (list_ascii_of_string "2500").
      split_and!; by apply (bool_decide_unpack _); vm_compute. }
  exists g, r. split; [done|]. split; [done|].
  apply (reported_name_is_the_shortest example_line g r example_division);
    [done|done|done|done|].
  apply (bool_decide_unpack _). by vm_compute.
Defined.

Lemma one_character_name_takes_the_columns_witness :
  ∃ g r,
    re_match pat example_short_line = Some g ∧ RunCam.make_row g = Ok r ∧
    RunCam.region r = "g  4  4" ∧
    RunCam.PETs r = None ∧
    RunCam.PEs r = None.
Proof.
  destruct (match_and_row example_short_line) as (g & r & Hg & Hr);
    [by vm_compute|].
  assert (pieces_ok example_short_division) as Hok.
  { unfold pieces_ok, example_short_division, name_run, space_run, digit_run,
      spaces.
    simpl. split_and!; try (apply (bool_decide_unpack _); by vm_compute).
    - by exists "g"%char.
    - by exists "g"%char.
    - exists ["9"%char], (list_ascii_of_string "0000").
      split_and!; by apply (bool_decide_unpack _); vm_compute.
    - exists ["9"%char], (list_ascii_of_string "5000").
      split_and!; by apply (bool_decide_unpack _); vm_compute.
    - exists ["9"%char], (list_ascii_of_string "2500").
      split_and!; by apply (bool_decide_unpack _); vm_compute. }
  destruct (one_character_name_takes_the_columns example_short_line g r
              example_short_division "g"%char
              (list_ascii_of_string "4") (list_ascii_of_string "  ")
              (list_ascii_of_string "4") (list_ascii_of_string "  ")
              Hg Hr Hok eq_refl eq_refl eq_refl) as (E1 & E2 & E3).
  { apply (bool_decide_unpack _). by vm_compute. }
  exists g, r. by rewrite E1, E2, E3.
Defined.

Lemma ranking_of_parsed_children_witness :
  ∃ h rep,
    RunCam.main (run_cam_top_args 1) = Ok (RunCam.Reported h rep) ∧
    RunCam.rep_selected rep = [2] ∧
    RunCam.region (RunCam.deref example_rows 2) = "remap" ∧
    length (RunCam.rep_selected rep) = Z.to_nat 1 `min` length [1; 2] ∧
    RunCam.rep_selected rep ⊆+ [1; 2].
Proof.
  destruct (ranking_of_parsed_children (run_cam_top_args 1) example_rows
              "dyn_run" 0 0 [1; 2])
    as (h & rep & Hmain & Hsel & Hlen & _ & Hsub & _).
  - by vm_compute.
  - done.
  - by vm_compute.
  - by vm_compute.
  - done.
  - by exists [].
  - simpl. lia.
  - exists h, rep. split; [done|]. split; [rewrite Hsel; by vm_compute|].
    by split_and!.
Defined.

Lemma ratios_have_sentinels_witness :
  ∃ h rep,
    RunCam.main (run_cam_args "dyn_run" (Some example_optimized))
    = Ok (RunCam.Reported h rep) ∧
    RunCam.pct_of_parent <$> h !! 1 = Some (Some 60%float) ∧
    ∃ vals ovals parent pidx children,
      RunCam.parse_esmf_summary example_summary = Ok vals ∧
      optimized_rows (run_cam_args "dyn_run" (Some example_optimized))
      = Ok ovals ∧
      RunCam.find_region_rows (RunCam.deref vals) (seq 0 (length vals))
        (RunCam.rep_region rep) = Some (parent, pidx) ∧
      RunCam.collect_children (RunCam.deref vals) (seq 0 (length vals)) pidx
      = Ok children ∧
      Forall (λ c, RunCam.pct_of_parent (RunCam.deref h c)
                   = Some (if 0 <? RunCam.Mean (RunCam.deref vals parent)
                           then 100 * (RunCam.Mean (RunCam.deref vals c)
                                       / RunCam.Mean (RunCam.deref vals parent))
                           else nan)%float) children ∧
      Forall2 (λ r row,
                 RunCam.speedup <$> RunCam.optimized row
                 = (λ o, if 0 <? RunCam.Mean o
                         then Some (RunCam.Mean (RunCam.deref vals r)
                                    / RunCam.Mean o)
                         else None)%float
                   <$> last_named (RunCam.region (RunCam.deref vals r)) ovals)
        (RunCam.rep_selected rep) (RunCam.csv_rows (RunCam.rep_acc rep)) ∧
      (∀ pm cs h0, ∃ h', RunCam.share_loop pm cs h0 = Ok h') ∧
      (∀ h0 w m acc rs, ∃ acc', RunCam.emit_rows h0 w m acc rs = Ok acc').
Proof.
  eexists _, _. split; [by vm_compute|]. split; [by vm_compute|].
  apply (ratios_have_sentinels
           (run_cam_args "dyn_run" (Some example_optimized))).
  by vm_compute.
Defined.

Lemma rows_keep_parsed_fields_witness :
  ∃ h rep,
    RunCam.main (run_cam_args "dyn_run" (Some example_optimized))
    = Ok (RunCam.Reported h rep) ∧
    ∃ vals ovals parent pidx children,
      RunCam.parse_esmf_summary example_summary = Ok vals ∧
      optimized_rows (run_cam_args "dyn_run" (Some example_optimized))
      = Ok ovals ∧
      RunCam.find_region_rows (RunCam.deref vals) (seq 0 (length vals))
        (RunCam.rep_region rep) = Some (parent, pidx) ∧
      RunCam.collect_children (RunCam.deref vals) (seq 0 (length vals)) pidx
      = Ok children ∧
      children = seq (S pidx) (length children) ∧
      length h = length vals + length ovals ∧
      (∀ i r, vals !! i = Some r →
         h !! i = Some (if decide (i ∈ children)
                        then RunCam.with_pct
                               (share (RunCam.rep_pmean rep) (RunCam.Mean r)) r
                        else r)) ∧
      (∀ i r r', vals !! i = Some r → h !! i = Some r' →
         parsed_fields r' = parsed_fields r) ∧
      (∀ j, h !! (length vals + j) = ovals !! j) ∧
      (∀ name o, RunCam.rep_opt_map rep !! name = Some o →
         ∃ row, h !! o = Some row ∧ ovals !! (o - length vals) = Some row ∧
                RunCam.region row = name).
Proof.
  eexists _, _. split; [by vm_compute|].
  apply (rows_keep_parsed_fields
           (run_cam_args "dyn_run" (Some example_optimized))
           (RunCam.Reported _ _)).
  by vm_compute.
Defined.

Lemma RunCam_parse_esmf_summary_spec_witness :
  Exists matches (splitlines example_long_count) ∧
  RunCam.parse_esmf_summary example_long_count = Raise ValueError.
Proof.
  split; [apply (bool_decide_unpack _); by vm_compute|].
  destruct (RunCam_parse_esmf_summary_spec example_long_count) as (_ & H & _).
  apply H. apply (bool_decide_unpack _). by vm_compute.
Defined.
